(** * Ingress-NGINX migration analyzer: classification and inventory core

    A shallow embedding of the Go packages [models], [rules], [analyze], of
    the helpers of the two reports and of the conversion of the package
    [discovery], followed by the properties of the specification that were
    checked against it and by further properties of the code.

    Conventions of the embedding:
    - Go [string] is [string]; Go [int] is [Z] with the 64-bit wrap-around of
      [+] written out in [int_add];
    - Go [map[string]V] is [gmap string V]; a [range] over a map visits its
      entries in an order the language leaves open, which an explicit
      [range_oracle] argument resolves;
    - the records of an inventory map are reached through pointers in the
      source; [getOrCreateUsage] allocates one record per map and key, so no
      record is shared between two maps or two keys and a map of records by
      value carries the same information. *)

From Stdlib Require Import ZArith String Ascii List Floats.
From Stdlib Require OrderedTypeEx.
Open Scope string_scope.
From stdpp Require Import gmap strings list fin_maps sorting pretty.
Open Scope Z_scope.

(** ** Go primitives *)

(** Go's [int] on the 64-bit targets the analyzer is built for. *)
Definition int := Z.

Definition int_wrap (z : Z) : int := (z + 2 ^ 63) mod 2 ^ 64 - 2 ^ 63.

Definition int_add (a b : int) : int := int_wrap (a + b).

(** [strings.HasPrefix(s, prefix)]. *)
Definition strings_HasPrefix (s pre : string) : bool := String.prefix pre s.

(** The order in which one run of the program visits the entries of its maps.
    Go only promises that every entry is visited exactly once. *)
Definition range_oracle := forall V : Type, gmap string V -> list (string * V).

Definition range_ok (rng : range_oracle) : Prop :=
  forall V (m : gmap string V), rng V m ≡ₚ map_to_list m.

(** Two concrete visiting orders. *)
Definition range_canonical : range_oracle := fun V m => map_to_list m.
Definition range_reversed : range_oracle := fun V m => reverse (map_to_list m).

(** *** [regexp.MatchString] on the patterns of the rule table

    The rule table only holds patterns built from literal characters and the
    dot. On those, RE2 searches the subject for a substring in which every
    literal of the pattern is matched by itself and every dot by one
    character other than a line feed. A pattern holding any other
    metacharacter is outside this fragment ([None]). Annotation keys are
    ASCII, one [ascii] per character. *)
Inductive re_atom : Type :=
  | ReLit (c : ascii)
  | ReAnyNotNL.

Definition re_meta : list ascii :=
  list_ascii_of_string "\+*?()|[]{}^$".

Definition re_atom_of (c : ascii) : option re_atom :=
  if Ascii.eqb c "." then Some ReAnyNotNL
  else if existsb (Ascii.eqb c) re_meta then None
  else Some (ReLit c).

Fixpoint re_compile (pattern : string) : option (list re_atom) :=
  match pattern with
  | EmptyString => Some []
  | String c rest =>
      match re_atom_of c, re_compile rest with
      | Some a, Some r => Some (a :: r)
      | _, _ => None
      end
  end.

Definition re_atom_matches (a : re_atom) (c : ascii) : bool :=
  match a with
  | ReLit d => Ascii.eqb d c
  | ReAnyNotNL => negb (Ascii.eqb c "010")
  end.

(** The pattern matches at the start of [s]. *)
Fixpoint re_match_here (re : list re_atom) (s : string) : bool :=
  match re, s with
  | [], _ => true
  | _ :: _, EmptyString => false
  | a :: re', String c s' => re_atom_matches a c && re_match_here re' s'
  end.

(** The pattern matches somewhere in [s]: the search is not anchored. *)
Fixpoint re_search (re : list re_atom) (s : string) : bool :=
  re_match_here re s ||
  match s with
  | EmptyString => false
  | String _ s' => re_search re s'
  end.

Definition regexp_MatchString (pattern s : string) : option bool :=
  match re_compile pattern with
  | Some re => Some (re_search re s)
  | None => None
  end.

(** ** Package [models] *)

(** [type RiskLevel string] *)
Definition RiskLevel := string.

Definition RiskAuto : RiskLevel := "AUTO".
Definition RiskManual : RiskLevel := "MANUAL".
Definition RiskHigh : RiskLevel := "HIGH_RISK".

(** The fields the core reads. [Labels], [Hosts], [Paths] and [CreatedAt] are
    carried by the source record but never inspected. *)
Record IngressResource : Type := {
  Res_Name : string;
  Res_Namespace : string;
  Res_ClassName : string;
  Res_Annotations : gmap string string
}.

Record AnnotationRule : Type := {
  Rule_Name : string;
  Rule_Pattern : string;
  Rule_RiskLevel : RiskLevel;
  Rule_Description : string;
  Rule_MigrationNote : string;
  Rule_SourceURL : string
}.

Record IngressAnalysis : Type := {
  An_Resource : IngressResource;
  An_MatchedRules : list AnnotationRule;
  An_RiskLevel : RiskLevel;
  An_UnknownAnnotations : list string
}.

Record NamespaceSummary : Type := {
  NS_AutoCount : int;
  NS_ManualCount : int;
  NS_HighRiskCount : int
}.

Record AnalysisSummary : Type := {
  Sum_TotalIngresses : int;
  Sum_AutoCount : int;
  Sum_ManualCount : int;
  Sum_HighRiskCount : int;
  Sum_ByNamespace : gmap string NamespaceSummary
}.

(** ** Package [rules] *)

Definition GetAnnotationRules : list AnnotationRule :=
  [
    {| Rule_Name := "Rewrite Target";
       Rule_Pattern := "nginx.ingress.kubernetes.io/rewrite-target";
       Rule_RiskLevel := RiskAuto;
       Rule_Description := "URL path rewriting functionality";
       Rule_MigrationNote :=
         "Gateway API HTTPRoute supports path rewriting via URLRewrite filters (GEP-726). "
           +:+ "Most Gateway implementations support this feature.";
       Rule_SourceURL := "https://gateway-api.sigs.k8s.io/guides/http-redirect-rewrite/" |};
    {| Rule_Name := "SSL Redirect";
       Rule_Pattern := "nginx.ingress.kubernetes.io/ssl-redirect";
       Rule_RiskLevel := RiskAuto;
       Rule_Description := "Automatic HTTPS redirect";
       Rule_MigrationNote :=
         "Gateway API HTTPRoute supports HTTPS redirects via RequestRedirect filters. "
           +:+ "Standard feature across Gateway implementations.";
       Rule_SourceURL := "https://gateway-api.sigs.k8s.io/guides/http-redirect-rewrite/" |};
    {| Rule_Name := "Force SSL Redirect";
       Rule_Pattern := "nginx.ingress.kubernetes.io/force-ssl-redirect";
       Rule_RiskLevel := RiskAuto;
       Rule_Description := "Force HTTPS redirect even for non-SSL listeners";
       Rule_MigrationNote :=
         "Gateway API HTTPRoute supports HTTPS redirects via RequestRedirect filters. "
           +:+ "Similar implementation pattern to ssl-redirect.";
       Rule_SourceURL := "https://gateway-api.sigs.k8s.io/guides/http-redirect-rewrite/" |};
    {| Rule_Name := "Backend Protocol";
       Rule_Pattern := "nginx.ingress.kubernetes.io/backend-protocol";
       Rule_RiskLevel := RiskManual;
       Rule_Description := "Specifies protocol for backend communication (HTTP/HTTPS/GRPC/etc)";
       Rule_MigrationNote :=
         "Gateway API BackendRef supports protocol fields, but implementation "
           +:+ "varies by Gateway provider. Verify your Gateway supports the required protocols.";
       Rule_SourceURL := "https://gateway-api.sigs.k8s.io/reference/spec/#backendref" |};
    {| Rule_Name := "Use Regex";
       Rule_Pattern := "nginx.ingress.kubernetes.io/use-regex";
       Rule_RiskLevel := RiskManual;
       Rule_Description := "Enable regex matching for paths";
       Rule_MigrationNote :=
         "Gateway API HTTPRoute supports RegularExpression path matching (v1.1+). "
           +:+ "Verify your Gateway implementation supports regex and review syntax differences.";
       Rule_SourceURL := "https://gateway-api.sigs.k8s.io/reference/spec/#httppathmatch" |};
    {| Rule_Name := "Proxy Body Size";
       Rule_Pattern := "nginx.ingress.kubernetes.io/proxy-body-size";
       Rule_RiskLevel := RiskManual;
       Rule_Description := "Maximum size of the client request body";
       Rule_MigrationNote :=
         "No standardized Gateway API equivalent. Gateway implementations may support "
           +:+ "request size limits via vendor-specific policies. Check your Gateway documentation.";
       Rule_SourceURL := "https://kubernetes.github.io/ingress-nginx/user-guide/nginx-configuration/annotations/#proxy-body-size" |};
    {| Rule_Name := "Proxy Read Timeout";
       Rule_Pattern := "nginx.ingress.kubernetes.io/proxy-read-timeout";
       Rule_RiskLevel := RiskManual;
       Rule_Description := "Timeout for reading response from backend";
       Rule_MigrationNote :=
         "Gateway API may support timeouts via implementation-specific policies. "
           +:+ "Check your Gateway implementation's policy support or use service mesh.";
       Rule_SourceURL := "https://kubernetes.github.io/ingress-nginx/user-guide/nginx-configuration/annotations/#proxy-read-timeout" |};
    {| Rule_Name := "Proxy Send Timeout";
       Rule_Pattern := "nginx.ingress.kubernetes.io/proxy-send-timeout";
       Rule_RiskLevel := RiskManual;
       Rule_Description := "Timeout for transmitting request to backend";
       Rule_MigrationNote :=
         "Similar to read timeout - check Gateway implementation policy support "
           +:+ "or implement at application/service mesh level.";
       Rule_SourceURL := "https://kubernetes.github.io/ingress-nginx/user-guide/nginx-configuration/annotations/#proxy-send-timeout" |};
    {| Rule_Name := "Auth URL";
       Rule_Pattern := "nginx.ingress.kubernetes.io/auth-url";
       Rule_RiskLevel := RiskManual;
       Rule_Description := "External authentication service URL";
       Rule_MigrationNote :=
         "Gateway API doesn't standardize external auth, but many implementations "
           +:+ "support it. Consider OAuth2/OIDC policies or service mesh auth instead.";
       Rule_SourceURL := "https://kubernetes.github.io/ingress-nginx/user-guide/nginx-configuration/annotations/#auth-url" |};
    {| Rule_Name := "Proxy Connect Timeout";
       Rule_Pattern := "nginx.ingress.kubernetes.io/proxy-connect-timeout";
       Rule_RiskLevel := RiskManual;
       Rule_Description := "Timeout for establishing connection to backend";
       Rule_MigrationNote :=
         "Check Gateway implementation support for connection timeouts or "
           +:+ "implement circuit breaker patterns at the application level.";
       Rule_SourceURL := "https://kubernetes.github.io/ingress-nginx/user-guide/nginx-configuration/annotations/#proxy-connect-timeout" |};
    {| Rule_Name := "Client Body Buffer Size";
       Rule_Pattern := "nginx.ingress.kubernetes.io/client-body-buffer-size";
       Rule_RiskLevel := RiskManual;
       Rule_Description := "Buffer size for reading client request body";
       Rule_MigrationNote :=
         "Implementation-specific setting. Review if your application requires "
           +:+ "specific buffering behavior and implement accordingly.";
       Rule_SourceURL := "https://kubernetes.github.io/ingress-nginx/user-guide/nginx-configuration/annotations/#client-body-buffer-size" |};
    {| Rule_Name := "CORS Enable";
       Rule_Pattern := "nginx.ingress.kubernetes.io/enable-cors";
       Rule_RiskLevel := RiskManual;
       Rule_Description := "Enable CORS headers";
       Rule_MigrationNote :=
         "Some Gateway implementations support CORS via policies. "
           +:+ "Alternatively, implement CORS at application level or via service mesh.";
       Rule_SourceURL := "https://kubernetes.github.io/ingress-nginx/user-guide/nginx-configuration/annotations/#enable-cors" |};
    {| Rule_Name := "Rate Limiting";
       Rule_Pattern := "nginx.ingress.kubernetes.io/rate-limit";
       Rule_RiskLevel := RiskManual;
       Rule_Description := "Request rate limiting configuration";
       Rule_MigrationNote :=
         "Gateway API is developing rate limiting standards (GEP-1731). "
           +:+ "Check your Gateway implementation or use service mesh rate limiting.";
       Rule_SourceURL := "https://kubernetes.github.io/ingress-nginx/user-guide/nginx-configuration/annotations/#rate-limiting" |};
    {| Rule_Name := "Server Snippet";
       Rule_Pattern := "nginx.ingress.kubernetes.io/server-snippet";
       Rule_RiskLevel := RiskHigh;
       Rule_Description := "Custom NGINX server block configuration";
       Rule_MigrationNote :=
         "Server snippets contain custom NGINX configuration that has no Gateway API equivalent. "
           +:+ "Review the configuration and implement equivalent functionality using Gateway policies, "
           +:+ "service mesh, or consider staying with NGINX Inc commercial controller.";
       Rule_SourceURL := "https://kubernetes.github.io/ingress-nginx/user-guide/nginx-configuration/annotations/#server-snippet" |};
    {| Rule_Name := "Configuration Snippet";
       Rule_Pattern := "nginx.ingress.kubernetes.io/configuration-snippet";
       Rule_RiskLevel := RiskHigh;
       Rule_Description := "Custom NGINX location block configuration";
       Rule_MigrationNote :=
         "Configuration snippets require manual analysis and reimplementation. "
           +:+ "Consider Gateway API policies, service mesh capabilities, or application-level changes.";
       Rule_SourceURL := "https://kubernetes.github.io/ingress-nginx/user-guide/nginx-configuration/annotations/#configuration-snippet" |};
    {| Rule_Name := "Location Snippet";
       Rule_Pattern := "nginx.ingress.kubernetes.io/location-snippet";
       Rule_RiskLevel := RiskHigh;
       Rule_Description := "Custom NGINX location configuration";
       Rule_MigrationNote :=
         "Location snippets need careful review for functionality. "
           +:+ "Map to Gateway API filters, policies, or service mesh configurations where possible.";
       Rule_SourceURL := "https://kubernetes.github.io/ingress-nginx/user-guide/nginx-configuration/annotations/#configuration-snippet" |};
    {| Rule_Name := "Stream Snippet";
       Rule_Pattern := "nginx.ingress.kubernetes.io/stream-snippet";
       Rule_RiskLevel := RiskHigh;
       Rule_Description := "Custom NGINX stream configuration for TCP/UDP";
       Rule_MigrationNote :=
         "Stream snippets are for Layer 4 routing. Gateway API supports TCP/UDP via "
           +:+ "TCPRoute/UDPRoute, but custom stream logic requires reimplementation.";
       Rule_SourceURL := "https://gateway-api.sigs.k8s.io/reference/spec/#tcproute" |};
    {| Rule_Name := "Http Snippet";
       Rule_Pattern := "nginx.ingress.kubernetes.io/http-snippet";
       Rule_RiskLevel := RiskHigh;
       Rule_Description := "Custom NGINX http block configuration";
       Rule_MigrationNote :=
         "HTTP snippets affect global behavior. Requires careful analysis and "
           +:+ "potential migration to Gateway-level policies or infrastructure changes.";
       Rule_SourceURL := "https://kubernetes.github.io/ingress-nginx/user-guide/nginx-configuration/annotations/#configuration-snippet" |}
].

(** The first rule whose pattern equals the key. *)
Fixpoint GetRuleByPattern_in (rules : list AnnotationRule) (annotationKey : string)
  : option AnnotationRule :=
  match rules with
  | [] => None
  | rule :: rest =>
      if String.eqb (Rule_Pattern rule) annotationKey then Some rule
      else GetRuleByPattern_in rest annotationKey
  end.

Definition GetRuleByPattern (annotationKey : string) : option AnnotationRule :=
  GetRuleByPattern_in GetAnnotationRules annotationKey.

(** The inner loop of [MatchAnnotations]: the first rule whose pattern matches
    the key, after which the loop breaks. The error of [regexp.MatchString]
    is dropped, as in the source. *)
Fixpoint first_match (rules : list AnnotationRule) (annotationKey : string)
  : option AnnotationRule :=
  match rules with
  | [] => None
  | rule :: rest =>
      match regexp_MatchString (Rule_Pattern rule) annotationKey with
      | Some true => Some rule
      | _ => first_match rest annotationKey
      end
  end.

Definition MatchAnnotations (rng : range_oracle) (annotations : gmap string string)
  : list AnnotationRule :=
  foldl (fun matchedRules kv =>
           match first_match GetAnnotationRules (fst kv) with
           | Some rule => matchedRules ++ [rule]
           | None => matchedRules
           end)
        [] (rng _ annotations).

Definition nginx_prefix : string := "nginx.ingress.kubernetes.io/".

(** [knownPatterns] of the source: the set of the patterns of the table. *)
Definition knownPatterns : gmap string bool :=
  foldl (fun m rule => <[Rule_Pattern rule := true]> m) ∅ GetAnnotationRules.

Definition GetUnknownNginxAnnotations (rng : range_oracle)
    (annotations : gmap string string) : list string :=
  foldl (fun unknown kv =>
           if strings_HasPrefix (fst kv) nginx_prefix then
             if negb (default false (knownPatterns !! fst kv))
             then unknown ++ [fst kv] else unknown
           else unknown)
        [] (rng _ annotations).

(** The loop of [GetHighestRiskLevel], with [highestRisk] as accumulator. *)
Fixpoint highest_loop (highestRisk : RiskLevel) (rules : list AnnotationRule)
  : RiskLevel :=
  match rules with
  | [] => highestRisk
  | rule :: rest =>
      if String.eqb (Rule_RiskLevel rule) RiskHigh then RiskHigh
      else if String.eqb (Rule_RiskLevel rule) RiskManual
           then highest_loop RiskManual rest
           else highest_loop highestRisk rest
  end.

Definition GetHighestRiskLevel (rules : list AnnotationRule) : RiskLevel :=
  match rules with
  | [] => RiskAuto
  | _ => highest_loop RiskAuto rules
  end.

(** ** Package [analyze] *)

(** [analyzeIngress]. The [Warnings] of the source analysis are report text
    that no later stage of the core reads; they are not carried. *)
Definition analyzeIngress (rng : range_oracle) (resource : IngressResource)
  : IngressAnalysis :=
  let matchedRules := MatchAnnotations rng (Res_Annotations resource) in
  let riskLevel := GetHighestRiskLevel matchedRules in
  let unknownAnnotations :=
    GetUnknownNginxAnnotations rng (Res_Annotations resource) in
  {| An_Resource := resource;
     An_MatchedRules := matchedRules;
     An_RiskLevel := riskLevel;
     An_UnknownAnnotations := unknownAnnotations |}.

(** The [switch analysis.RiskLevel] of [generateSummary], on the three
    counters of either summary. *)
Definition count_risk (level : RiskLevel) (acc : int * int * int)
  : int * int * int :=
  let '(a, m, h) := acc in
  if String.eqb level RiskAuto then (int_add a 1, m, h)
  else if String.eqb level RiskManual then (a, int_add m 1, h)
  else if String.eqb level RiskHigh then (a, m, int_add h 1)
  else (a, m, h).

Definition ns_counts (s : NamespaceSummary) : int * int * int :=
  (NS_AutoCount s, NS_ManualCount s, NS_HighRiskCount s).

Definition ns_of_counts (c : int * int * int) : NamespaceSummary :=
  let '(a, m, h) := c in
  {| NS_AutoCount := a; NS_ManualCount := m; NS_HighRiskCount := h |}.

(** The zero value a missing key of [ByNamespace] reads as. *)
Definition NamespaceSummary_zero : NamespaceSummary :=
  {| NS_AutoCount := 0; NS_ManualCount := 0; NS_HighRiskCount := 0 |}.

Definition summary_step (summary : AnalysisSummary) (analysis : IngressAnalysis)
  : AnalysisSummary :=
  let '(a, m, h) :=
    count_risk (An_RiskLevel analysis)
      (Sum_AutoCount summary, Sum_ManualCount summary, Sum_HighRiskCount summary) in
  let ns := Res_Namespace (An_Resource analysis) in
  let nsSummary := default NamespaceSummary_zero (Sum_ByNamespace summary !! ns) in
  let nsSummary :=
    ns_of_counts (count_risk (An_RiskLevel analysis) (ns_counts nsSummary)) in
  {| Sum_TotalIngresses := Sum_TotalIngresses summary;
     Sum_AutoCount := a;
     Sum_ManualCount := m;
     Sum_HighRiskCount := h;
     Sum_ByNamespace := <[ns := nsSummary]> (Sum_ByNamespace summary) |}.

(** The summary before the loop: the length of the slice and zero counts. *)
Definition summary_init (total : int) : AnalysisSummary :=
  {| Sum_TotalIngresses := total;
     Sum_AutoCount := 0;
     Sum_ManualCount := 0;
     Sum_HighRiskCount := 0;
     Sum_ByNamespace := ∅ |}.

Definition generateSummary (analyses : list IngressAnalysis) : AnalysisSummary :=
  foldl summary_step (summary_init (Z.of_nat (length analyses))) analyses.

(** *** The annotation inventory *)

Record AnnotationUsage : Type := {
  Key : string;
  UniqueValues : list string;
  UsageCount : int;
  Namespaces : list string;
  ValueExamples : gmap string int;
  Risk : RiskLevel;
  Description : string;
  MigrationNote : string;
  SourceURL : string
}.

Record InventorySummary : Type := {
  TotalUniqueAnnotations : int;
  NginxAnnotationsCount : int;
  UnknownAnnotationsCount : int;
  MostUsedAnnotation : string;
  MostComplexNamespace : string
}.

Record AnnotationInventory : Type := {
  AllAnnotations : gmap string AnnotationUsage;
  NginxAnnotations : gmap string AnnotationUsage;
  UnknownAnnotations : gmap string AnnotationUsage;
  Summary : InventorySummary
}.

Definition systemPrefixes : list string :=
  [ "kubectl.kubernetes.io/";
    "deployment.kubernetes.io/";
    "control-plane.alpha.kubernetes.io/";
    "pv.kubernetes.io/";
    "volume.beta.kubernetes.io/";
    "alpha.kubernetes.io/";
    "beta.kubernetes.io/";
    "node.alpha.kubernetes.io/";
    "scheduler.alpha.kubernetes.io/";
    "autoscaling.alpha.kubernetes.io/";
    "controller.kubernetes.io/" ].

Definition systemAnnotations : list string :=
  [ "kubernetes.io/ingress.class";
    "field.cattle.io/publicEndpoints";
    "meta.helm.sh/release-name";
    "meta.helm.sh/release-namespace" ].

Definition isSystemAnnotation (key : string) : bool :=
  existsb (strings_HasPrefix key) systemPrefixes
  || existsb (String.eqb key) systemAnnotations.

(** The record [getOrCreateUsage] allocates for a key it has not seen. *)
Definition usage_new (key : string) : AnnotationUsage :=
  {| Key := key;
     UniqueValues := [];
     UsageCount := 0;
     Namespaces := [];
     ValueExamples := ∅;
     Risk := "";
     Description := "";
     MigrationNote := "";
     SourceURL := "" |}.

(** [getOrCreateUsage] returns the map, extended when the key was new, and
    the record the returned pointer refers to. *)
Definition getOrCreateUsage (usageMap : gmap string AnnotationUsage) (key : string)
  : gmap string AnnotationUsage * AnnotationUsage :=
  match usageMap !! key with
  | Some usage => (usageMap, usage)
  | None => let usage := usage_new key in (<[key := usage]> usageMap, usage)
  end.

(** The [found] loops of [updateUsage], and the append that follows each. *)
Definition found_in (l : list string) (x : string) : bool :=
  existsb (fun v => String.eqb v x) l.

Definition add_if_absent (l : list string) (x : string) : list string :=
  if found_in l x then l else l ++ [x].

Definition updateUsage (usage : AnnotationUsage) (value namespace : string)
  : AnnotationUsage :=
  {| Key := Key usage;
     UniqueValues := add_if_absent (UniqueValues usage) value;
     UsageCount := int_add (UsageCount usage) 1;
     Namespaces := add_if_absent (Namespaces usage) namespace;
     ValueExamples :=
       <[value := int_add (default 0 (ValueExamples usage !! value)) 1]>
         (ValueExamples usage);
     Risk := Risk usage;
     Description := Description usage;
     MigrationNote := MigrationNote usage;
     SourceURL := SourceURL usage |}.

(** The four assignments through [nginxUsage] after the rule lookup. *)
Definition set_rule_info (usage : AnnotationUsage)
    (risk : RiskLevel) (description migrationNote sourceURL : string)
  : AnnotationUsage :=
  {| Key := Key usage;
     UniqueValues := UniqueValues usage;
     UsageCount := UsageCount usage;
     Namespaces := Namespaces usage;
     ValueExamples := ValueExamples usage;
     Risk := risk;
     Description := description;
     MigrationNote := migrationNote;
     SourceURL := sourceURL |}.

Definition RiskUnknown : RiskLevel := "UNKNOWN".

Definition unknown_description : string :=
  "Unknown nginx annotation - not in current knowledge base".

Definition unknown_migration_note : string :=
  "This annotation is not documented in our migration rules. Please research Gateway API equivalent or file an issue.".

Definition attach_rule_info (key : string) (nginxUsage : AnnotationUsage)
  : AnnotationUsage :=
  match GetRuleByPattern key with
  | Some rule =>
      set_rule_info nginxUsage (Rule_RiskLevel rule) (Rule_Description rule)
        (Rule_MigrationNote rule) (Rule_SourceURL rule)
  | None =>
      set_rule_info nginxUsage RiskUnknown unknown_description
        unknown_migration_note ""
  end.

(** One round of the loop over [analysis.Resource.Annotations]. *)
Definition fold_annotation (namespace : string) (inventory : AnnotationInventory)
    (kv : string * string) : AnnotationInventory :=
  let key := fst kv in
  let value := snd kv in
  if isSystemAnnotation key then inventory
  else
    let '(all, usage) := getOrCreateUsage (AllAnnotations inventory) key in
    let all := <[key := updateUsage usage value namespace]> all in
    if strings_HasPrefix key nginx_prefix then
      let '(nginx, nginxUsage) := getOrCreateUsage (NginxAnnotations inventory) key in
      let nginxUsage := updateUsage nginxUsage value namespace in
      let nginxUsage := attach_rule_info key nginxUsage in
      {| AllAnnotations := all;
         NginxAnnotations := <[key := nginxUsage]> nginx;
         UnknownAnnotations := UnknownAnnotations inventory;
         Summary := Summary inventory |}
    else
      {| AllAnnotations := all;
         NginxAnnotations := NginxAnnotations inventory;
         UnknownAnnotations := UnknownAnnotations inventory;
         Summary := Summary inventory |}.

(** One round of the loop over [analysis.UnknownAnnotations]; a key missing
    from the annotation map reads as the empty string. *)
Definition fold_unknown (resource : IngressResource) (inventory : AnnotationInventory)
    (unknown : string) : AnnotationInventory :=
  let '(unknowns, usage) := getOrCreateUsage (UnknownAnnotations inventory) unknown in
  let value := default "" (Res_Annotations resource !! unknown) in
  {| AllAnnotations := AllAnnotations inventory;
     NginxAnnotations := NginxAnnotations inventory;
     UnknownAnnotations :=
       <[unknown := updateUsage usage value (Res_Namespace resource)]> unknowns;
     Summary := Summary inventory |}.

Definition fold_analysis (rng : range_oracle) (inventory : AnnotationInventory)
    (analysis : IngressAnalysis) : AnnotationInventory :=
  let resource := An_Resource analysis in
  let inventory :=
    foldl (fold_annotation (Res_Namespace resource)) inventory
      (rng _ (Res_Annotations resource)) in
  foldl (fold_unknown resource) inventory (An_UnknownAnnotations analysis).

(** The scan for the most used annotation: the running maximum and the key
    that set it. *)
Definition most_used_step (acc : int * string) (kv : string * AnnotationUsage)
  : int * string :=
  if UsageCount (snd kv) >? fst acc then (UsageCount (snd kv), fst kv) else acc.

Definition map_len {V} (m : gmap string V) : int := Z.of_nat (size m).

Definition generateInventorySummary (rng : range_oracle)
    (inventory : AnnotationInventory) : InventorySummary :=
  {| TotalUniqueAnnotations := map_len (AllAnnotations inventory);
     NginxAnnotationsCount := map_len (NginxAnnotations inventory);
     UnknownAnnotationsCount := map_len (UnknownAnnotations inventory);
     MostUsedAnnotation :=
       snd (foldl most_used_step (0, "") (rng _ (AllAnnotations inventory)));
     MostComplexNamespace := "" |}.

Definition InventorySummary_zero : InventorySummary :=
  {| TotalUniqueAnnotations := 0;
     NginxAnnotationsCount := 0;
     UnknownAnnotationsCount := 0;
     MostUsedAnnotation := "";
     MostComplexNamespace := "" |}.

Definition inventory_empty : AnnotationInventory :=
  {| AllAnnotations := ∅;
     NginxAnnotations := ∅;
     UnknownAnnotations := ∅;
     Summary := InventorySummary_zero |}.

(** The inventory when the loop over the analyses ends, before the summary
    is stored. *)
Definition folded_inventory (rng : range_oracle) (analyses : list IngressAnalysis)
  : AnnotationInventory :=
  foldl (fold_analysis rng) inventory_empty analyses.

Definition BuildAnnotationInventory (rng : range_oracle)
    (analyses : list IngressAnalysis) : AnnotationInventory :=
  let inventory := folded_inventory rng analyses in
  {| AllAnnotations := AllAnnotations inventory;
     NginxAnnotations := NginxAnnotations inventory;
     UnknownAnnotations := UnknownAnnotations inventory;
     Summary := generateInventorySummary rng inventory |}.

(** *** [sort.Slice]

    The library promises a permutation of the slice in which no element is
    [less] than an element before it, provided [less] is a strict weak
    order; it does not promise to keep equal elements in their order. *)
Definition slice_sorter := forall A : Type, (A -> A -> bool) -> list A -> list A.

Definition less_asym {A} (less : A -> A -> bool) : Prop :=
  forall a b, less a b = true -> less b a = false.

Definition less_negtrans {A} (less : A -> A -> bool) : Prop :=
  forall a b c, less a b = false -> less b c = false -> less a c = false.

Definition sort_Slice_ok (srt : slice_sorter) : Prop :=
  forall A (less : A -> A -> bool) (l : list A),
    srt A less l ≡ₚ l /\
    (less_asym less -> less_negtrans less ->
     StronglySorted (fun a b => less b a = false) (srt A less l)).

(** What every Go release runs on a short slice ([insertionSortLessFunc],
    slices of at most 12 elements, before that of fewer than 7): the prefix
    already sorted is kept with its last element first, and the next element
    moves left while it is [less] than its left neighbour. *)
Fixpoint insert_from_right {A} (less : A -> A -> bool) (x : A) (sorted_rev : list A)
  : list A :=
  match sorted_rev with
  | [] => [x]
  | y :: rest =>
      if less x y then y :: insert_from_right less x rest
      else x :: sorted_rev
  end.

Definition insertionSortLessFunc : slice_sorter :=
  fun A less l => reverse (foldl (fun acc x => insert_from_right less x acc) [] l).

(** The comparison handed to [sort.Slice] by the ranker. *)
Definition more_used (a b : AnnotationUsage) : bool := UsageCount a >? UsageCount b.

Definition set_Risk (risk : RiskLevel) (usage : AnnotationUsage) : AnnotationUsage :=
  set_rule_info usage risk (Description usage) (MigrationNote usage) (SourceURL usage).

(** The first loop of [GetMostCriticalAnnotations]. *)
Definition collect_high (critical : list AnnotationUsage)
    (kv : string * AnnotationUsage) : list AnnotationUsage :=
  if String.eqb (Risk (snd kv)) RiskHigh then critical ++ [snd kv] else critical.

(** The second loop: the record is written through its pointer, so the map
    holds the changed record, and the slice holds the same record. *)
Definition collect_unknown
    (acc : gmap string AnnotationUsage * list AnnotationUsage)
    (kv : string * AnnotationUsage)
  : gmap string AnnotationUsage * list AnnotationUsage :=
  let usage := set_Risk RiskUnknown (snd kv) in
  (<[fst kv := usage]> (fst acc), snd acc ++ [usage]).

(** [critical[:limit]]: a negative bound panics ([None]). *)
Definition slice_to {A} (l : list A) (limit : int) : option (list A) :=
  if limit <? 0 then None else Some (take (Z.to_nat limit) l).

(** [GetMostCriticalAnnotations] returns the inventory as the call leaves it
    and the slice, or [None] for the slice when the call panics. *)
Definition GetMostCriticalAnnotations (rng : range_oracle) (srt : slice_sorter)
    (inv : AnnotationInventory) (limit : int)
  : AnnotationInventory * option (list AnnotationUsage) :=
  let critical := foldl collect_high [] (rng _ (NginxAnnotations inv)) in
  let '(unknowns, critical) :=
    foldl collect_unknown (UnknownAnnotations inv, critical)
      (rng _ (UnknownAnnotations inv)) in
  let critical := srt _ more_used critical in
  ({| AllAnnotations := AllAnnotations inv;
      NginxAnnotations := NginxAnnotations inv;
      UnknownAnnotations := unknowns;
      Summary := Summary inv |},
   if Z.of_nat (length critical) >? limit then slice_to critical limit
   else Some critical).

(** ** The namespace scorer of the inventory report *)

(** [float64(n)] for an [int]: the nearest double, ties to even. *)
Definition float64_of_int (n : int) : float :=
  SF2Prim (binary_normalize prec emax n 0 false).

Definition label_high : string := "HIGH complexity (many high-risk annotations)".
Definition label_medium : string := "MEDIUM complexity (some high-risk annotations)".
Definition label_low : string := "LOW complexity (mostly auto-migratable)".

(** [namespaceAnnotations[namespace][risk] += n], creating the inner map on
    first use. *)
Definition add_risk_count (counts : gmap string (gmap string int))
    (namespace : string) (risk : RiskLevel) (n : int)
  : gmap string (gmap string int) :=
  let inner := default ∅ (counts !! namespace) in
  <[namespace := <[risk := int_add (default 0 (inner !! risk)) n]> inner]> counts.

Definition count_usage (counts : gmap string (gmap string int))
    (kv : string * AnnotationUsage) : gmap string (gmap string int) :=
  foldl (fun c namespace => add_risk_count c namespace (Risk (snd kv)) (UsageCount (snd kv)))
    counts (Namespaces (snd kv)).

Definition risk_count (riskCounts : gmap string int) (risk : RiskLevel) : int :=
  default 0 (riskCounts !! risk).

Definition total_of (riskCounts : gmap string int) : int :=
  int_add (int_add (risk_count riskCounts RiskAuto) (risk_count riskCounts RiskManual))
    (risk_count riskCounts RiskHigh).

(** [float64(high) / float64(total) * 100] *)
Definition percent (high total : int) : float :=
  (float64_of_int high / float64_of_int total * 100)%float.

Definition highRiskPercent (riskCounts : gmap string int) : float :=
  percent (risk_count riskCounts RiskHigh) (total_of riskCounts).

(** The label of a namespace, [None] when the namespace is skipped. *)
Definition classify (riskCounts : gmap string int) : option string :=
  if total_of riskCounts =? 0 then None
  else if (50 <? highRiskPercent riskCounts)%float then Some label_high
  else if (20 <? highRiskPercent riskCounts)%float then Some label_medium
  else Some label_low.

Definition classify_step (namespaceComplexity : gmap string string)
    (kv : string * gmap string int) : gmap string string :=
  match classify (snd kv) with
  | Some label => <[fst kv := label]> namespaceComplexity
  | None => namespaceComplexity
  end.

Definition namespace_counts (rng : range_oracle) (inventory : AnnotationInventory)
  : gmap string (gmap string int) :=
  foldl count_usage ∅ (rng _ (NginxAnnotations inventory)).

Definition analyzeNamespaceComplexity (rng : range_oracle)
    (inventory : AnnotationInventory) : gmap string string :=
  foldl classify_step ∅ (rng _ (namespace_counts rng inventory)).


(** * Vocabulary of the properties *)

Definition annotations_of (analysis : IngressAnalysis) : gmap string string :=
  Res_Annotations (An_Resource analysis).

Definition namespace_of (analysis : IngressAnalysis) : string :=
  Res_Namespace (An_Resource analysis).

(** The annotation map of the analysed resource contains the key. *)
Definition has_key (key : string) (analysis : IngressAnalysis) : Prop :=
  is_Some (annotations_of analysis !! key).

(** The number of analysed resources whose annotation map contains the key. *)
Definition uses (key : string) (analyses : list IngressAnalysis) : nat :=
  length (filter (has_key key) analyses).

(** The record a loop round works on: the one stored under the key, or the
    fresh one. *)
Definition usage_or_new (key : string) (o : option AnnotationUsage) : AnnotationUsage :=
  default (usage_new key) o.

(** What one analysis does to the entry of one key in each of the three
    maps. *)
Definition apply_all (key : string) (analysis : IngressAnalysis)
    (o : option AnnotationUsage) : option AnnotationUsage :=
  match annotations_of analysis !! key with
  | Some value =>
      if isSystemAnnotation key then o
      else Some (updateUsage (usage_or_new key o) value (namespace_of analysis))
  | None => o
  end.

Definition apply_nginx (key : string) (analysis : IngressAnalysis)
    (o : option AnnotationUsage) : option AnnotationUsage :=
  match annotations_of analysis !! key with
  | Some value =>
      if strings_HasPrefix key nginx_prefix then
        Some (attach_rule_info key
                (updateUsage (usage_or_new key o) value (namespace_of analysis)))
      else o
  | None => o
  end.

Definition apply_unknown (key : string) (analysis : IngressAnalysis)
    (o : option AnnotationUsage) : option AnnotationUsage :=
  foldl (fun o unknown =>
           if String.eqb unknown key then
             Some (updateUsage (usage_or_new key o)
                     (default "" (annotations_of analysis !! key))
                     (namespace_of analysis))
           else o)
        o (An_UnknownAnnotations analysis).

(** The record follows the uses of its key in the analyses folded so far. *)
Definition usage_tracks (key : string) (analyses : list IngressAnalysis)
    (usage : AnnotationUsage) : Prop :=
  Key usage = key /\
  UsageCount usage = int_wrap (Z.of_nat (uses key analyses)) /\
  NoDup (Namespaces usage) /\
  (forall ns, ns ∈ Namespaces usage <->
     exists analysis, analysis ∈ analyses /\ has_key key analysis /\
                      namespace_of analysis = ns).

(** A record without risk level, description, migration note and source. *)
Definition no_rule_info (usage : AnnotationUsage) : Prop :=
  Risk usage = "" /\ Description usage = "" /\
  MigrationNote usage = "" /\ SourceURL usage = "".

(** A record carrying the marker and the texts of an unclassified key. *)
Definition flagged_unknown (usage : AnnotationUsage) : Prop :=
  Risk usage = RiskUnknown /\ Description usage = unknown_description /\
  MigrationNote usage = unknown_migration_note /\ SourceURL usage = "".

Definition at_level (level : RiskLevel) (analysis : IngressAnalysis) : Prop :=
  An_RiskLevel analysis = level.

Definition in_namespace (ns : string) (analysis : IngressAnalysis) : Prop :=
  namespace_of analysis = ns.

#[global] Instance at_level_dec level analysis : Decision (at_level level analysis) :=
  decide (An_RiskLevel analysis = level).

#[global] Instance in_namespace_dec ns analysis : Decision (in_namespace ns analysis) :=
  decide (namespace_of analysis = ns).

(** The analysis carries one of the three levels of the resolver. *)
Definition classified (analysis : IngressAnalysis) : Prop :=
  at_level RiskAuto analysis \/ at_level RiskManual analysis \/
  at_level RiskHigh analysis.

Definition count_level (level : RiskLevel) (analyses : list IngressAnalysis) : nat :=
  length (filter (at_level level) analyses).

Definition count_level_in (level : RiskLevel) (ns : string)
    (analyses : list IngressAnalysis) : nat :=
  length (filter (at_level level) (filter (in_namespace ns) analyses)).

(** The summary holds the counts of the analyses folded so far. *)
Definition summary_tracks (analyses : list IngressAnalysis) (summary : AnalysisSummary)
  : Prop :=
  Sum_AutoCount summary = Z.of_nat (count_level RiskAuto analyses) /\
  Sum_ManualCount summary = Z.of_nat (count_level RiskManual analyses) /\
  Sum_HighRiskCount summary = Z.of_nat (count_level RiskHigh analyses) /\
  forall ns,
    match Sum_ByNamespace summary !! ns with
    | Some s =>
        filter (in_namespace ns) analyses <> [] /\
        NS_AutoCount s = Z.of_nat (count_level_in RiskAuto ns analyses) /\
        NS_ManualCount s = Z.of_nat (count_level_in RiskManual ns analyses) /\
        NS_HighRiskCount s = Z.of_nat (count_level_in RiskHigh ns analyses)
    | None => filter (in_namespace ns) analyses = []
    end.

(** The entry of one key in each map once all analyses are folded. *)
Definition all_entry (key : string) (analyses : list IngressAnalysis)
  : option AnnotationUsage :=
  foldl (fun o a => apply_all key a o) None analyses.

Definition nginx_entry (key : string) (analyses : list IngressAnalysis)
  : option AnnotationUsage :=
  foldl (fun o a => apply_nginx key a o) None analyses.

Definition unknown_entry (key : string) (analyses : list IngressAnalysis)
  : option AnnotationUsage :=
  foldl (fun o a => apply_unknown key a o) None analyses.

(** A property of the record stored under a key, if any. *)
Definition entry_has (P : AnnotationUsage -> Prop) (o : option AnnotationUsage) : Prop :=
  forall usage, o = Some usage -> P usage.

(** The contribution of one annotation key to [GetUnknownNginxAnnotations]
    and to [MatchAnnotations]. *)
Definition unknown_of_key (key : string) : option string :=
  if strings_HasPrefix key nginx_prefix then
    if negb (default false (knownPatterns !! key)) then Some key else None
  else None.

Definition has_pattern (rules : list AnnotationRule) (key : string) : bool :=
  existsb (fun rule => String.eqb (Rule_Pattern rule) key) rules.

(** C4 as the specification words it: no key lies in both maps. *)
Definition known_unknown_exclusive (inv : AnnotationInventory) : Prop :=
  forall key,
    ~ (is_Some (UnknownAnnotations inv !! key) /\ is_Some (NginxAnnotations inv !! key)).

Definition resource_custom_unknown : IngressResource :=
  {| Res_Name := "web";
     Res_Namespace := "prod";
     Res_ClassName := "nginx";
     Res_Annotations := {[ "nginx.ingress.kubernetes.io/custom-unknown" := "value" ]} |}.

(** The records the ranker collects: the HIGH_RISK records of the known map
    and the records of the unknown map, marked UNKNOWN, in the order of the
    two loops. *)
Definition is_high (kv : string * AnnotationUsage) : Prop := Risk kv.2 = RiskHigh.

#[global] Instance is_high_dec kv : Decision (is_high kv) :=
  decide (Risk kv.2 = RiskHigh).

Definition candidates_in (rng : range_oracle) (inv : AnnotationInventory)
  : list AnnotationUsage :=
  (filter is_high (rng _ (NginxAnnotations inv))).*2
  ++ (set_Risk RiskUnknown <$> (rng _ (UnknownAnnotations inv)).*2).

Definition candidates (inv : AnnotationInventory) : list AnnotationUsage :=
  candidates_in range_canonical inv.

(** No record is used more often than a record before it. *)
Definition by_usage_desc (l : list AnnotationUsage) : Prop :=
  StronglySorted (fun a b => UsageCount b <= UsageCount a) l.

(** The order C5 words: usage count descending, equal counts by ascending
    key. *)
Definition before_by_count_then_key (a b : AnnotationUsage) : bool :=
  (UsageCount b <? UsageCount a)
  || ((UsageCount a =? UsageCount b) && String.ltb (Key a) (Key b)).

Fixpoint ranked_by_count_then_key (l : list AnnotationUsage) : bool :=
  match l with
  | [] => true
  | a :: rest =>
      forallb (before_by_count_then_key a) rest && ranked_by_count_then_key rest
  end.

(** C9 as the specification words it: the call leaves the inventory as it
    was. *)
Definition ranking_read_only (rng : range_oracle) (srt : slice_sorter)
    (inv : AnnotationInventory) (limit : int) : Prop :=
  (GetMostCriticalAnnotations rng srt inv limit).1 = inv.

Definition resource_two_unknown : IngressResource :=
  {| Res_Name := "web";
     Res_Namespace := "prod";
     Res_ClassName := "nginx";
     Res_Annotations :=
       {[ "nginx.ingress.kubernetes.io/a-custom" := "1";
          "nginx.ingress.kubernetes.io/b-custom" := "2" ]} |}.

Definition inventory_custom_unknown : AnnotationInventory :=
  BuildAnnotationInventory range_canonical
    [analyzeIngress range_canonical resource_custom_unknown].

Definition inventory_two_unknown : AnnotationInventory :=
  BuildAnnotationInventory range_canonical
    [analyzeIngress range_canonical resource_two_unknown].

(** ** Agreement of two inventories up to the order of their lists *)

Definition usage_agrees (u1 u2 : AnnotationUsage) : Prop :=
  Key u1 = Key u2 /\
  UniqueValues u1 ≡ₚ UniqueValues u2 /\
  UsageCount u1 = UsageCount u2 /\
  Namespaces u1 ≡ₚ Namespaces u2 /\
  ValueExamples u1 = ValueExamples u2 /\
  Risk u1 = Risk u2 /\
  Description u1 = Description u2 /\
  MigrationNote u1 = MigrationNote u2 /\
  SourceURL u1 = SourceURL u2.

Definition entry_agrees : relation (option AnnotationUsage) :=
  option_Forall2 usage_agrees.

Definition map_agrees (m1 m2 : gmap string AnnotationUsage) : Prop :=
  forall key, entry_agrees (m1 !! key) (m2 !! key).

(** The key named as most used is a key of largest usage count, or the empty
    string when no record has a positive count. *)
Definition most_used_ok (inv : AnnotationInventory) : Prop :=
  let key := MostUsedAnnotation (Summary inv) in
  (key = "" /\
   forall k u, AllAnnotations inv !! k = Some u -> UsageCount u <= 0) \/
  (exists usage,
     AllAnnotations inv !! key = Some usage /\ 0 < UsageCount usage /\
     forall k u, AllAnnotations inv !! k = Some u -> UsageCount u <= UsageCount usage).

Definition inventory_agrees (inv1 inv2 : AnnotationInventory) : Prop :=
  map_agrees (AllAnnotations inv1) (AllAnnotations inv2) /\
  map_agrees (NginxAnnotations inv1) (NginxAnnotations inv2) /\
  map_agrees (UnknownAnnotations inv1) (UnknownAnnotations inv2) /\
  TotalUniqueAnnotations (Summary inv1) = TotalUniqueAnnotations (Summary inv2) /\
  NginxAnnotationsCount (Summary inv1) = NginxAnnotationsCount (Summary inv2) /\
  UnknownAnnotationsCount (Summary inv1) = UnknownAnnotationsCount (Summary inv2) /\
  MostComplexNamespace (Summary inv1) = MostComplexNamespace (Summary inv2) /\
  most_used_ok inv1 /\ most_used_ok inv2.

(** What one resource does to the entry of one key: the value the loop round
    folds in, if the round reaches the map, and the record it stores. *)
Definition touch (key : string) (post : AnnotationUsage -> AnnotationUsage)
    (resource : IngressResource) (value : option string)
    (o : option AnnotationUsage) : option AnnotationUsage :=
  match value with
  | Some v => Some (post (updateUsage (usage_or_new key o) v (Res_Namespace resource)))
  | None => o
  end.

Definition value_for_all (key : string) (resource : IngressResource) : option string :=
  if isSystemAnnotation key then None else Res_Annotations resource !! key.

Definition value_for_nginx (key : string) (resource : IngressResource) : option string :=
  if strings_HasPrefix key nginx_prefix then Res_Annotations resource !! key else None.

Definition value_for_unknown (key : string) (resource : IngressResource) : option string :=
  match unknown_of_key key with
  | Some _ => Res_Annotations resource !! key
  | None => None
  end.

(** The two ways a loop round stores its record: as updated, or with the
    rule information attached. *)
Definition post_ok (key : string) (post : AnnotationUsage -> AnnotationUsage) : Prop :=
  post = id \/ post = attach_rule_info key.

(** C8 as the specification words it: the two builds are equal. *)
Definition rebuild_equal (rng1 rng2 : range_oracle)
    (resources1 resources2 : list IngressResource) : Prop :=
  BuildAnnotationInventory rng1 (analyzeIngress rng1 <$> resources1)
  = BuildAnnotationInventory rng2 (analyzeIngress rng2 <$> resources2).

(** ** Concrete inputs *)

Definition key_custom_unknown : string := "nginx.ingress.kubernetes.io/custom-unknown".

Definition key_server_snippets : string := "nginx.ingress.kubernetes.io/server-snippets".

(** The records the build stores for [resource_custom_unknown]: in the known
    map and in the unknown map. *)
Definition usage_custom_known : AnnotationUsage :=
  {| Key := key_custom_unknown;
     UniqueValues := ["value"];
     UsageCount := 1;
     Namespaces := ["prod"];
     ValueExamples := {[ "value" := 1 ]};
     Risk := RiskUnknown;
     Description := unknown_description;
     MigrationNote := unknown_migration_note;
     SourceURL := "" |}.

Definition usage_custom_unknown : AnnotationUsage :=
  {| Key := key_custom_unknown;
     UniqueValues := ["value"];
     UsageCount := 1;
     Namespaces := ["prod"];
     ValueExamples := {[ "value" := 1 ]};
     Risk := "";
     Description := "";
     MigrationNote := "";
     SourceURL := "" |}.

(** ** Vocabulary of the floating-point argument *)

(** The round bit and the sticky bit a location stands for. *)
Definition loc_r (l : location) : bool :=
  match l with loc_Inexact Eq | loc_Inexact Gt => true | _ => false end.

Definition loc_s (l : location) : bool :=
  match l with loc_Inexact Lt | loc_Inexact Gt => true | _ => false end.

(** The record [shr] leaves after [n] shifts of a mantissa that is not
    negative: the quotient, the last bit shifted out, and whether anything
    else was lost. *)
Definition shifted (M n : Z) (l : location) : shr_record :=
  if n =? 0 then Build_shr_record M (loc_r l) (loc_s l)
  else Build_shr_record (M / 2 ^ n) (Z.testbit M (n - 1))
         (loc_r l || loc_s l || negb (M mod 2 ^ (n - 1) =? 0)).

(** Round to nearest, ties to even: whether the shifted mantissa is
    incremented. *)
Definition round_up (n M : Z) (l : location) : bool :=
  let rec := shifted M n l in
  shr_r rec && (shr_s rec || Z.odd (shr_m rec)).

(** The mantissa of [d] digits cut to 53 digits and rounded. *)
Definition rounded (M d : Z) (l : location) : Z :=
  M / 2 ^ (d - 53) + (if round_up (d - 53) M l then 1 else 0).

(** A positive finite double. *)
Definition pos_float (m e : Z) : spec_float := S754_finite false (Z.to_pos m) e.

(** The mantissa of the double nearest to one fifth, which is
    [Mc * 2 ^ -55]. *)
Definition Mc : Z := 7205759403792794.

(** The quotient of two doubles with mantissas [a] and [b] of 53 digits
    whose exponents differ by [- k], as [SFdiv] computes it. *)
Definition quot (a b k : Z) : spec_float :=
  let qq := a * 2 ^ 53 / b in
  let l := new_location b ((a * 2 ^ 53) mod b) in
  let d := if a <? b then 53 else 54 in
  if rounded qq d l =? 2 ^ 53
  then pos_float (2 ^ 52) (- k - 53 + (d - 53) + 1)
  else pos_float (rounded qq d l) (- k - 53 + (d - 53)).

(** ** Vocabulary of the namespace scorer *)

(** How often a namespace is listed in a slice of namespaces (once, in an
    inventory that [BuildAnnotationInventory] built). *)
Definition occurrences (ns : string) (names : list string) : nat :=
  length (filter (fun x => x = ns) names).

(** What a record of the known map adds to the count of a namespace: its
    usage count for every listing of the namespace. *)
Definition listed_usage (ns : string) (usage : AnnotationUsage) : Z :=
  Z.of_nat (occurrences ns (Namespaces usage)) * UsageCount usage.

(** The same, for the count of one risk level. *)
Definition usage_weight (ns : string) (risk : RiskLevel) (usage : AnnotationUsage) : Z :=
  if decide (Risk usage = risk) then listed_usage ns usage else 0.

Fixpoint sumZ (l : list Z) : Z :=
  match l with
  | [] => 0
  | x :: rest => x + sumZ rest
  end.

(** The usage of a namespace accumulated over the known records, per risk
    level and over all records. *)
Definition risk_weight (inv : AnnotationInventory) (ns : string) (risk : RiskLevel) : Z :=
  sumZ (usage_weight ns risk <$> (map_to_list (NginxAnnotations inv)).*2).

Definition namespace_weight (inv : AnnotationInventory) (ns : string) : Z :=
  sumZ (listed_usage ns <$> (map_to_list (NginxAnnotations inv)).*2).

(** [namespaceAnnotations[ns][risk]], zero when either key is missing. *)
Definition count_at (counts : gmap string (gmap string int))
    (ns : string) (risk : RiskLevel) : int :=
  risk_count (default ∅ (counts !! ns)) risk.

(** The label the thresholds give to a high-risk count and a total, by the
    exact share [high / total]: above one half, above one fifth, or neither;
    no label for a total of zero. *)
Definition label_of_share (high total : Z) : option string :=
  if total =? 0 then None
  else if total <? 2 * high then Some label_high
  else if total <? 5 * high then Some label_medium
  else Some label_low.

(** Two resources of one namespace, one with a HIGH_RISK annotation and one
    with an AUTO annotation: the high-risk share is exactly one half. *)
Definition resource_server_snippet : IngressResource :=
  {| Res_Name := "api";
     Res_Namespace := "prod";
     Res_ClassName := "nginx";
     Res_Annotations := {[ "nginx.ingress.kubernetes.io/server-snippet" := "return 200;" ]} |}.

Definition resource_rewrite_target (name : string) : IngressResource :=
  {| Res_Name := name;
     Res_Namespace := "prod";
     Res_ClassName := "nginx";
     Res_Annotations := {[ "nginx.ingress.kubernetes.io/rewrite-target" := "/" ]} |}.

Definition inventory_of (resources : list IngressResource) : AnnotationInventory :=
  BuildAnnotationInventory range_canonical (analyzeIngress range_canonical <$> resources).

Definition inventory_half_high : AnnotationInventory :=
  inventory_of [resource_server_snippet; resource_rewrite_target "web"].

(** One HIGH_RISK use among five: the share is exactly one fifth. *)
Definition inventory_fifth_high : AnnotationInventory :=
  inventory_of
    [resource_server_snippet; resource_rewrite_target "w1"; resource_rewrite_target "w2";
     resource_rewrite_target "w3"; resource_rewrite_target "w4"].

(** One HIGH_RISK use among three, between the two thresholds, and two among
    three, above both. *)
Definition inventory_third_high : AnnotationInventory :=
  inventory_of
    [resource_server_snippet; resource_rewrite_target "w1"; resource_rewrite_target "w2"].

Definition inventory_all_high : AnnotationInventory :=
  inventory_of [resource_server_snippet].

(** The usage counts of the known records are not negative. *)
Definition counts_nonneg (inv : AnnotationInventory) : Prop :=
  map_Forall (fun _ usage => 0 <= UsageCount usage) (NginxAnnotations inv).

(** Some rule of the list has the level. *)
Definition has_level (level : RiskLevel) (rules : list AnnotationRule) : Prop :=
  exists rule, rule ∈ rules /\ Rule_RiskLevel rule = level.

Definition has_levelb (level : RiskLevel) (rules : list AnnotationRule) : bool :=
  existsb (fun rule => String.eqb (Rule_RiskLevel rule) level) rules.

(** * Further code of the repository *)

(** ** More Go primitives *)

(** [strings.Contains]: some suffix of [s] starts with [substr]. *)
Fixpoint strings_Contains (s substr : string) : bool :=
  strings_HasPrefix s substr
  || match s with
     | EmptyString => false
     | String _ rest => strings_Contains rest substr
     end.

(** [%d] of the [fmt] package for an [int]. *)
Definition fmt_d (n : int) : string := pretty n.

(** [strings.Join]. *)
Fixpoint strings_Join (elems : list string) (sep : string) : string :=
  match elems with
  | [] => ""
  | [elem] => elem
  | elem :: rest => elem +:+ sep +:+ strings_Join rest sep
  end.

(** [m[key]] for a [map[string]bool]: [false] for a missing key. *)
Definition is_set (m : gmap string bool) (key : string) : bool :=
  default false (m !! key).

(** ** Package [analyze]: the warnings of an analysis *)

Definition snippet_warning (rule : AnnotationRule) : string :=
  "Contains " +:+ Rule_Name rule +:+ ": requires manual review and reimplementation".

Definition unknown_warning (n : int) : string :=
  "Contains " +:+ fmt_d n +:+ " unknown nginx annotations".

Definition deprecated_class_warning : string :=
  "Uses deprecated kubernetes.io/ingress.class annotation instead of spec.ingressClassName".

Definition legacy_class_key : string := "kubernetes.io/ingress.class".

(** One round of the loop over the matched rules. *)
Definition warn_snippet (warnings : list string) (rule : AnnotationRule) : list string :=
  if strings_Contains (Rule_Pattern rule) "snippet"
  then warnings ++ [snippet_warning rule] else warnings.

Definition generateWarnings (rng : range_oracle) (resource : IngressResource)
    (matchedRules : list AnnotationRule) : list string :=
  let warnings := foldl warn_snippet [] matchedRules in
  let unknown := GetUnknownNginxAnnotations rng (Res_Annotations resource) in
  let warnings :=
    if Z.of_nat (length unknown) >? 0
    then warnings ++ [unknown_warning (Z.of_nat (length unknown))] else warnings in
  match Res_Annotations resource !! legacy_class_key with
  | Some class =>
      if String.eqb class "nginx" then
        if String.eqb (Res_ClassName resource) ""
        then warnings ++ [deprecated_class_warning] else warnings
      else warnings
  | None => warnings
  end.

(** The [Warnings] field of the analysis [analyzeIngress] returns. *)
Definition analyzeIngress_Warnings (rng : range_oracle) (resource : IngressResource)
  : list string :=
  generateWarnings rng resource (MatchAnnotations rng (Res_Annotations resource)).

(** ** Package [report]: the rules of one level *)

Definition getRulesByRisk (rules : list AnnotationRule) (riskLevel : RiskLevel)
  : list AnnotationRule :=
  foldl (fun filtered rule =>
           if String.eqb (Rule_RiskLevel rule) riskLevel
           then filtered ++ [rule] else filtered)
        [] rules.

Definition getHighRiskRules (rules : list AnnotationRule) : list AnnotationRule :=
  getRulesByRisk rules RiskHigh.

(** ** Package [analyze]: the known records by risk level *)

(** One round of the first loop of [GetAnnotationsByRisk]: the record is
    appended to the slice of its level, a missing level reading as the empty
    slice. *)
Definition group_by_risk (byRisk : gmap string (list AnnotationUsage))
    (kv : string * AnnotationUsage) : gmap string (list AnnotationUsage) :=
  <[Risk (snd kv) := default [] (byRisk !! Risk (snd kv)) ++ [snd kv]]> byRisk.

(** One round of the second loop: the slice of the level is sorted in
    place. *)
Definition sort_group (srt : slice_sorter) (byRisk : gmap string (list AnnotationUsage))
    (kv : string * list AnnotationUsage) : gmap string (list AnnotationUsage) :=
  <[fst kv := srt _ more_used (default [] (byRisk !! fst kv))]> byRisk.

Definition GetAnnotationsByRisk (rng : range_oracle) (srt : slice_sorter)
    (inv : AnnotationInventory) : gmap string (list AnnotationUsage) :=
  let byRisk := foldl group_by_risk ∅ (rng _ (NginxAnnotations inv)) in
  foldl (sort_group srt) byRisk (rng _ byRisk).

(** ** The helpers of the inventory report *)

(** [riskOrder] of the source; a level missing from the map reads as 0. *)
Definition riskOrder : gmap string int :=
  <[RiskHigh := 3]> (<[RiskManual := 2]> (<[RiskAuto := 1]> ∅)).

Definition risk_priority (risk : RiskLevel) : int := default 0 (riskOrder !! risk).

Definition more_risky (a b : AnnotationUsage) : bool :=
  risk_priority (Risk a) >? risk_priority (Risk b).

Definition key_before (a b : AnnotationUsage) : bool := String.ltb (Key a) (Key b).

(** [sortAnnotations] sorts in place; the sorted slice is returned here. *)
Definition sortAnnotations (srt : slice_sorter) (annotations : list AnnotationUsage)
    (sortBy : string) : list AnnotationUsage :=
  if String.eqb sortBy "usage" then srt _ more_used annotations
  else if String.eqb sortBy "risk" then srt _ more_risky annotations
  else if String.eqb sortBy "name" then srt _ key_before annotations
  else srt _ more_used annotations.

(** [getTopAnnotations]; [None] when [annotations[:limit]] panics. *)
Definition getTopAnnotations {A} (annotations : list A) (limit : int) : option (list A) :=
  if Z.of_nat (length annotations) <=? limit then Some annotations
  else slice_to annotations limit.

(** [formatValueExamples]. *)
Definition more_frequent (a b : string * int) : bool := snd a >? snd b.

Definition format_example (vf : string * int) : string :=
  "`" +:+ fst vf +:+ "`(" +:+ fmt_d (snd vf) +:+ ")".

(** The loop over [freqs], with the index [i] of the round. *)
Fixpoint examples_loop (limit i : int) (freqs : list (string * int))
    (examples : list string) : list string :=
  match freqs with
  | [] => examples
  | vf :: rest =>
      if i >=? limit then examples
      else examples_loop limit (i + 1) rest (examples ++ [format_example vf])
  end.

Definition formatValueExamples (rng : range_oracle) (srt : slice_sorter)
    (valueExamples : gmap string int) (limit : int) : string :=
  if map_len valueExamples =? 0 then ""
  else
    let freqs := foldl (fun freqs kv => freqs ++ [kv]) [] (rng _ valueExamples) in
    let freqs := srt _ more_frequent freqs in
    let examples := examples_loop limit 0 freqs [] in
    let result := strings_Join examples ", " in
    if Z.of_nat (length freqs) >? limit then result +:+ "..." else result.

(** ** Package [discovery]: from the Ingress objects to the resources *)

(** The fields of a [networkingv1.Ingress] the scanner reads; a nil map and
    a nil pointer are [None]. *)
Record HTTPIngressPath : Type := { Path : string }.

Record IngressRule : Type := {
  Host : string;
  HTTP : option (list HTTPIngressPath)
}.

Record Ingress : Type := {
  Ing_Name : string;
  Ing_Namespace : string;
  Ing_Annotations : option (gmap string string);
  Ing_Labels : option (gmap string string);
  Ing_IngressClassName : option string;
  Ing_Rules : list IngressRule
}.

(** What a read of, or a loop over, a possibly nil map sees. *)
Definition entries (m : option (gmap string string)) : gmap string string :=
  default ∅ m.

Definition isNginxIngress (rng : range_oracle) (ingress : Ingress) : bool :=
  if match Ing_IngressClassName ingress with
     | Some className => String.eqb className "nginx"
     | None => false
     end
  then true
  else if match entries (Ing_Annotations ingress) !! legacy_class_key with
          | Some class => String.eqb class "nginx"
          | None => false
          end
  then true
  else existsb (fun kv => strings_HasPrefix (fst kv) nginx_prefix)
         (rng _ (entries (Ing_Annotations ingress))).

Definition filterNginxIngresses (rng : range_oracle) (ingresses : list Ingress)
  : list Ingress :=
  foldl (fun nginxIngresses ingress =>
           if isNginxIngress rng ingress then nginxIngresses ++ [ingress]
           else nginxIngresses)
        [] ingresses.

Definition getIngressClass (ingress : Ingress) : string :=
  match Ing_IngressClassName ingress with
  | Some className => className
  | None => default "" (entries (Ing_Annotations ingress) !! legacy_class_key)
  end.

Definition copyMap (rng : range_oracle) (original : option (gmap string string))
  : gmap string string :=
  match original with
  | None => ∅
  | Some m => foldl (fun copy kv => <[fst kv := snd kv]> copy) ∅ (rng _ m)
  end.

(** One round of the loop of [extractHosts], on the slice and the [seen]
    set. *)
Definition host_step (acc : list string * gmap string bool) (rule : IngressRule)
  : list string * gmap string bool :=
  if negb (String.eqb (Host rule) "") && negb (is_set (snd acc) (Host rule))
  then (fst acc ++ [Host rule], <[Host rule := true]> (snd acc))
  else acc.

Definition extractHosts (ingress : Ingress) : list string :=
  fst (foldl host_step ([], ∅) (Ing_Rules ingress)).

(** One round of the inner loop of [extractPaths]. *)
Definition path_step (acc : list string * gmap string bool) (path : HTTPIngressPath)
  : list string * gmap string bool :=
  let pathStr := if String.eqb (Path path) "" then "/" else Path path in
  if negb (is_set (snd acc) pathStr)
  then (fst acc ++ [pathStr], <[pathStr := true]> (snd acc))
  else acc.

Definition rule_step (acc : list string * gmap string bool) (rule : IngressRule)
  : list string * gmap string bool :=
  match HTTP rule with
  | Some paths => foldl path_step acc paths
  | None => acc
  end.

Definition extractPaths (ingress : Ingress) : list string :=
  fst (foldl rule_step ([], ∅) (Ing_Rules ingress)).

(** The [models.IngressResource] that [convertToModel] builds: the fields the
    analysis reads, and beside them the labels, hosts and paths; the
    creation time is not carried. *)
Record DiscoveredResource : Type := {
  Disc_Resource : IngressResource;
  Disc_Labels : gmap string string;
  Disc_Hosts : list string;
  Disc_Paths : list string
}.

Definition convert_one (rng : range_oracle) (ingress : Ingress) : DiscoveredResource :=
  {| Disc_Resource :=
       {| Res_Name := Ing_Name ingress;
          Res_Namespace := Ing_Namespace ingress;
          Res_ClassName := getIngressClass ingress;
          Res_Annotations := copyMap rng (Ing_Annotations ingress) |};
     Disc_Labels := copyMap rng (Ing_Labels ingress);
     Disc_Hosts := extractHosts ingress;
     Disc_Paths := extractPaths ingress |}.

Definition convertToModel (rng : range_oracle) (ingresses : list Ingress)
  : list DiscoveredResource :=
  foldl (fun resources ingress => resources ++ [convert_one rng ingress]) [] ingresses.

(** The resources [ScanCluster] hands on, from the Ingress objects the
    cluster listed. *)
Definition scanned (rng : range_oracle) (ingresses : list Ingress)
  : list DiscoveredResource :=
  convertToModel rng (filterNginxIngresses rng ingresses).

(** * Vocabulary of the further properties *)

(** Equality of two rules, field by field. *)
Definition AnnotationRule_eqb (r1 r2 : AnnotationRule) : bool :=
  String.eqb (Rule_Name r1) (Rule_Name r2)
  && String.eqb (Rule_Pattern r1) (Rule_Pattern r2)
  && String.eqb (Rule_RiskLevel r1) (Rule_RiskLevel r2)
  && String.eqb (Rule_Description r1) (Rule_Description r2)
  && String.eqb (Rule_MigrationNote r1) (Rule_MigrationNote r2)
  && String.eqb (Rule_SourceURL r1) (Rule_SourceURL r2).

(** The rank of the three levels of the resolver: AUTO below MANUAL below
    HIGH_RISK. *)
Definition level_rank (level : RiskLevel) : nat :=
  if String.eqb level RiskHigh then 3
  else if String.eqb level RiskManual then 2
  else if String.eqb level RiskAuto then 1
  else 0.

(** The risk level [analyzeIngress] gives to an annotation map. *)
Definition risk_of (rng : range_oracle) (annotations : gmap string string) : RiskLevel :=
  GetHighestRiskLevel (MatchAnnotations rng annotations).

(** Two records with the same usage statistics; the rule information may
    differ. *)
Definition same_statistics (u1 u2 : AnnotationUsage) : Prop :=
  Key u1 = Key u2 /\
  UniqueValues u1 = UniqueValues u2 /\
  UsageCount u1 = UsageCount u2 /\
  Namespaces u1 = Namespaces u2 /\
  ValueExamples u1 = ValueExamples u2.

(** The sum of the counts of a value histogram. *)
Definition histogram_total (valueExamples : gmap string int) : Z :=
  sumZ (map_to_list valueExamples).*2.

(** A record whose fields fit together: the unique values are the values of
    the histogram, each listed once; every count of the histogram is
    positive and the counts add up to the usage count; no namespace is
    listed twice, and there are at most as many namespaces and values as
    uses. *)
Definition usage_fits (key : string) (usage : AnnotationUsage) : Prop :=
  Key usage = key /\
  NoDup (UniqueValues usage) /\
  (forall value, value ∈ UniqueValues usage <-> is_Some (ValueExamples usage !! value)) /\
  (forall value n, ValueExamples usage !! value = Some n -> 0 < n) /\
  histogram_total (ValueExamples usage) = UsageCount usage /\
  NoDup (Namespaces usage) /\
  Z.of_nat (length (Namespaces usage)) <= UsageCount usage /\
  Z.of_nat (length (UniqueValues usage)) <= UsageCount usage.

(** The same of a record that was updated at least once. *)
Definition usage_coherent (key : string) (usage : AnnotationUsage) : Prop :=
  usage_fits key usage /\ 0 < UsageCount usage.

(** The records [GetMostCriticalAnnotations] returns carry the marker of the
    ranker or the HIGH_RISK level. *)
Definition critical_risk (usage : AnnotationUsage) : Prop :=
  Risk usage = RiskHigh \/ Risk usage = RiskUnknown.

(** The namespaces some known record lists. *)
Definition listed_namespace (inv : AnnotationInventory) (ns : string) : Prop :=
  exists key usage, NginxAnnotations inv !! key = Some usage /\ ns ∈ Namespaces usage.

(** A resource with an annotation of a rule of each level below HIGH_RISK,
    and one more annotation outside the table. *)
Definition resource_mixed : IngressResource :=
  {| Res_Name := "shop";
     Res_Namespace := "prod";
     Res_ClassName := "nginx";
     Res_Annotations :=
       {[ "nginx.ingress.kubernetes.io/rewrite-target" := "/";
          "nginx.ingress.kubernetes.io/auth-url" := "https://auth.example.com";
          "nginx.ingress.kubernetes.io/custom-unknown" := "value";
          "kubernetes.io/ingress.class" := "nginx";
          "example.com/owner" := "team-a" ]} |}.

(** ** The warnings, the report helpers and the scan *)

(** The warning about unknown annotations, when there are some. *)
Definition unknown_part (rng : range_oracle) (resource : IngressResource) : list string :=
  match GetUnknownNginxAnnotations rng (Res_Annotations resource) with
  | [] => []
  | unknown => [unknown_warning (Z.of_nat (length unknown))]
  end.

(** The warning about the legacy class annotation, when the resource has the
    annotation with the value nginx and an empty class name. *)
Definition class_part (resource : IngressResource) : list string :=
  if bool_decide (Res_Annotations resource !! legacy_class_key = Some "nginx"
                  /\ Res_ClassName resource = "")
  then [deprecated_class_warning] else [].

(** The rule has one of the three levels of the resolver. *)
Definition rule_classified (rule : AnnotationRule) : Prop :=
  Rule_RiskLevel rule = RiskAuto \/ Rule_RiskLevel rule = RiskManual \/
  Rule_RiskLevel rule = RiskHigh.

(** The records of the known map that carry a level. *)
Definition known_at (inv : AnnotationInventory) (risk : RiskLevel) : list AnnotationUsage :=
  filter (fun usage => Risk usage = risk) (map_to_list (NginxAnnotations inv)).*2.

(** The order [sortAnnotations] establishes for a value of [sortBy]: [b]
    may come after [a]. *)
Definition in_order (sortBy : string) (a b : AnnotationUsage) : Prop :=
  if String.eqb sortBy "risk" then risk_priority (Risk b) <= risk_priority (Risk a)
  else if String.eqb sortBy "name" then String.ltb (Key b) (Key a) = false
  else UsageCount b <= UsageCount a.

(** No value is counted more often than a value before it. *)
Definition by_count_desc (l : list (string * int)) : Prop :=
  StronglySorted (fun a b => snd b <= snd a) l.

(** The path string [extractPaths] records for a path. *)
Definition path_string (path : HTTPIngressPath) : string :=
  if String.eqb (Path path) "" then "/" else Path path.

(** The step both [extractHosts] and [extractPaths] take with a string they
    keep: it is appended unless it was seen. *)
Definition record_once (acc : list string * gmap string bool) (x : string)
  : list string * gmap string bool :=
  if negb (is_set (snd acc) x) then (fst acc ++ [x], <[x := true]> (snd acc)) else acc.

(** The path strings of the paths of a rule, none for a rule without HTTP
    part. *)
Definition path_strings (rule : IngressRule) : list string :=
  path_string <$> default [] (HTTP rule).

(** The resource has something that names the nginx controller: its class,
    the legacy class annotation, or an annotation under the managed
    prefix. *)
Definition names_nginx (resource : IngressResource) : Prop :=
  Res_ClassName resource = "nginx" \/
  Res_Annotations resource !! legacy_class_key = Some "nginx" \/
  exists key, is_Some (Res_Annotations resource !! key) /\
              strings_HasPrefix key nginx_prefix = true.

(** Concrete inputs. *)
Definition ingress_legacy : Ingress :=
  {| Ing_Name := "legacy";
     Ing_Namespace := "prod";
     Ing_Annotations :=
       Some {[ legacy_class_key := "nginx";
               "nginx.ingress.kubernetes.io/server-snippet" := "return 200;" ]};
     Ing_Labels := None;
     Ing_IngressClassName := None;
     Ing_Rules :=
       [ {| Host := "a.example.com";
            HTTP := Some [ {| Path := "" |}; {| Path := "/api" |} ] |};
         {| Host := ""; HTTP := None |};
         {| Host := "a.example.com"; HTTP := Some [ {| Path := "/" |} ] |} ] |}.

Definition ingress_other : Ingress :=
  {| Ing_Name := "other";
     Ing_Namespace := "prod";
     Ing_Annotations := None;
     Ing_Labels := None;
     Ing_IngressClassName := Some "traefik";
     Ing_Rules := [] |}.

Definition usage_of (key : string) (count : int) (risk : RiskLevel) : AnnotationUsage :=
  {| Key := key; UniqueValues := []; UsageCount := count; Namespaces := [];
     ValueExamples := ∅; Risk := risk; Description := ""; MigrationNote := "";
     SourceURL := "" |}.
(** * Properties *)

(** ** Risk resolution *)

Lemma has_levelb_spec level rules :
  has_levelb level rules = true <-> has_level level rules.
Proof.
  unfold has_levelb, has_level. rewrite existsb_exists. split.
  - intros (r & Hin & Heq). exists r. split; [by apply list_elem_of_In |].
    by apply String.eqb_eq.
  - intros (r & Hin & Heq). exists r. split; [by apply list_elem_of_In |].
    by apply String.eqb_eq.
Qed.

Lemma has_levelb_false level rules :
  has_levelb level rules = false <-> ~ has_level level rules.
Proof.
  rewrite <- has_levelb_spec. by destruct (has_levelb level rules).
Qed.

Lemma highest_loop_spec rules : forall acc,
  highest_loop acc rules =
    if has_levelb RiskHigh rules then RiskHigh
    else if has_levelb RiskManual rules then RiskManual
    else acc.
Proof.
  induction rules as [| r rest IH]; intros acc; [done |].
  cbn [highest_loop]. unfold has_levelb in *. cbn [existsb].
  destruct (String.eqb (Rule_RiskLevel r) RiskHigh) eqn:Hh; [done |].
  destruct (String.eqb (Rule_RiskLevel r) RiskManual) eqn:Hm;
    rewrite IH; cbn [orb]; [| done].
  by repeat case_match.
Qed.

Lemma GetHighestRiskLevel_spec rules :
  GetHighestRiskLevel rules =
    if has_levelb RiskHigh rules then RiskHigh
    else if has_levelb RiskManual rules then RiskManual
    else RiskAuto.
Proof.
  destruct rules as [| r rest]; [done |].
  unfold GetHighestRiskLevel. apply highest_loop_spec.
Qed.

(** C1. The resolver returns HIGH_RISK exactly when some rule of the list is
    HIGH_RISK; MANUAL exactly when some rule is MANUAL and none is HIGH_RISK;
    AUTO exactly when no rule is HIGH_RISK or MANUAL; the empty list gives
    AUTO. *)
Theorem GetHighestRiskLevel_precedence (rules : list AnnotationRule) :
  (GetHighestRiskLevel rules = RiskHigh <-> has_level RiskHigh rules) /\
  (GetHighestRiskLevel rules = RiskManual <->
     has_level RiskManual rules /\ ~ has_level RiskHigh rules) /\
  (GetHighestRiskLevel rules = RiskAuto <->
     ~ has_level RiskHigh rules /\ ~ has_level RiskManual rules) /\
  GetHighestRiskLevel [] = RiskAuto.
Proof.
  rewrite GetHighestRiskLevel_spec.
  rewrite <- !has_levelb_false, <- !has_levelb_spec.
  destruct (has_levelb RiskHigh rules), (has_levelb RiskManual rules);
    repeat split; intros; try done; try (by destruct_and?).
Qed.

(** ** Generic facts about loops *)

Lemma foldl_invariant {A B} (P : A -> Prop) (f : A -> B -> A) (l : list B) :
  forall a, P a -> (forall a b, P a -> b ∈ l -> P (f a b)) -> P (foldl f a l).
Proof.
  induction l as [| b l IH]; intros a Ha Hstep; [done |].
  cbn [foldl]. apply IH.
  - apply Hstep; [done | by left].
  - intros a' b' Ha' Hin. apply Hstep; [done | by right].
Qed.

(** ** Keys of the managed prefix are never filtered as noise *)

Lemma prefix_cons_inv c pre s :
  String.prefix (String c pre) s = true ->
  exists s', s = String c s' /\ String.prefix pre s' = true.
Proof.
  destruct s as [| d s']; [done |]. cbn [String.prefix].
  destruct (ascii_dec c d) as [-> |]; [| done]. eauto.
Qed.

Lemma nginx_not_system key :
  strings_HasPrefix key nginx_prefix = true -> isSystemAnnotation key = false.
Proof.
  unfold strings_HasPrefix, nginx_prefix. intros H.
  apply prefix_cons_inv in H as (s1 & -> & H).
  apply prefix_cons_inv in H as (s2 & -> & _).
  reflexivity.
Qed.

(** ** Machine integers *)

Lemma int_wrap_small z : - 2 ^ 63 <= z < 2 ^ 63 -> int_wrap z = z.
Proof.
  intros H. unfold int_wrap. rewrite Z.mod_small; lia.
Qed.

Lemma int_wrap_add_l a b : int_wrap (int_wrap a + b) = int_wrap (a + b).
Proof.
  unfold int_wrap.
  replace ((a + 2 ^ 63) mod 2 ^ 64 - 2 ^ 63 + b + 2 ^ 63)
    with ((a + 2 ^ 63) mod 2 ^ 64 + b) by lia.
  rewrite Zplus_mod_idemp_l. f_equal. f_equal. lia.
Qed.

Lemma int_add_wrap_l a b : int_add (int_wrap a) b = int_wrap (a + b).
Proof. apply int_wrap_add_l. Qed.

Lemma int_wrap_add_r a b : int_wrap (a + int_wrap b) = int_wrap (a + b).
Proof. rewrite (Z.add_comm a), int_wrap_add_l. f_equal. lia. Qed.

Lemma int_wrap_idemp a : int_wrap (int_wrap a) = int_wrap a.
Proof.
  replace (int_wrap a) with (int_wrap a + 0) at 1 by lia.
  rewrite int_wrap_add_l. f_equal. lia.
Qed.

(** ** One loop round on one map *)

Lemma found_in_spec l x : found_in l x = true <-> x ∈ l.
Proof.
  unfold found_in. rewrite existsb_exists. split.
  - intros (v & Hin & Heq). apply String.eqb_eq in Heq as ->.
    by apply list_elem_of_In.
  - intros Hin. exists x. split; [by apply list_elem_of_In | apply String.eqb_refl].
Qed.

Lemma found_in_false l x : found_in l x = false <-> x ∉ l.
Proof.
  rewrite <- found_in_spec. by destruct (found_in l x).
Qed.

Lemma getOrCreateUsage_store (m : gmap string AnnotationUsage) key
    (g : AnnotationUsage -> AnnotationUsage) :
  (let '(m', usage) := getOrCreateUsage m key in <[key := g usage]> m')
  = <[key := g (usage_or_new key (m !! key))]> m.
Proof.
  unfold getOrCreateUsage, usage_or_new.
  destruct (m !! key) as [u |]; cbn [default]; [done |].
  apply insert_insert_eq.
Qed.

Lemma fold_annotation_unknown ns inv kv :
  UnknownAnnotations (fold_annotation ns inv kv) = UnknownAnnotations inv.
Proof.
  unfold fold_annotation.
  destruct (isSystemAnnotation kv.1); [done |].
  destruct (getOrCreateUsage (AllAnnotations inv) kv.1).
  destruct (strings_HasPrefix kv.1 nginx_prefix); [| done].
  by destruct (getOrCreateUsage (NginxAnnotations inv) kv.1).
Qed.

Lemma fold_annotation_summary ns inv kv :
  Summary (fold_annotation ns inv kv) = Summary inv.
Proof.
  unfold fold_annotation.
  destruct (isSystemAnnotation kv.1); [done |].
  destruct (getOrCreateUsage (AllAnnotations inv) kv.1).
  destruct (strings_HasPrefix kv.1 nginx_prefix); [| done].
  by destruct (getOrCreateUsage (NginxAnnotations inv) kv.1).
Qed.

Lemma fold_annotation_all ns inv kv :
  AllAnnotations (fold_annotation ns inv kv) =
    if isSystemAnnotation kv.1 then AllAnnotations inv
    else <[kv.1 := updateUsage (usage_or_new kv.1 (AllAnnotations inv !! kv.1)) kv.2 ns]>
           (AllAnnotations inv).
Proof.
  unfold fold_annotation.
  destruct (isSystemAnnotation kv.1); [done |].
  rewrite <- (getOrCreateUsage_store _ _ (fun u => updateUsage u kv.2 ns)).
  destruct (getOrCreateUsage (AllAnnotations inv) kv.1).
  destruct (strings_HasPrefix kv.1 nginx_prefix); [| done].
  by destruct (getOrCreateUsage (NginxAnnotations inv) kv.1).
Qed.

Lemma fold_annotation_nginx ns inv kv :
  NginxAnnotations (fold_annotation ns inv kv) =
    if strings_HasPrefix kv.1 nginx_prefix then
      <[kv.1 := attach_rule_info kv.1
                  (updateUsage (usage_or_new kv.1 (NginxAnnotations inv !! kv.1)) kv.2 ns)]>
        (NginxAnnotations inv)
    else NginxAnnotations inv.
Proof.
  unfold fold_annotation.
  destruct (strings_HasPrefix kv.1 nginx_prefix) eqn:Hp.
  - rewrite (nginx_not_system _ Hp).
    rewrite <- (getOrCreateUsage_store _ _
                  (fun u => attach_rule_info kv.1 (updateUsage u kv.2 ns))).
    destruct (getOrCreateUsage (AllAnnotations inv) kv.1).
    by destruct (getOrCreateUsage (NginxAnnotations inv) kv.1).
  - destruct (isSystemAnnotation kv.1); [done |].
    by destruct (getOrCreateUsage (AllAnnotations inv) kv.1).
Qed.

Lemma fold_unknown_all res inv unk :
  AllAnnotations (fold_unknown res inv unk) = AllAnnotations inv.
Proof. unfold fold_unknown. by destruct (getOrCreateUsage _ _). Qed.

Lemma fold_unknown_nginx res inv unk :
  NginxAnnotations (fold_unknown res inv unk) = NginxAnnotations inv.
Proof. unfold fold_unknown. by destruct (getOrCreateUsage _ _). Qed.

Lemma fold_unknown_summary res inv unk :
  Summary (fold_unknown res inv unk) = Summary inv.
Proof. unfold fold_unknown. by destruct (getOrCreateUsage _ _). Qed.

Lemma fold_unknown_unknown res inv unk :
  UnknownAnnotations (fold_unknown res inv unk) =
    <[unk := updateUsage (usage_or_new unk (UnknownAnnotations inv !! unk))
               (default "" (Res_Annotations res !! unk)) (Res_Namespace res)]>
      (UnknownAnnotations inv).
Proof.
  unfold fold_unknown.
  rewrite <- (getOrCreateUsage_store _ _
                (fun u => updateUsage u (default "" (Res_Annotations res !! unk))
                            (Res_Namespace res))).
  by destruct (getOrCreateUsage _ _).
Qed.

(** ** The loops over one resource, seen from one key *)

Lemma range_ok_NoDup rng {V} (m : gmap string V) :
  range_ok rng -> NoDup (rng V m).*1.
Proof.
  intros Hok. rewrite (Hok V m). apply NoDup_fst_map_to_list.
Qed.

Lemma range_ok_to_map rng {V} (m : gmap string V) :
  range_ok rng -> list_to_map (rng V m) = m.
Proof.
  intros Hok. rewrite <- (list_to_map_to_list m) at 2.
  apply list_to_map_proper; [by apply range_ok_NoDup | apply Hok].
Qed.

Lemma range_ok_elem rng {V} (m : gmap string V) k v :
  range_ok rng -> (k, v) ∈ rng V m <-> m !! k = Some v.
Proof.
  intros Hok. rewrite (Hok V m). apply elem_of_map_to_list.
Qed.

Lemma annotations_loop_unknown ns l inv :
  UnknownAnnotations (foldl (fold_annotation ns) inv l) = UnknownAnnotations inv.
Proof.
  revert inv. induction l as [| kv l IH]; intros inv; [done |].
  cbn [foldl]. by rewrite IH, fold_annotation_unknown.
Qed.

Lemma annotations_loop_summary ns l inv :
  Summary (foldl (fold_annotation ns) inv l) = Summary inv.
Proof.
  revert inv. induction l as [| kv l IH]; intros inv; [done |].
  cbn [foldl]. by rewrite IH, fold_annotation_summary.
Qed.

Lemma annotations_loop_all ns (l : list (string * string)) :
  NoDup l.*1 -> forall inv k,
  AllAnnotations (foldl (fold_annotation ns) inv l) !! k =
    match (list_to_map l : gmap string string) !! k with
    | Some value =>
        if isSystemAnnotation k then AllAnnotations inv !! k
        else Some (updateUsage (usage_or_new k (AllAnnotations inv !! k)) value ns)
    | None => AllAnnotations inv !! k
    end.
Proof.
  induction l as [| [k' v'] l IH]; intros Hnd inv k; [done |].
  apply NoDup_cons in Hnd as [Hnotin Hnd].
  cbn [foldl list_to_map foldr uncurry]. rewrite (IH Hnd), fold_annotation_all.
  cbn [fst snd]. destruct (decide (k' = k)) as [-> | Hne].
  - rewrite (not_elem_of_list_to_map_1 _ _ Hnotin), lookup_insert_eq.
    destruct (isSystemAnnotation k); [done |]. by rewrite lookup_insert_eq.
  - rewrite (lookup_insert_ne _ k' k) by done.
    destruct (isSystemAnnotation k'); [done |].
    by rewrite lookup_insert_ne.
Qed.

Lemma annotations_loop_nginx ns (l : list (string * string)) :
  NoDup l.*1 -> forall inv k,
  NginxAnnotations (foldl (fold_annotation ns) inv l) !! k =
    match (list_to_map l : gmap string string) !! k with
    | Some value =>
        if strings_HasPrefix k nginx_prefix then
          Some (attach_rule_info k
                  (updateUsage (usage_or_new k (NginxAnnotations inv !! k)) value ns))
        else NginxAnnotations inv !! k
    | None => NginxAnnotations inv !! k
    end.
Proof.
  induction l as [| [k' v'] l IH]; intros Hnd inv k; [done |].
  apply NoDup_cons in Hnd as [Hnotin Hnd].
  cbn [foldl list_to_map foldr uncurry]. rewrite (IH Hnd), fold_annotation_nginx.
  cbn [fst snd]. destruct (decide (k' = k)) as [-> | Hne].
  - rewrite (not_elem_of_list_to_map_1 _ _ Hnotin), lookup_insert_eq.
    destruct (strings_HasPrefix k nginx_prefix); [| done]. by rewrite lookup_insert_eq.
  - rewrite (lookup_insert_ne _ k' k) by done.
    destruct (strings_HasPrefix k' nginx_prefix); [| done].
    by rewrite lookup_insert_ne.
Qed.

Lemma unknown_loop_all res l inv :
  AllAnnotations (foldl (fold_unknown res) inv l) = AllAnnotations inv.
Proof.
  revert inv. induction l as [| u l IH]; intros inv; [done |].
  cbn [foldl]. by rewrite IH, fold_unknown_all.
Qed.

Lemma unknown_loop_nginx res l inv :
  NginxAnnotations (foldl (fold_unknown res) inv l) = NginxAnnotations inv.
Proof.
  revert inv. induction l as [| u l IH]; intros inv; [done |].
  cbn [foldl]. by rewrite IH, fold_unknown_nginx.
Qed.

Lemma unknown_loop_summary res l inv :
  Summary (foldl (fold_unknown res) inv l) = Summary inv.
Proof.
  revert inv. induction l as [| u l IH]; intros inv; [done |].
  cbn [foldl]. by rewrite IH, fold_unknown_summary.
Qed.

Lemma unknown_loop_unknown res l : forall inv k,
  UnknownAnnotations (foldl (fold_unknown res) inv l) !! k =
    foldl (fun o unknown =>
             if String.eqb unknown k then
               Some (updateUsage (usage_or_new k o)
                       (default "" (Res_Annotations res !! k)) (Res_Namespace res))
             else o)
          (UnknownAnnotations inv !! k) l.
Proof.
  induction l as [| u l IH]; intros inv k; [done |].
  cbn [foldl]. rewrite IH, fold_unknown_unknown. f_equal.
  destruct (String.eqb u k) eqn:Heq.
  - apply String.eqb_eq in Heq as ->. by rewrite lookup_insert_eq.
  - apply String.eqb_neq in Heq. by rewrite lookup_insert_ne.
Qed.

(** ** One analysis, seen from one key *)

Section OneAnalysis.
Variable rng : range_oracle.
Hypothesis rng_ok : range_ok rng.

Lemma fold_analysis_all inv a k :
  AllAnnotations (fold_analysis rng inv a) !! k = apply_all k a (AllAnnotations inv !! k).
Proof using rng_ok.
  unfold fold_analysis, apply_all, annotations_of, namespace_of.
  rewrite unknown_loop_all, annotations_loop_all by by apply range_ok_NoDup.
  by rewrite range_ok_to_map.
Qed.

Lemma fold_analysis_nginx inv a k :
  NginxAnnotations (fold_analysis rng inv a) !! k
  = apply_nginx k a (NginxAnnotations inv !! k).
Proof using rng_ok.
  unfold fold_analysis, apply_nginx, annotations_of, namespace_of.
  rewrite unknown_loop_nginx, annotations_loop_nginx by by apply range_ok_NoDup.
  by rewrite range_ok_to_map.
Qed.

Lemma fold_analysis_unknown inv a k :
  UnknownAnnotations (fold_analysis rng inv a) !! k
  = apply_unknown k a (UnknownAnnotations inv !! k).
Proof.
  unfold fold_analysis, apply_unknown, annotations_of, namespace_of.
  by rewrite unknown_loop_unknown, annotations_loop_unknown.
Qed.

Lemma fold_analysis_summary inv a :
  Summary (fold_analysis rng inv a) = Summary inv.
Proof.
  unfold fold_analysis. by rewrite unknown_loop_summary, annotations_loop_summary.
Qed.

Lemma folded_all l : forall inv k,
  AllAnnotations (foldl (fold_analysis rng) inv l) !! k
  = foldl (fun o a => apply_all k a o) (AllAnnotations inv !! k) l.
Proof using rng_ok.
  induction l as [| a l IH]; intros inv k; [done |].
  cbn [foldl]. by rewrite IH, fold_analysis_all.
Qed.

Lemma folded_nginx l : forall inv k,
  NginxAnnotations (foldl (fold_analysis rng) inv l) !! k
  = foldl (fun o a => apply_nginx k a o) (NginxAnnotations inv !! k) l.
Proof using rng_ok.
  induction l as [| a l IH]; intros inv k; [done |].
  cbn [foldl]. by rewrite IH, fold_analysis_nginx.
Qed.

Lemma folded_unknown l : forall inv k,
  UnknownAnnotations (foldl (fold_analysis rng) inv l) !! k
  = foldl (fun o a => apply_unknown k a o) (UnknownAnnotations inv !! k) l.
Proof.
  induction l as [| a l IH]; intros inv k; [done |].
  cbn [foldl]. by rewrite IH, fold_analysis_unknown.
Qed.
End OneAnalysis.

(** ** The cluster summary *)

Lemma analyzeIngress_classified rng resource : classified (analyzeIngress rng resource).
Proof.
  unfold classified, at_level, analyzeIngress. cbn [An_RiskLevel].
  rewrite GetHighestRiskLevel_spec. repeat case_match; auto.
Qed.

Lemma count_level_snoc level l a :
  count_level level (l ++ [a]) =
    (count_level level l + if decide (at_level level a) then 1 else 0)%nat.
Proof.
  unfold count_level. rewrite filter_app, length_app. f_equal.
  rewrite filter_cons, filter_nil. by case_decide.
Qed.

Lemma count_level_in_snoc level ns l a :
  count_level_in level ns (l ++ [a]) =
    (count_level_in level ns l +
     if decide (in_namespace ns a) then
       if decide (at_level level a) then 1 else 0
     else 0)%nat.
Proof.
  unfold count_level_in. rewrite !filter_app, length_app. f_equal.
  rewrite (filter_cons _ a), filter_nil.
  case_decide; [| done]. rewrite filter_cons, filter_nil. by case_decide.
Qed.

Lemma count_level_le level l : (count_level level l <= length l)%nat.
Proof. apply length_filter. Qed.

Lemma count_level_in_le level ns l : (count_level_in level ns l <= length l)%nat.
Proof.
  unfold count_level_in. etrans; [apply length_filter |]. apply length_filter.
Qed.

Lemma int_incr_exact (n bound : nat) :
  (n < bound)%nat -> Z.of_nat bound < 2 ^ 63 ->
  int_add (Z.of_nat n) 1 = Z.of_nat (n + 1).
Proof.
  intros Hn Hb. unfold int_add. rewrite int_wrap_small; lia.
Qed.

Lemma count_level_classified l :
  Forall classified l ->
  (count_level RiskAuto l + count_level RiskManual l + count_level RiskHigh l
   = length l)%nat.
Proof.
  induction 1 as [| a l Ha _ IH]; [done |].
  unfold count_level in *. rewrite !filter_cons. cbn [length].
  unfold classified, at_level in Ha.
  destruct Ha as [Ha | [Ha | Ha]]; repeat case_decide;
    unfold at_level, RiskAuto, RiskManual, RiskHigh in *;
    cbn [length]; try lia; congruence.
Qed.

Lemma filter_in_namespace_snoc ns l a :
  filter (in_namespace ns) (l ++ [a]) =
    filter (in_namespace ns) l ++ (if decide (in_namespace ns a) then [a] else []).
Proof.
  rewrite filter_app, filter_cons, filter_nil. by case_decide.
Qed.

Ltac level_cases H :=
  unfold classified, at_level in H;
  destruct H as [H | [H | H]].

Ltac count_exact :=
  match goal with
  | |- int_add (Z.of_nat ?c) 1 = Z.of_nat (?c + 1) =>
      eapply int_incr_exact; [| eassumption];
      first [ eapply Nat.le_lt_trans; [apply count_level_le | lia]
            | eapply Nat.le_lt_trans; [apply count_level_in_le | lia] ]
  end.

Ltac by_level H :=
  level_cases H; repeat case_decide;
  unfold at_level, RiskAuto, RiskManual, RiskHigh in *; try congruence;
  rewrite H; cbn; repeat split; try count_exact; f_equal; lia.

Lemma summary_step_tracks l a s :
  summary_tracks l s -> classified a ->
  Z.of_nat (length (l ++ [a])) < 2 ^ 63 ->
  summary_tracks (l ++ [a]) (summary_step s a).
Proof.
  intros (Hauto & Hman & Hhigh & Hns) Hcl Hlen.
  assert (Hlen' : (length l < length (l ++ [a]))%nat)
    by (rewrite length_app; cbn [length]; lia).
  unfold summary_tracks, summary_step.
  rewrite Hauto, Hman, Hhigh. rewrite !count_level_snoc.
  assert (Hglobal :
    let '(x, y, z) :=
      count_risk (An_RiskLevel a)
        (Z.of_nat (count_level RiskAuto l), Z.of_nat (count_level RiskManual l),
         Z.of_nat (count_level RiskHigh l)) in
    x = Z.of_nat (count_level RiskAuto l + if decide (at_level RiskAuto a) then 1 else 0) /\
    y = Z.of_nat (count_level RiskManual l + if decide (at_level RiskManual a) then 1 else 0) /\
    z = Z.of_nat (count_level RiskHigh l + if decide (at_level RiskHigh a) then 1 else 0)).
  { by_level Hcl. }
  destruct (count_risk (An_RiskLevel a) _) as [[x y] z].
  destruct Hglobal as (-> & -> & ->). cbn [Sum_AutoCount Sum_ManualCount
    Sum_HighRiskCount Sum_ByNamespace].
  repeat split. intros ns. rewrite filter_in_namespace_snoc, !count_level_in_snoc.
  specialize (Hns ns).
  destruct (decide (in_namespace ns a)) as [Heq | Hne];
    [unfold in_namespace in Heq | unfold in_namespace in Hne].
  - fold (namespace_of a). rewrite Heq, lookup_insert_eq. split.
    { intros Hnil. by apply app_eq_nil in Hnil as [_ ?]. }
    assert (Hold :
      ns_counts (default NamespaceSummary_zero (Sum_ByNamespace s !! ns)) =
        (Z.of_nat (count_level_in RiskAuto ns l),
         Z.of_nat (count_level_in RiskManual ns l),
         Z.of_nat (count_level_in RiskHigh ns l))).
    { destruct (Sum_ByNamespace s !! ns) as [s0 |]; cbn [default from_option];
        unfold ns_counts, id.
      - destruct Hns as (_ & -> & -> & ->). done.
      - unfold count_level_in. by rewrite Hns. }
    rewrite Hold.
    by_level Hcl.
  - fold (namespace_of a). rewrite lookup_insert_ne by done.
    rewrite app_nil_r, !Nat.add_0_r. done.
Qed.

Lemma summary_init_tracks total : summary_tracks [] (summary_init total).
Proof. by repeat split. Qed.

Lemma summary_step_total s a :
  Sum_TotalIngresses (summary_step s a) = Sum_TotalIngresses s.
Proof.
  unfold summary_step. by destruct (count_risk _ _) as [[? ?] ?].
Qed.

Lemma summary_loop_total l : forall s,
  Sum_TotalIngresses (foldl summary_step s l) = Sum_TotalIngresses s.
Proof.
  induction l as [| a l IH]; intros s; [done |].
  cbn [foldl]. by rewrite IH, summary_step_total.
Qed.

Lemma summary_loop_tracks total l :
  Forall classified l -> Z.of_nat (length l) < 2 ^ 63 ->
  summary_tracks l (foldl summary_step (summary_init total) l).
Proof.
  induction l as [| a l IH] using rev_ind; intros Hcl Hlen.
  - apply summary_init_tracks.
  - rewrite foldl_snoc. apply Forall_app in Hcl as [Hcl Ha].
    apply Forall_cons in Ha as [Ha _].
    apply summary_step_tracks; [| done | done].
    apply IH; [done |]. rewrite length_app in Hlen. lia.
Qed.

(** C7. The three counts of the summary add up to the number of analyses,
    and the three counts stored for a namespace add up to the number of
    analysed resources of that namespace. *)
Theorem summary_counts_add_up (rng : range_oracle) (resources : list IngressResource) :
  Z.of_nat (length resources) < 2 ^ 63 ->
  let analyses := analyzeIngress rng <$> resources in
  let summary := generateSummary analyses in
  Sum_AutoCount summary + Sum_ManualCount summary + Sum_HighRiskCount summary
    = Z.of_nat (length analyses) /\
  Sum_TotalIngresses summary = Z.of_nat (length analyses) /\
  forall ns nsSummary,
    Sum_ByNamespace summary !! ns = Some nsSummary ->
    NS_AutoCount nsSummary + NS_ManualCount nsSummary + NS_HighRiskCount nsSummary
      = Z.of_nat (length (filter (in_namespace ns) analyses)).
Proof.
  intros Hlen analyses summary.
  assert (Hcl : Forall classified analyses).
  { apply Forall_fmap, Forall_forall. intros r _. apply analyzeIngress_classified. }
  assert (Hlen' : Z.of_nat (length analyses) < 2 ^ 63).
  { unfold analyses. by rewrite length_fmap. }
  pose proof (summary_loop_tracks (Z.of_nat (length analyses)) analyses Hcl Hlen')
    as (Hauto & Hman & Hhigh & Hns).
  subst summary. unfold generateSummary in *.
  split; [| split].
  - rewrite Hauto, Hman, Hhigh. pose proof (count_level_classified analyses Hcl). lia.
  - by rewrite summary_loop_total.
  - intros ns nsSummary Hlook.
    specialize (Hns ns). rewrite Hlook in Hns. destruct Hns as (_ & -> & -> & ->).
    assert (Hcl' : Forall classified (filter (in_namespace ns) analyses)).
    { apply Forall_forall. intros a Ha. apply list_elem_of_filter in Ha as [_ Ha].
      by apply (proj1 (Forall_forall _ _) Hcl). }
    pose proof (count_level_classified _ Hcl'). unfold count_level_in, count_level in *.
    lia.
Qed.

(** ** The maps of the built inventory, key by key *)

Lemma Build_all rng analyses key :
  range_ok rng ->
  AllAnnotations (BuildAnnotationInventory rng analyses) !! key = all_entry key analyses.
Proof.
  intros Hok. unfold BuildAnnotationInventory, folded_inventory. cbn [AllAnnotations].
  by rewrite folded_all.
Qed.

Lemma Build_nginx rng analyses key :
  range_ok rng ->
  NginxAnnotations (BuildAnnotationInventory rng analyses) !! key
  = nginx_entry key analyses.
Proof.
  intros Hok. unfold BuildAnnotationInventory, folded_inventory. cbn [NginxAnnotations].
  by rewrite folded_nginx.
Qed.

Lemma Build_unknown rng analyses key :
  UnknownAnnotations (BuildAnnotationInventory rng analyses) !! key
  = unknown_entry key analyses.
Proof.
  unfold BuildAnnotationInventory, folded_inventory. cbn [UnknownAnnotations].
  by rewrite folded_unknown.
Qed.

(** ** Rule information: absent from the unknown map, present in the known one *)

Lemma usage_or_new_has (P : AnnotationUsage -> Prop) key o :
  P (usage_new key) -> entry_has P o -> P (usage_or_new key o).
Proof.
  intros Hnew Ho. destruct o as [u |]; [by apply Ho | done].
Qed.

Lemma updateUsage_no_rule_info usage value ns :
  no_rule_info usage -> no_rule_info (updateUsage usage value ns).
Proof. done. Qed.

Lemma apply_unknown_no_rule_info key a o :
  entry_has no_rule_info o -> entry_has no_rule_info (apply_unknown key a o).
Proof.
  unfold apply_unknown. intros Ho. apply foldl_invariant; [done |].
  intros o' unk Ho' _. destruct (String.eqb unk key); [| done].
  intros u [= <-]. apply updateUsage_no_rule_info.
  by apply usage_or_new_has.
Qed.

Lemma unknown_entry_no_rule_info key analyses :
  entry_has no_rule_info (unknown_entry key analyses).
Proof.
  unfold unknown_entry. apply foldl_invariant; [done |].
  intros o a Ho _. by apply apply_unknown_no_rule_info.
Qed.

Lemma attach_rule_info_idem key usage :
  attach_rule_info key (attach_rule_info key usage) = attach_rule_info key usage.
Proof. unfold attach_rule_info. by destruct (GetRuleByPattern key). Qed.

Lemma nginx_entry_attached key analyses :
  entry_has (fun usage => attach_rule_info key usage = usage) (nginx_entry key analyses).
Proof.
  unfold nginx_entry. apply foldl_invariant; [done |].
  intros o a Ho _. unfold apply_nginx.
  destruct (annotations_of a !! key); [| done].
  destruct (strings_HasPrefix key nginx_prefix); [| done].
  intros u [= <-]. apply attach_rule_info_idem.
Qed.

Lemma attached_unruled key usage :
  attach_rule_info key usage = usage -> GetRuleByPattern key = None ->
  flagged_unknown usage.
Proof.
  unfold attach_rule_info. intros Hat Hnone. rewrite Hnone in Hat.
  rewrite <- Hat. done.
Qed.

(** C10. When [BuildAnnotationInventory] returns, a record of the unknown map
    has the empty string as risk level, description, migration note and
    source; the UNKNOWN marker and the generic texts are on the record of the
    known map, for a key no rule names. *)
Theorem unknown_map_carries_no_rule_info (rng : range_oracle)
    (analyses : list IngressAnalysis) (key : string) (usage : AnnotationUsage) :
  range_ok rng ->
  UnknownAnnotations (BuildAnnotationInventory rng analyses) !! key = Some usage ->
  no_rule_info usage /\
  ~ flagged_unknown usage /\
  forall known,
    NginxAnnotations (BuildAnnotationInventory rng analyses) !! key = Some known ->
    GetRuleByPattern key = None -> flagged_unknown known.
Proof.
  intros Hok Hlook. rewrite Build_unknown in Hlook.
  pose proof (unknown_entry_no_rule_info key analyses usage Hlook) as Hinfo.
  split; [done |]. split.
  - destruct Hinfo as (Hrisk & _). intros (Hflag & _). by rewrite Hrisk in Hflag.
  - intros known Hknown Hnone. rewrite Build_nginx in Hknown by done.
    eapply attached_unruled; [| done]. by apply (nginx_entry_attached key analyses).
Qed.

(** ** Usage counts and namespaces of the known map *)

Lemma uses_snoc key l a :
  uses key (l ++ [a]) = (uses key l + if decide (has_key key a) then 1 else 0)%nat.
Proof.
  unfold uses. rewrite filter_app, length_app, filter_cons, filter_nil.
  by case_decide.
Qed.

Lemma uses_le key l : (uses key l <= length l)%nat.
Proof. apply length_filter. Qed.

Lemma uses_pos key l :
  uses key l <> 0%nat <-> exists a, a ∈ l /\ has_key key a.
Proof.
  unfold uses. split.
  - intros Hne. destruct (filter (has_key key) l) as [| a l'] eqn:Hf; [done |].
    exists a. assert (a ∈ filter (has_key key) l) as Ha by (rewrite Hf; by left).
    apply list_elem_of_filter in Ha as [? ?]. done.
  - intros (a & Hin & Hk) Hz. apply length_zero_iff_nil in Hz.
    assert (a ∈ filter (has_key key) l) as Ha by (by apply list_elem_of_filter).
    rewrite Hz in Ha. by apply elem_of_nil in Ha.
Qed.

Lemma usage_new_tracks key : usage_tracks key [] (usage_new key).
Proof.
  split; [done |]. split; [done |]. split; [apply NoDup_nil_2 |].
  intros ns. cbn. split.
  - intros H. by apply elem_of_nil in H.
  - intros (a & Ha & _). by apply elem_of_nil in Ha.
Qed.

Lemma namespaces_step (names : list string) ns :
  NoDup names ->
  NoDup (add_if_absent names ns) /\
  forall x, x ∈ add_if_absent names ns <-> x ∈ names \/ x = ns.
Proof.
  intros Hnd. unfold add_if_absent. destruct (found_in names ns) eqn:Hf; cbn.
  - apply found_in_spec in Hf. split; [done |]. intros x.
    split; [auto | intros [? | ->]; done].
  - apply found_in_false in Hf. split.
    + apply NoDup_app. split; [done |]. split; [| apply NoDup_singleton].
      intros x Hx Hx'. apply list_elem_of_singleton in Hx'. by subst.
    + intros x. rewrite elem_of_app, list_elem_of_singleton. done.
Qed.

Lemma updateUsage_tracks key l a usage value :
  usage_tracks key l usage -> has_key key a ->
  usage_tracks key (l ++ [a]) (updateUsage usage value (namespace_of a)).
Proof.
  intros (Hkey & Hcount & Hnd & Hns) Hk.
  destruct (namespaces_step (Namespaces usage) (namespace_of a) Hnd) as [Hnd' Hin'].
  unfold usage_tracks. cbn [Key UsageCount Namespaces updateUsage].
  split; [done |]. split; [| split; [done |]].
  - rewrite Hcount, int_add_wrap_l, uses_snoc.
    rewrite decide_True by done. f_equal. lia.
  - intros ns. rewrite Hin', Hns. split.
    + intros [(a' & Ha' & Hk' & Hn') | ->].
      * exists a'. rewrite elem_of_app. auto.
      * exists a. rewrite elem_of_app, list_elem_of_singleton. auto.
    + intros (a' & Ha' & Hk' & Hn'). apply elem_of_app in Ha' as [Ha' | Ha'].
      * left. eauto.
      * apply list_elem_of_singleton in Ha' as ->. by right.
Qed.

Lemma usage_tracks_skip key l a usage :
  usage_tracks key l usage -> ~ has_key key a -> usage_tracks key (l ++ [a]) usage.
Proof.
  intros (Hkey & Hcount & Hnd & Hns) Hk.
  split; [done |]. split; [| split; [done |]].
  - rewrite Hcount, uses_snoc, decide_False by done. f_equal. lia.
  - intros ns. rewrite Hns. split.
    + intros (a' & Ha' & Hk' & Hn'). exists a'. rewrite elem_of_app. auto.
    + intros (a' & Ha' & Hk' & Hn'). apply elem_of_app in Ha' as [Ha' | Ha'].
      * eauto.
      * apply list_elem_of_singleton in Ha' as ->. done.
Qed.

Lemma attach_rule_info_tracks key l usage :
  usage_tracks key l usage -> usage_tracks key l (attach_rule_info key usage).
Proof.
  unfold attach_rule_info. by destruct (GetRuleByPattern key).
Qed.

Lemma nginx_entry_snoc key l a :
  nginx_entry key (l ++ [a]) = apply_nginx key a (nginx_entry key l).
Proof. unfold nginx_entry. by rewrite foldl_snoc. Qed.

Lemma nginx_entry_outside key l :
  strings_HasPrefix key nginx_prefix = false -> nginx_entry key l = None.
Proof.
  intros Hp. induction l as [| a l IH] using rev_ind; [done |].
  rewrite nginx_entry_snoc, IH. unfold apply_nginx. rewrite Hp.
  by destruct (annotations_of a !! key).
Qed.

Lemma nginx_entry_tracks key l :
  strings_HasPrefix key nginx_prefix = true ->
  usage_tracks key l (usage_or_new key (nginx_entry key l)) /\
  (is_Some (nginx_entry key l) <-> uses key l <> 0%nat).
Proof.
  intros Hp. induction l as [| a l [IHt IHs]] using rev_ind.
  - split; [apply usage_new_tracks |]. cbn. split; [by intros [? ?] | done].
  - rewrite nginx_entry_snoc, uses_snoc. unfold apply_nginx. rewrite Hp.
    destruct (decide (has_key key a)) as [Hk | Hk].
    + destruct Hk as [v Hv]; rewrite Hv. split.
      * cbn [usage_or_new default]. apply attach_rule_info_tracks.
        apply updateUsage_tracks; [done |]. by exists v.
      * split; [lia | eauto].
    + assert (annotations_of a !! key = None) as ->.
      { by apply eq_None_not_Some. }
      split; [by apply usage_tracks_skip |]. rewrite IHs. lia.
Qed.

Lemma nginx_entry_Some key l usage :
  nginx_entry key l = Some usage ->
  strings_HasPrefix key nginx_prefix = true /\ usage_tracks key l usage.
Proof.
  intros Hl. destruct (strings_HasPrefix key nginx_prefix) eqn:Hp.
  - split; [done |]. destruct (nginx_entry_tracks key l Hp) as [Ht _].
    by rewrite Hl in Ht.
  - by rewrite nginx_entry_outside in Hl.
Qed.

(** C3. For a key of the known map, the usage count is the number of input
    resources whose annotation map contains that key, and the namespaces of
    the record are the namespaces of those resources, each listed once. *)
Theorem known_usage_matches_resources (rng : range_oracle)
    (analyses : list IngressAnalysis) (key : string) (usage : AnnotationUsage) :
  range_ok rng ->
  Z.of_nat (length analyses) < 2 ^ 63 ->
  NginxAnnotations (BuildAnnotationInventory rng analyses) !! key = Some usage ->
  UsageCount usage = Z.of_nat (uses key analyses) /\
  NoDup (Namespaces usage) /\
  forall ns, ns ∈ Namespaces usage <->
    exists analysis, analysis ∈ analyses /\ has_key key analysis /\
                     namespace_of analysis = ns.
Proof.
  intros Hok Hlen Hlook. rewrite Build_nginx in Hlook by done.
  apply nginx_entry_Some in Hlook as (_ & _ & Hcount & Hnd & Hns).
  split; [| done]. rewrite Hcount. apply int_wrap_small.
  pose proof (uses_le key analyses). lia.
Qed.

(** ** Loops that collect *)

Lemma foldl_collect {A B} (f : A -> option B) (l : list A) : forall acc,
  foldl (fun acc x => match f x with Some y => acc ++ [y] | None => acc end) acc l
  = acc ++ omap f l.
Proof.
  induction l as [| x l IH]; intros acc; cbn [foldl omap list_omap].
  - by rewrite app_nil_r.
  - rewrite IH. destruct (f x); [| done]. by rewrite <- app_assoc.
Qed.

Lemma unknown_loop_collect (l : list (string * string)) : forall acc,
  foldl (fun unknown kv =>
           if strings_HasPrefix kv.1 nginx_prefix then
             if negb (default false (knownPatterns !! kv.1))
             then unknown ++ [kv.1] else unknown
           else unknown)
        acc l
  = acc ++ omap (fun kv => unknown_of_key kv.1) l.
Proof.
  induction l as [| kv l IH]; intros acc; cbn [foldl omap list_omap].
  - by rewrite app_nil_r.
  - rewrite IH. unfold unknown_of_key.
    destruct (strings_HasPrefix kv.1 nginx_prefix); [| done].
    destruct (negb _); [| done]. by rewrite <- app_assoc.
Qed.

Lemma GetUnknownNginxAnnotations_omap rng annotations :
  GetUnknownNginxAnnotations rng annotations
  = omap (fun kv => unknown_of_key kv.1) (rng _ annotations).
Proof. apply unknown_loop_collect. Qed.

Lemma MatchAnnotations_omap rng annotations :
  MatchAnnotations rng annotations
  = omap (fun kv => first_match GetAnnotationRules kv.1) (rng _ annotations).
Proof.
  unfold MatchAnnotations. by rewrite foldl_collect.
Qed.

(** ** The rule table by pattern *)

Lemma knownPatterns_loop rules : forall (m : gmap string bool) key,
  foldl (fun m rule => <[Rule_Pattern rule := true]> m) m rules !! key
  = if has_pattern rules key then Some true else m !! key.
Proof.
  induction rules as [| r rules IH]; intros m key; [done |].
  cbn [foldl has_pattern existsb]. rewrite IH. fold (has_pattern rules key).
  destruct (has_pattern rules key); [by rewrite orb_true_r |].
  rewrite orb_false_r. destruct (String.eqb (Rule_Pattern r) key) eqn:Heq.
  - apply String.eqb_eq in Heq as <-. by rewrite lookup_insert_eq.
  - apply String.eqb_neq in Heq. by rewrite lookup_insert_ne.
Qed.

Lemma GetRuleByPattern_in_None rules key :
  GetRuleByPattern_in rules key = None <-> has_pattern rules key = false.
Proof.
  induction rules as [| r rules IH]; [done |].
  cbn [GetRuleByPattern_in has_pattern existsb].
  destruct (String.eqb (Rule_Pattern r) key); [done |]. by rewrite IH.
Qed.

Lemma GetRuleByPattern_in_Some rules key rule :
  GetRuleByPattern_in rules key = Some rule ->
  rule ∈ rules /\ Rule_Pattern rule = key.
Proof.
  induction rules as [| r rules IH]; [done |]. cbn [GetRuleByPattern_in].
  destruct (String.eqb (Rule_Pattern r) key) eqn:Heq.
  - intros [= <-]. apply String.eqb_eq in Heq. split; [by left | done].
  - intros H. destruct (IH H). split; [by right | done].
Qed.

Lemma unknown_of_key_spec key :
  unknown_of_key key =
    if strings_HasPrefix key nginx_prefix then
      match GetRuleByPattern key with Some _ => None | None => Some key end
    else None.
Proof.
  unfold unknown_of_key, knownPatterns. rewrite knownPatterns_loop, lookup_empty.
  destruct (strings_HasPrefix key nginx_prefix); [| done].
  destruct (GetRuleByPattern key) as [r |] eqn:Hr.
  - destruct (has_pattern GetAnnotationRules key) eqn:Hp; [done |].
    apply GetRuleByPattern_in_None in Hp. unfold GetRuleByPattern in Hr. congruence.
  - apply GetRuleByPattern_in_None in Hr. by rewrite Hr.
Qed.

Lemma GetUnknownNginxAnnotations_elem rng annotations key :
  range_ok rng ->
  key ∈ GetUnknownNginxAnnotations rng annotations <->
    is_Some (annotations !! key) /\
    strings_HasPrefix key nginx_prefix = true /\ GetRuleByPattern key = None.
Proof.
  intros Hok. rewrite GetUnknownNginxAnnotations_omap, list_elem_of_omap. split.
  - intros ([k v] & Hin & Hu). cbn [fst] in Hu. rewrite unknown_of_key_spec in Hu.
    apply (range_ok_elem rng) in Hin; [| done].
    destruct (strings_HasPrefix k nginx_prefix) eqn:Hp; [| done].
    destruct (GetRuleByPattern k) eqn:Hr; [done |]. injection Hu as <-. eauto.
  - intros ([v Hv] & Hp & Hr). exists (key, v). split.
    + by apply (range_ok_elem rng).
    + cbn [fst]. by rewrite unknown_of_key_spec, Hp, Hr.
Qed.

(** ** Membership of the unknown and the known map *)

Lemma apply_unknown_is_Some key a o :
  is_Some (apply_unknown key a o) <-> is_Some o \/ key ∈ An_UnknownAnnotations a.
Proof.
  unfold apply_unknown. revert o.
  induction (An_UnknownAnnotations a) as [| u l IH]; intros o; cbn [foldl].
  - split; [auto | intros [? | H]; [done | by apply elem_of_nil in H]].
  - rewrite IH, elem_of_cons. destruct (String.eqb u key) eqn:Heq.
    + apply String.eqb_eq in Heq as ->. split; [auto |]. intros _. left. eauto.
    + apply String.eqb_neq in Heq. split; [tauto |].
      intros [? | [-> | ?]]; tauto.
Qed.

Lemma unknown_entry_is_Some key l :
  is_Some (unknown_entry key l) <-> exists a, a ∈ l /\ key ∈ An_UnknownAnnotations a.
Proof.
  induction l as [| a l IH] using rev_ind.
  - cbn. split; [by intros [? ?] | intros (a & Ha & _); by apply elem_of_nil in Ha].
  - unfold unknown_entry in *. rewrite foldl_snoc, apply_unknown_is_Some, IH. split.
    + intros [(a' & Ha' & Hk) | Hk].
      * exists a'. rewrite elem_of_app. auto.
      * exists a. rewrite elem_of_app, list_elem_of_singleton. auto.
    + intros (a' & Ha' & Hk). apply elem_of_app in Ha' as [Ha' | Ha'].
      * left. eauto.
      * apply list_elem_of_singleton in Ha' as ->. by right.
Qed.

Lemma nginx_entry_is_Some key l :
  is_Some (nginx_entry key l) <->
    strings_HasPrefix key nginx_prefix = true /\ exists a, a ∈ l /\ has_key key a.
Proof.
  destruct (strings_HasPrefix key nginx_prefix) eqn:Hp.
  - destruct (nginx_entry_tracks key l Hp) as [_ ->]. rewrite uses_pos. tauto.
  - rewrite nginx_entry_outside by done. split; [by intros [? ?] | by intros [? _]].
Qed.

Lemma table_levels_known :
  forallb (fun rule => negb (String.eqb (Rule_RiskLevel rule) RiskUnknown))
    GetAnnotationRules = true.
Proof. vm_compute. reflexivity. Qed.

Lemma GetRuleByPattern_level key rule :
  GetRuleByPattern key = Some rule -> Rule_RiskLevel rule <> RiskUnknown.
Proof.
  intros Hr. apply GetRuleByPattern_in_Some in Hr as [Hin _].
  pose proof table_levels_known as Hall. rewrite forallb_forall in Hall.
  apply list_elem_of_In, Hall in Hin. apply negb_true_iff in Hin.
  by apply String.eqb_neq.
Qed.

Lemma range_canonical_ok : range_ok range_canonical.
Proof. intros V m. reflexivity. Qed.

Lemma range_reversed_ok : range_ok range_reversed.
Proof. intros V m. unfold range_reversed. by rewrite reverse_Permutation. Qed.

(** C4, amended. In an inventory built from analysed resources the unknown
    map holds exactly the keys of the known map that no rule names, and these
    are the keys whose known record is flagged UNKNOWN: the two key sets are
    nested, not disjoint. *)
Theorem unknown_keys_are_unruled_known_keys (rng_analysis rng : range_oracle)
    (resources : list IngressResource) (key : string) :
  range_ok rng_analysis -> range_ok rng ->
  let inv := BuildAnnotationInventory rng (analyzeIngress rng_analysis <$> resources) in
  (is_Some (UnknownAnnotations inv !! key) <->
     is_Some (NginxAnnotations inv !! key) /\ GetRuleByPattern key = None) /\
  (forall known, NginxAnnotations inv !! key = Some known ->
     (Risk known = RiskUnknown <-> GetRuleByPattern key = None)).
Proof.
  intros HokA Hok inv. subst inv. rewrite Build_unknown, Build_nginx by done. split.
  - rewrite unknown_entry_is_Some, nginx_entry_is_Some. split.
    + intros (a & Ha & Hk). apply list_elem_of_fmap in Ha as (r & -> & Hr).
      cbn [analyzeIngress An_UnknownAnnotations] in Hk.
      apply GetUnknownNginxAnnotations_elem in Hk as (Hs & Hp & Hn); [| done].
      split; [| done]. split; [done |]. exists (analyzeIngress rng_analysis r).
      split; [| done]. apply list_elem_of_fmap. eauto.
    + intros ((Hp & a & Ha & Hk) & Hn).
      exists a. split; [done |]. apply list_elem_of_fmap in Ha as (r & -> & Hr).
      cbn [analyzeIngress An_UnknownAnnotations].
      apply GetUnknownNginxAnnotations_elem; done.
  - intros known Hknown.
    pose proof (nginx_entry_attached key _ known Hknown) as Hat.
    unfold attach_rule_info in Hat.
    destruct (GetRuleByPattern key) as [rule |] eqn:Hr; rewrite <- Hat; cbn [Risk set_rule_info].
    + split; [| done]. intros Hl. by apply GetRuleByPattern_level in Hr.
    + done.
Qed.

(** C4 as stated fails: one resource with one unclassified managed annotation
    puts the key in both maps. *)
Lemma known_unknown_not_exclusive :
  ~ known_unknown_exclusive
      (BuildAnnotationInventory range_canonical
         [analyzeIngress range_canonical resource_custom_unknown]).
Proof.
  intros H. apply (H "nginx.ingress.kubernetes.io/custom-unknown").
  split; vm_compute; eauto.
Qed.

(** ** The criticality ranker *)

Lemma collect_high_loop (l : list (string * AnnotationUsage)) : forall acc,
  foldl collect_high acc l = acc ++ (filter is_high l).*2.
Proof.
  induction l as [| kv l IH]; intros acc; cbn [foldl].
  - by rewrite app_nil_r.
  - rewrite IH, filter_cons. unfold collect_high, is_high at 1.
    destruct (String.eqb (Risk kv.2) RiskHigh) eqn:Heq.
    + apply String.eqb_eq in Heq. rewrite decide_True by done.
      by rewrite <- app_assoc.
    + apply String.eqb_neq in Heq. by rewrite decide_False.
Qed.

Lemma collect_unknown_loop (l : list (string * AnnotationUsage)) : forall m acc,
  foldl collect_unknown (m, acc) l
  = (foldl (fun m kv => <[kv.1 := set_Risk RiskUnknown kv.2]> m) m l,
     acc ++ (set_Risk RiskUnknown <$> l.*2)).
Proof.
  induction l as [| kv l IH]; intros m acc; cbn [foldl].
  - by rewrite app_nil_r.
  - unfold collect_unknown at 2. cbn [fst snd]. rewrite IH.
    by rewrite <- app_assoc.
Qed.

Lemma overwrite_loop {V} (f : V -> V) (l : list (string * V)) :
  NoDup l.*1 -> forall (m : gmap string V) key,
  foldl (fun m kv => <[kv.1 := f kv.2]> m) m l !! key
  = match (list_to_map l : gmap string V) !! key with
    | Some v => Some (f v)
    | None => m !! key
    end.
Proof.
  induction l as [| [k v] l IH]; intros Hnd m key; [done |].
  apply NoDup_cons in Hnd as [Hnotin Hnd].
  cbn [foldl list_to_map foldr uncurry fst snd]. rewrite (IH Hnd).
  destruct (decide (k = key)) as [-> | Hne].
  - by rewrite (not_elem_of_list_to_map_1 _ _ Hnotin), !lookup_insert_eq.
  - by rewrite !lookup_insert_ne by done.
Qed.

Lemma overwrite_all rng {V} (f : V -> V) (m : gmap string V) :
  range_ok rng ->
  foldl (fun m kv => <[kv.1 := f kv.2]> m) m (rng V m) = f <$> m.
Proof.
  intros Hok. apply map_eq. intros key.
  rewrite overwrite_loop by by apply range_ok_NoDup.
  rewrite range_ok_to_map by done. rewrite lookup_fmap.
  by destruct (m !! key).
Qed.

Lemma GetMostCriticalAnnotations_unfold rng srt inv limit :
  range_ok rng ->
  GetMostCriticalAnnotations rng srt inv limit =
    ({| AllAnnotations := AllAnnotations inv;
        NginxAnnotations := NginxAnnotations inv;
        UnknownAnnotations := set_Risk RiskUnknown <$> UnknownAnnotations inv;
        Summary := Summary inv |},
     let critical := srt _ more_used (candidates_in rng inv) in
     if Z.of_nat (length critical) >? limit then slice_to critical limit
     else Some critical).
Proof.
  intros Hok. unfold GetMostCriticalAnnotations, candidates_in.
  rewrite collect_high_loop, collect_unknown_loop, app_nil_l.
  by rewrite overwrite_all.
Qed.

(** C9, amended. The call leaves the maps of all annotations and of the
    known annotations and the summary as they were; in the unknown map it
    keeps the keys and every field of every record except the risk level,
    which it sets to UNKNOWN. *)
Theorem ranking_marks_unknown_records_only (rng : range_oracle) (srt : slice_sorter)
    (inv : AnnotationInventory) (limit : int) :
  range_ok rng ->
  let after := (GetMostCriticalAnnotations rng srt inv limit).1 in
  AllAnnotations after = AllAnnotations inv /\
  NginxAnnotations after = NginxAnnotations inv /\
  Summary after = Summary inv /\
  forall key,
    UnknownAnnotations after !! key
    = set_Risk RiskUnknown <$> UnknownAnnotations inv !! key.
Proof.
  intros Hok after. subst after. rewrite GetMostCriticalAnnotations_unfold by done.
  cbn [fst AllAnnotations NginxAnnotations UnknownAnnotations Summary].
  repeat split. intros key. by rewrite lookup_fmap.
Qed.

(** C9 as stated fails: after [BuildAnnotationInventory] the record of an
    unclassified key has the empty risk level in the unknown map, and the
    call overwrites it. *)
Lemma ranking_not_read_only :
  ~ ranking_read_only range_canonical insertionSortLessFunc inventory_custom_unknown 5.
Proof.
  unfold ranking_read_only. intros H.
  apply (f_equal (fun inv =>
    Risk <$> UnknownAnnotations inv !! "nginx.ingress.kubernetes.io/custom-unknown")) in H.
  vm_compute in H. discriminate H.
Qed.

(** *** The insertion sort satisfies the contract of [sort.Slice] *)

Lemma insert_from_right_Permutation {A} (less : A -> A -> bool) x l :
  insert_from_right less x l ≡ₚ x :: l.
Proof.
  induction l as [| y l IH]; cbn [insert_from_right]; [done |].
  destruct (less x y); [| done]. rewrite IH. apply Permutation_swap.
Qed.

Lemma insert_from_right_sorted {A} (less : A -> A -> bool) x l :
  less_asym less -> less_negtrans less ->
  StronglySorted (fun a b => less a b = false) l ->
  StronglySorted (fun a b => less a b = false) (insert_from_right less x l).
Proof.
  intros Hasym Hneg. induction 1 as [| y l Hs IH Hall]; cbn [insert_from_right].
  - by repeat constructor.
  - destruct (less x y) eqn:Hxy.
    + constructor; [done |].
      rewrite insert_from_right_Permutation. constructor; [by apply Hasym | done].
    + constructor; [by constructor |]. constructor; [done |].
      eapply Forall_impl; [exact Hall |]. intros z Hyz. by apply (Hneg x y z).
Qed.

Lemma StronglySorted_reverse {A} (R : relation A) l :
  StronglySorted R l -> StronglySorted (fun a b => R b a) (reverse l).
Proof.
  induction 1 as [| x l Hs IH Hall]; [constructor |].
  rewrite reverse_cons.
  apply (StronglySorted_app_2 (fun a b => R b a)); [| exact IH |].
  - intros a b Ha Hb. apply list_elem_of_singleton in Hb as ->.
    rewrite elem_of_reverse in Ha. rewrite Forall_forall in Hall. by apply Hall.
  - constructor; constructor.
Qed.

Lemma insertionSortLessFunc_ok : sort_Slice_ok insertionSortLessFunc.
Proof.
  intros A less l. unfold insertionSortLessFunc. split.
  - rewrite reverse_Permutation.
    induction l as [| x l IH] using rev_ind; [done |].
    rewrite foldl_snoc, insert_from_right_Permutation, IH.
    by rewrite <- Permutation_cons_append.
  - intros Hasym Hneg.
    apply (StronglySorted_reverse (fun a b => less a b = false)).
    induction l as [| x l IH] using rev_ind; [constructor |].
    rewrite foldl_snoc. by apply insert_from_right_sorted.
Qed.

(** *** The ranking *)

Lemma more_used_asym : less_asym more_used.
Proof. intros a b. unfold more_used. lia. Qed.

Lemma more_used_negtrans : less_negtrans more_used.
Proof. intros a b c. unfold more_used. lia. Qed.

Lemma StronglySorted_weaken {A} (R1 R2 : relation A) l :
  (forall a b, R1 a b -> R2 a b) -> StronglySorted R1 l -> StronglySorted R2 l.
Proof.
  intros Himpl. induction 1 as [| x l Hs IH Hall]; constructor; [done |].
  eapply Forall_impl; [exact Hall | auto].
Qed.

Lemma candidates_in_Permutation rng inv :
  range_ok rng -> candidates_in rng inv ≡ₚ candidates inv.
Proof.
  intros Hok. unfold candidates, candidates_in, range_canonical.
  by rewrite !(Hok AnnotationUsage).
Qed.

Lemma sorted_candidates rng srt inv :
  range_ok rng -> sort_Slice_ok srt ->
  srt _ more_used (candidates_in rng inv) ≡ₚ candidates inv /\
  by_usage_desc (srt _ more_used (candidates_in rng inv)).
Proof.
  intros Hok Hsrt.
  destruct (Hsrt _ more_used (candidates_in rng inv)) as [Hperm Hsorted]. split.
  - by rewrite Hperm, candidates_in_Permutation.
  - eapply StronglySorted_weaken;
      [| exact (Hsorted more_used_asym more_used_negtrans)].
    intros a b. unfold more_used. cbn. lia.
Qed.

(** C5, amended. For a limit that is not negative the ranker returns the
    first [limit] records, or all when there are fewer, of an ordering of the
    candidates (the HIGH_RISK records of the known map and the records of the
    unknown map, marked UNKNOWN) in which no record is used more often than
    one before it; the order among records of equal usage is left open. *)
Theorem ranking_top_by_usage (rng : range_oracle) (srt : slice_sorter)
    (inv : AnnotationInventory) (limit : int) :
  range_ok rng -> sort_Slice_ok srt -> 0 <= limit ->
  exists ranked rest,
    (GetMostCriticalAnnotations rng srt inv limit).2 = Some ranked /\
    ranked ++ rest ≡ₚ candidates inv /\
    by_usage_desc (ranked ++ rest) /\
    length ranked = Nat.min (Z.to_nat limit) (length (candidates inv)).
Proof.
  intros Hok Hsrt Hlimit. rewrite GetMostCriticalAnnotations_unfold by done.
  cbn [snd]. destruct (sorted_candidates rng srt inv Hok Hsrt) as [Hperm Hsorted].
  set (critical := srt _ more_used (candidates_in rng inv)) in *.
  assert (Hlen : length critical = length (candidates inv)) by by rewrite Hperm.
  destruct (Z.of_nat (length critical) >? limit) eqn:Hcmp.
  - exists (take (Z.to_nat limit) critical), (drop (Z.to_nat limit) critical).
    unfold slice_to. rewrite (proj2 (Z.ltb_ge limit 0)) by lia.
    rewrite take_drop, length_take. repeat split; try done. lia.
  - exists critical, []. rewrite app_nil_r. repeat split; try done. lia.
Qed.

(** C5 as stated fails on ties: two unknown annotations used once each come
    back with the larger key first when the map yields them in that order. *)
Lemma ranking_ties_not_by_key :
  ranked_by_count_then_key
    <$> (GetMostCriticalAnnotations range_reversed insertionSortLessFunc
           inventory_two_unknown 5).2
  = Some false.
Proof. vm_compute. reflexivity. Qed.

(** A negative limit makes the slice expression panic. *)
Lemma ranking_negative_limit_panics :
  (GetMostCriticalAnnotations range_canonical insertionSortLessFunc
     inventory_two_unknown (-1)).2 = None.
Proof. vm_compute. reflexivity. Qed.

(** ** Rebuilding an inventory from the same resources *)

#[global] Instance usage_agrees_equivalence : Equivalence usage_agrees.
Proof.
  split.
  - intros u. by repeat split.
  - intros u1 u2 (? & ? & ? & ? & ? & ? & ? & ? & ?). by repeat split.
  - intros u1 u2 u3 (? & ? & ? & ? & ? & ? & ? & ? & ?)
      (? & ? & ? & ? & ? & ? & ? & ? & ?).
    repeat split; etrans; done.
Qed.

Lemma found_in_Permutation l1 l2 x : l1 ≡ₚ l2 -> found_in l1 x = found_in l2 x.
Proof.
  intros Hperm. destruct (found_in l2 x) eqn:Hf.
  - apply found_in_spec. apply found_in_spec in Hf. by rewrite Hperm.
  - apply found_in_false. apply found_in_false in Hf. by rewrite Hperm.
Qed.

Lemma add_if_absent_Permutation l1 l2 x :
  l1 ≡ₚ l2 -> add_if_absent l1 x ≡ₚ add_if_absent l2 x.
Proof.
  intros Hperm. unfold add_if_absent. rewrite (found_in_Permutation l1 l2 x Hperm).
  destruct (found_in l2 x); [done |]. by rewrite Hperm.
Qed.

Lemma found_in_snoc l x y :
  found_in (l ++ [x]) y = found_in l y || String.eqb x y.
Proof.
  unfold found_in. rewrite existsb_app. cbn. by rewrite orb_false_r.
Qed.

Lemma add_if_absent_comm l x y :
  add_if_absent (add_if_absent l x) y ≡ₚ add_if_absent (add_if_absent l y) x.
Proof.
  unfold add_if_absent.
  destruct (found_in l x) eqn:Hx, (found_in l y) eqn:Hy;
    rewrite ?found_in_snoc, ?Hx, ?Hy; cbn [orb]; try done.
  rewrite (String.eqb_sym y x). destruct (String.eqb x y) eqn:Hxy.
  - apply String.eqb_eq in Hxy as ->. done.
  - rewrite <- !app_assoc. apply Permutation_app_head. apply Permutation_swap.
Qed.

Lemma ValueExamples_comm (m : gmap string int) x y :
  <[y := int_add (default 0 (<[x := int_add (default 0 (m !! x)) 1]> m !! y)) 1]>
    (<[x := int_add (default 0 (m !! x)) 1]> m)
  = <[x := int_add (default 0 (<[y := int_add (default 0 (m !! y)) 1]> m !! x)) 1]>
      (<[y := int_add (default 0 (m !! y)) 1]> m).
Proof.
  destruct (decide (x = y)) as [-> | Hne]; [done |].
  rewrite !lookup_insert_ne by done. by apply insert_insert_ne.
Qed.

Lemma updateUsage_agrees u1 u2 value ns :
  usage_agrees u1 u2 -> usage_agrees (updateUsage u1 value ns) (updateUsage u2 value ns).
Proof.
  intros (? & ? & ? & ? & ? & ? & ? & ? & ?). unfold usage_agrees. cbn.
  repeat split; try done; try congruence; by apply add_if_absent_Permutation.
Qed.

Lemma attach_rule_info_agrees key u1 u2 :
  usage_agrees u1 u2 ->
  usage_agrees (attach_rule_info key u1) (attach_rule_info key u2).
Proof.
  intros (? & ? & ? & ? & ? & ? & ? & ? & ?). unfold attach_rule_info.
  destruct (GetRuleByPattern key); by repeat split.
Qed.

Lemma updateUsage_comm u v1 n1 v2 n2 :
  usage_agrees (updateUsage (updateUsage u v1 n1) v2 n2)
               (updateUsage (updateUsage u v2 n2) v1 n1).
Proof.
  unfold usage_agrees. cbn. repeat split; try apply add_if_absent_comm.
  apply ValueExamples_comm.
Qed.

Lemma updateUsage_attach_comm key u v1 n1 v2 n2 :
  usage_agrees
    (attach_rule_info key (updateUsage (attach_rule_info key (updateUsage u v1 n1)) v2 n2))
    (attach_rule_info key (updateUsage (attach_rule_info key (updateUsage u v2 n2)) v1 n1)).
Proof.
  unfold attach_rule_info.
  destruct (GetRuleByPattern key); unfold usage_agrees; cbn;
    repeat split; try apply add_if_absent_comm; apply ValueExamples_comm.
Qed.

Lemma usage_or_new_agrees key o1 o2 :
  entry_agrees o1 o2 -> usage_agrees (usage_or_new key o1) (usage_or_new key o2).
Proof. by destruct 1. Qed.

Lemma touch_agrees key post r value o1 o2 :
  post_ok key post -> entry_agrees o1 o2 ->
  entry_agrees (touch key post r value o1) (touch key post r value o2).
Proof.
  intros Hpost Ho. unfold touch. destruct value as [v |]; [| done].
  constructor. apply (usage_or_new_agrees key) in Ho.
  destruct Hpost as [-> | ->].
  - by apply updateUsage_agrees.
  - by apply attach_rule_info_agrees, updateUsage_agrees.
Qed.

Lemma touch_comm key post r1 value1 r2 value2 o :
  post_ok key post ->
  entry_agrees (touch key post r2 value2 (touch key post r1 value1 o))
               (touch key post r1 value1 (touch key post r2 value2 o)).
Proof.
  intros Hpost. unfold touch.
  destruct value1 as [v1 |], value2 as [v2 |]; try reflexivity.
  constructor. cbn [usage_or_new default]. destruct Hpost as [-> | ->].
  - apply updateUsage_comm.
  - apply updateUsage_attach_comm.
Qed.

Lemma foldl_agrees {A B} (R : relation B) (f : B -> A -> B) (l : list A) :
  (forall x b b', R b b' -> R (f b x) (f b' x)) ->
  forall b b', R b b' -> R (foldl f b l) (foldl f b' l).
Proof.
  intros Hf. induction l as [| x l IH]; intros b b' Hb; [done |].
  cbn [foldl]. by apply IH, Hf.
Qed.

Lemma foldl_Permutation_agrees {A B} (R : relation B) `{!Equivalence R}
    (f : B -> A -> B) (l1 l2 : list A) :
  (forall x b b', R b b' -> R (f b x) (f b' x)) ->
  (forall x y b, R (f (f b x) y) (f (f b y) x)) ->
  l1 ≡ₚ l2 -> forall b b', R b b' -> R (foldl f b l1) (foldl f b' l2).
Proof.
  intros Hf Hcomm. induction 1 as [| x l1 l2 _ IH | x y l | l1 l2 l3 _ IH1 _ IH2];
    intros b b' Hb; cbn [foldl].
  - done.
  - by apply IH, Hf.
  - apply foldl_agrees; [done |]. etrans; [apply Hcomm |]. by apply Hf, Hf.
  - etrans; [by apply IH1 | by apply IH2].
Qed.

Lemma touch_loop_Permutation key post (value : IngressResource -> option string)
    (rs1 rs2 : list IngressResource) :
  post_ok key post -> rs1 ≡ₚ rs2 ->
  entry_agrees (foldl (fun o r => touch key post r (value r) o) None rs1)
               (foldl (fun o r => touch key post r (value r) o) None rs2).
Proof.
  intros Hpost Hperm.
  apply (foldl_Permutation_agrees entry_agrees); [| | done | constructor].
  - intros r o o' Ho. by apply touch_agrees.
  - intros r1 r2 o. by apply touch_comm.
Qed.

Lemma foldl_ext_in {A B} (f g : B -> A -> B) (l : list A) :
  (forall b x, x ∈ l -> f b x = g b x) -> forall b, foldl f b l = foldl g b l.
Proof.
  induction l as [| x l IH]; intros Hfg b; [done |]. cbn [foldl].
  rewrite Hfg by by left. apply IH. intros b' y Hy. apply Hfg. by right.
Qed.

Lemma all_entry_resources rng key rs :
  all_entry key (analyzeIngress rng <$> rs)
  = foldl (fun o r => touch key id r (value_for_all key r) o) None rs.
Proof.
  unfold all_entry. rewrite foldl_fmap. apply foldl_ext_in. intros o r _.
  unfold apply_all, touch, value_for_all, annotations_of, namespace_of.
  cbn [analyzeIngress An_Resource].
  destruct (Res_Annotations r !! key); by destruct (isSystemAnnotation key).
Qed.

Lemma nginx_entry_resources rng key rs :
  nginx_entry key (analyzeIngress rng <$> rs)
  = foldl (fun o r => touch key (attach_rule_info key) r (value_for_nginx key r) o)
      None rs.
Proof.
  unfold nginx_entry. rewrite foldl_fmap. apply foldl_ext_in. intros o r _.
  unfold apply_nginx, touch, value_for_nginx, annotations_of, namespace_of.
  cbn [analyzeIngress An_Resource].
  destruct (Res_Annotations r !! key); by destruct (strings_HasPrefix key nginx_prefix).
Qed.

Lemma unknown_of_key_Some key k : unknown_of_key key = Some k -> k = key.
Proof.
  unfold unknown_of_key. repeat case_match; congruence.
Qed.

Lemma GetUnknownNginxAnnotations_NoDup rng annotations :
  range_ok rng -> NoDup (GetUnknownNginxAnnotations rng annotations).
Proof.
  intros Hok. rewrite GetUnknownNginxAnnotations_omap.
  pose proof (range_ok_NoDup rng annotations Hok) as Hnd.
  induction (rng string annotations) as [| kv l IH]; [constructor |].
  cbn [fmap list_fmap] in Hnd. apply NoDup_cons in Hnd as [Hnotin Hnd].
  cbn [omap list_omap]. destruct (unknown_of_key kv.1) as [k |] eqn:Hk; [| by apply IH].
  apply unknown_of_key_Some in Hk as ->. constructor; [| by apply IH].
  intros Hin. apply Hnotin. apply list_elem_of_omap in Hin as (kv' & Hin & Hk').
  apply unknown_of_key_Some in Hk'. rewrite Hk'.
  apply list_elem_of_fmap. by exists kv'.
Qed.

Lemma once_loop {B} (F : B -> B) key (l : list string) :
  NoDup l -> forall o : B,
  foldl (fun o unknown => if String.eqb unknown key then F o else o) o l
  = if decide (key ∈ l) then F o else o.
Proof.
  induction 1 as [| u l Hnotin Hnd IH]; intros o; cbn [foldl].
  - rewrite decide_False; [done | apply not_elem_of_nil].
  - rewrite IH. destruct (String.eqb u key) eqn:Heq.
    + apply String.eqb_eq in Heq as ->.
      rewrite decide_False by done. rewrite decide_True; [done | by left].
    + apply String.eqb_neq in Heq. destruct (decide (key ∈ l)) as [Hin | Hin].
      * rewrite decide_True; [done | by right].
      * rewrite decide_False; [done |]. rewrite elem_of_cons. intros [-> | ?]; done.
Qed.

Lemma apply_unknown_resource rng key r o :
  range_ok rng ->
  apply_unknown key (analyzeIngress rng r) o = touch key id r (value_for_unknown key r) o.
Proof.
  intros Hok. unfold apply_unknown, annotations_of, namespace_of.
  cbn [analyzeIngress An_Resource An_UnknownAnnotations].
  rewrite (once_loop
    (fun o => Some (updateUsage (usage_or_new key o)
                      (default "" (Res_Annotations r !! key)) (Res_Namespace r))))
    by by apply GetUnknownNginxAnnotations_NoDup.
  unfold touch, value_for_unknown. rewrite unknown_of_key_spec.
  destruct (decide (key ∈ _)) as [Hin | Hin].
  - apply GetUnknownNginxAnnotations_elem in Hin as ([v Hv] & -> & ->); [| done].
    by rewrite Hv.
  - rewrite GetUnknownNginxAnnotations_elem in Hin by done.
    destruct (strings_HasPrefix key nginx_prefix); [| done].
    destruct (GetRuleByPattern key); [done |].
    destruct (Res_Annotations r !! key) as [v |] eqn:Hv; [| done].
    exfalso. apply Hin. eauto.
Qed.

Lemma unknown_entry_resources rng key rs :
  range_ok rng ->
  unknown_entry key (analyzeIngress rng <$> rs)
  = foldl (fun o r => touch key id r (value_for_unknown key r) o) None rs.
Proof.
  intros Hok. unfold unknown_entry. rewrite foldl_fmap. apply foldl_ext_in.
  intros o r _. by apply apply_unknown_resource.
Qed.

Lemma map_agrees_size m1 m2 : map_agrees m1 m2 -> map_len m1 = map_len m2.
Proof.
  intros Hag. unfold map_len. f_equal.
  rewrite <- !(size_dom (D := gset string)). f_equal. apply set_eq. intros key.
  rewrite !elem_of_dom. destruct (Hag key); split; intros [? ?]; done || eauto.
Qed.

(** *** The most used annotation *)

Lemma most_used_scan (l : list (string * AnnotationUsage)) :
  let res := foldl most_used_step (0, "") l in
  (forall kv, kv ∈ l -> UsageCount kv.2 <= res.1) /\
  ((res.1 = 0 /\ res.2 = "") \/
   (0 < res.1 /\ exists kv, kv ∈ l /\ kv.1 = res.2 /\ UsageCount kv.2 = res.1)).
Proof.
  induction l as [| kv l IH] using rev_ind; cbn zeta.
  - split; [intros kv H; by apply elem_of_nil in H | by left].
  - rewrite foldl_snoc. cbn zeta in IH. destruct IH as [Hmax Hkey].
    set (res := foldl most_used_step (0, "") l) in *.
    unfold most_used_step. destruct (UsageCount kv.2 >? res.1) eqn:Hcmp; cbn [fst snd].
    + split.
      * intros kv' Hin. apply elem_of_app in Hin as [Hin | Hin].
        -- specialize (Hmax kv' Hin). lia.
        -- apply list_elem_of_singleton in Hin as ->. lia.
      * right. split; [destruct Hkey as [[? _] | [? _]]; lia |].
        exists kv. rewrite elem_of_app, list_elem_of_singleton. auto.
    + split.
      * intros kv' Hin. apply elem_of_app in Hin as [Hin | Hin].
        -- by apply Hmax.
        -- apply list_elem_of_singleton in Hin as ->. lia.
      * destruct Hkey as [? | (Hpos & kv' & Hin & ? & ?)]; [by left |].
        right. split; [done |]. exists kv'. rewrite elem_of_app. auto.
Qed.

Lemma Build_most_used_ok rng analyses :
  range_ok rng -> most_used_ok (BuildAnnotationInventory rng analyses).
Proof.
  intros Hok. unfold most_used_ok, BuildAnnotationInventory.
  cbn [Summary AllAnnotations generateInventorySummary MostUsedAnnotation].
  set (m := AllAnnotations (folded_inventory rng analyses)).
  destruct (most_used_scan (rng _ m)) as [Hmax Hkey]. cbn zeta in Hmax, Hkey.
  set (res := foldl most_used_step (0, "") (rng _ m)) in *.
  assert (Hall : forall k u, m !! k = Some u -> UsageCount u <= res.1).
  { intros k u Hk. apply (Hmax (k, u)). by apply (range_ok_elem rng). }
  destruct Hkey as [[Hz He] | (Hpos & [k u] & Hin & Hk & Hu)].
  - left. split; [done |]. intros k u Hk. rewrite <- Hz. by apply (Hall k).
  - right. cbn [fst snd] in Hk, Hu. subst k. exists u.
    apply (range_ok_elem rng) in Hin; [| done].
    split; [done |]. split; [lia |]. intros k' u' Hk'. rewrite Hu. by apply (Hall k').
Qed.

(** C8, amended. Two builds from the same resources, listed and iterated in
    any order, agree on the keys of each map and, per key, on the usage
    count, the value histogram and the rule information, and list the same
    namespaces and the same values, possibly in another order; the summaries
    agree on the three counts, and each names as most used a key of largest
    usage count, not always the same key. *)
Theorem rebuild_agrees_up_to_order (rng1 rng2 : range_oracle)
    (resources1 resources2 : list IngressResource) :
  range_ok rng1 -> range_ok rng2 -> resources1 ≡ₚ resources2 ->
  inventory_agrees
    (BuildAnnotationInventory rng1 (analyzeIngress rng1 <$> resources1))
    (BuildAnnotationInventory rng2 (analyzeIngress rng2 <$> resources2)).
Proof.
  intros Hok1 Hok2 Hperm.
  assert (Hall : map_agrees
    (AllAnnotations (BuildAnnotationInventory rng1 (analyzeIngress rng1 <$> resources1)))
    (AllAnnotations (BuildAnnotationInventory rng2 (analyzeIngress rng2 <$> resources2)))).
  { intros key. rewrite !Build_all, !all_entry_resources by done.
    apply touch_loop_Permutation; [by left | done]. }
  assert (Hnginx : map_agrees
    (NginxAnnotations (BuildAnnotationInventory rng1 (analyzeIngress rng1 <$> resources1)))
    (NginxAnnotations (BuildAnnotationInventory rng2 (analyzeIngress rng2 <$> resources2)))).
  { intros key. rewrite !Build_nginx, !nginx_entry_resources by done.
    apply touch_loop_Permutation; [by right | done]. }
  assert (Hunknown : map_agrees
    (UnknownAnnotations (BuildAnnotationInventory rng1 (analyzeIngress rng1 <$> resources1)))
    (UnknownAnnotations (BuildAnnotationInventory rng2 (analyzeIngress rng2 <$> resources2)))).
  { intros key. rewrite !Build_unknown, !unknown_entry_resources by done.
    apply touch_loop_Permutation; [by left | done]. }
  unfold inventory_agrees. repeat split; try done;
    try (by apply Build_most_used_ok);
    unfold BuildAnnotationInventory in *;
    cbn [Summary generateInventorySummary TotalUniqueAnnotations NginxAnnotationsCount
         UnknownAnnotationsCount AllAnnotations NginxAnnotations UnknownAnnotations] in *;
    by apply map_agrees_size.
Qed.

(** C8 as stated fails: from one resource with two annotations used once
    each, the build that visits the map in one order names one key as most
    used and the build that visits it in the other order names the other. *)
Lemma rebuild_not_equal :
  ~ rebuild_equal range_canonical range_reversed
      [resource_two_unknown] [resource_two_unknown].
Proof.
  unfold rebuild_equal. intros H.
  apply (f_equal (fun inv => MostUsedAnnotation (Summary inv))) in H.
  vm_compute in H. discriminate H.
Qed.

(** ** The matcher *)

Lemma table_patterns_in_fragment :
  forallb (fun rule => bool_decide (is_Some (re_compile (Rule_Pattern rule))))
    GetAnnotationRules = true.
Proof. vm_compute. reflexivity. Qed.

(** A key equal to the pattern of a rule is matched, and by that rule. *)
Lemma table_patterns_match_themselves :
  forallb (fun rule =>
             match first_match GetAnnotationRules (Rule_Pattern rule) with
             | Some found => String.eqb (Rule_Name found) (Rule_Name rule)
             | None => false
             end)
    GetAnnotationRules = true.
Proof. vm_compute. reflexivity. Qed.

Lemma omap_length_le {A B} (f : A -> option B) (l : list A) :
  (length (omap f l) <= length l)%nat.
Proof.
  induction l as [| x l IH]; cbn [omap list_omap length]; [done |].
  destruct (f x); cbn [length]; lia.
Qed.

(** At most one rule is collected per key. *)
Lemma MatchAnnotations_length rng annotations :
  range_ok rng ->
  (length (MatchAnnotations rng annotations) <= size annotations)%nat.
Proof.
  intros Hok. rewrite MatchAnnotations_omap.
  etrans; [apply omap_length_le |]. by rewrite (Hok _ annotations), length_map_to_list.
Qed.

(** C2. At the key [nginx.ingress.kubernetes.io/server-snippets] no rule of
    the table has a pattern equal to the key, and the matcher still collects
    the rule of [server-snippet]: its patterns are searched for in the key,
    with every dot standing for any character. *)
Theorem MatchAnnotations_matches_beyond_equality :
  GetRuleByPattern key_server_snippets = None /\
  Rule_Pattern <$> MatchAnnotations range_canonical {[ key_server_snippets := "on" ]}
  = ["nginx.ingress.kubernetes.io/server-snippet"] /\
  GetUnknownNginxAnnotations range_canonical {[ key_server_snippets := "on" ]}
  = [key_server_snippets].
Proof. vm_compute. repeat split. Qed.

(** ** The theorems at concrete inputs *)

Lemma known_usage_matches_resources_witness :
  range_ok range_canonical /\
  Z.of_nat (length [analyzeIngress range_canonical resource_custom_unknown]) < 2 ^ 63 /\
  NginxAnnotations
    (BuildAnnotationInventory range_canonical
       [analyzeIngress range_canonical resource_custom_unknown])
    !! key_custom_unknown = Some usage_custom_known /\
  UsageCount usage_custom_known
  = Z.of_nat (uses key_custom_unknown
                [analyzeIngress range_canonical resource_custom_unknown]) /\
  NoDup (Namespaces usage_custom_known).
Proof.
  assert (Hlen : Z.of_nat (length [analyzeIngress range_canonical resource_custom_unknown])
                 < 2 ^ 63) by (vm_compute; reflexivity).
  assert (Hlook : NginxAnnotations
    (BuildAnnotationInventory range_canonical
       [analyzeIngress range_canonical resource_custom_unknown])
    !! key_custom_unknown = Some usage_custom_known) by (vm_compute; reflexivity).
  destruct (known_usage_matches_resources range_canonical _ _ _
              range_canonical_ok Hlen Hlook) as (Hcount & Hnd & _).
  split; [exact range_canonical_ok |]. split; [exact Hlen |].
  split; [exact Hlook |]. split; [exact Hcount | exact Hnd].
Defined.

Lemma unknown_keys_are_unruled_known_keys_witness :
  range_ok range_canonical /\
  (is_Some (UnknownAnnotations inventory_custom_unknown !! key_custom_unknown) <->
   is_Some (NginxAnnotations inventory_custom_unknown !! key_custom_unknown) /\
   GetRuleByPattern key_custom_unknown = None).
Proof.
  split; [exact range_canonical_ok |].
  exact (proj1 (unknown_keys_are_unruled_known_keys range_canonical range_canonical
                  [resource_custom_unknown] key_custom_unknown
                  range_canonical_ok range_canonical_ok)).
Defined.

Lemma ranking_top_by_usage_witness :
  range_ok range_canonical /\ sort_Slice_ok insertionSortLessFunc /\ 0 <= 1 /\
  exists ranked rest,
    (GetMostCriticalAnnotations range_canonical insertionSortLessFunc
       inventory_two_unknown 1).2 = Some ranked /\
    ranked ++ rest ≡ₚ candidates inventory_two_unknown /\
    by_usage_desc (ranked ++ rest) /\
    length ranked = Nat.min (Z.to_nat 1) (length (candidates inventory_two_unknown)).
Proof.
  assert (Hlimit : 0 <= 1) by lia.
  split; [exact range_canonical_ok |]. split; [exact insertionSortLessFunc_ok |].
  split; [exact Hlimit |].
  exact (ranking_top_by_usage range_canonical insertionSortLessFunc
           inventory_two_unknown 1 range_canonical_ok insertionSortLessFunc_ok Hlimit).
Defined.

Lemma summary_counts_add_up_witness :
  Z.of_nat (length [resource_custom_unknown; resource_two_unknown]) < 2 ^ 63 /\
  let analyses :=
    analyzeIngress range_canonical <$> [resource_custom_unknown; resource_two_unknown] in
  let summary := generateSummary analyses in
  Sum_AutoCount summary + Sum_ManualCount summary + Sum_HighRiskCount summary
    = Z.of_nat (length analyses) /\
  Sum_TotalIngresses summary = Z.of_nat (length analyses) /\
  forall ns nsSummary,
    Sum_ByNamespace summary !! ns = Some nsSummary ->
    NS_AutoCount nsSummary + NS_ManualCount nsSummary + NS_HighRiskCount nsSummary
      = Z.of_nat (length (filter (in_namespace ns) analyses)).
Proof.
  assert (Hlen : Z.of_nat (length [resource_custom_unknown; resource_two_unknown])
                 < 2 ^ 63) by (vm_compute; reflexivity).
  split; [exact Hlen |].
  exact (summary_counts_add_up range_canonical
           [resource_custom_unknown; resource_two_unknown] Hlen).
Defined.

Lemma rebuild_agrees_up_to_order_witness :
  range_ok range_canonical /\ range_ok range_reversed /\
  [resource_custom_unknown; resource_two_unknown]
    ≡ₚ [resource_two_unknown; resource_custom_unknown] /\
  inventory_agrees
    (BuildAnnotationInventory range_canonical
       (analyzeIngress range_canonical <$> [resource_custom_unknown; resource_two_unknown]))
    (BuildAnnotationInventory range_reversed
       (analyzeIngress range_reversed <$> [resource_two_unknown; resource_custom_unknown])).
Proof.
  assert (Hperm : [resource_custom_unknown; resource_two_unknown]
                    ≡ₚ [resource_two_unknown; resource_custom_unknown])
    by apply Permutation_swap.
  split; [exact range_canonical_ok |]. split; [exact range_reversed_ok |].
  split; [exact Hperm |].
  exact (rebuild_agrees_up_to_order range_canonical range_reversed _ _
           range_canonical_ok range_reversed_ok Hperm).
Defined.

Lemma ranking_marks_unknown_records_only_witness :
  range_ok range_canonical /\
  let after :=
    (GetMostCriticalAnnotations range_canonical insertionSortLessFunc
       inventory_custom_unknown 5).1 in
  AllAnnotations after = AllAnnotations inventory_custom_unknown /\
  NginxAnnotations after = NginxAnnotations inventory_custom_unknown /\
  Summary after = Summary inventory_custom_unknown /\
  forall key,
    UnknownAnnotations after !! key
    = set_Risk RiskUnknown <$> UnknownAnnotations inventory_custom_unknown !! key.
Proof.
  split; [exact range_canonical_ok |].
  exact (ranking_marks_unknown_records_only range_canonical insertionSortLessFunc
           inventory_custom_unknown 5 range_canonical_ok).
Defined.

Lemma unknown_map_carries_no_rule_info_witness :
  range_ok range_canonical /\
  UnknownAnnotations
    (BuildAnnotationInventory range_canonical
       [analyzeIngress range_canonical resource_custom_unknown])
    !! key_custom_unknown = Some usage_custom_unknown /\
  no_rule_info usage_custom_unknown /\
  ~ flagged_unknown usage_custom_unknown.
Proof.
  assert (Hlook : UnknownAnnotations
    (BuildAnnotationInventory range_canonical
       [analyzeIngress range_canonical resource_custom_unknown])
    !! key_custom_unknown = Some usage_custom_unknown) by (vm_compute; reflexivity).
  destruct (unknown_map_carries_no_rule_info range_canonical _ _ _
              range_canonical_ok Hlook) as (Hinfo & Hflag & _).
  split; [exact range_canonical_ok |]. split; [exact Hlook |].
  split; [exact Hinfo | exact Hflag].
Defined.

(** ** Double precision: rounding, division, multiplication by 100 *)

Lemma iter_pos_nat {A} (f : A -> A) p x :
  SpecFloat.iter_pos f p x = Nat.iter (Pos.to_nat p) f x.
Proof.
  revert x. induction p as [p IH | p IH |]; intros x; cbn [SpecFloat.iter_pos].
  - rewrite !IH.
    replace (Pos.to_nat p~1) with (Pos.to_nat p + (Pos.to_nat p + 1))%nat by lia.
    rewrite !Nat.iter_add. reflexivity.
  - rewrite !IH.
    replace (Pos.to_nat p~0) with (Pos.to_nat p + Pos.to_nat p)%nat by lia.
    rewrite !Nat.iter_add. reflexivity.
  - reflexivity.
Qed.

Lemma shr_1_spec m r s :
  0 <= m ->
  shr_1 (Build_shr_record m r s) = Build_shr_record (m / 2) (Z.odd m) (r || s).
Proof.
  intros Hm. destruct m as [| p | p]; [reflexivity | | lia].
  destruct p as [p | p |]; cbn [shr_1].
  - f_equal. apply Z.div_unique with (r := 1); lia.
  - f_equal. apply Z.div_unique with (r := 0); lia.
  - reflexivity.
Qed.

Ltac by_testbit_true H := apply Z.testbit_true in H; [exact H | lia].

Ltac by_testbit_false H := apply Z.testbit_false in H; [exact H | lia].

Lemma shr_iter_spec (n : nat) m r s :
  0 <= m ->
  Nat.iter (S n) shr_1 (Build_shr_record m r s)
  = Build_shr_record (m / 2 ^ Z.of_nat (S n))
      (Z.testbit m (Z.of_nat n))
      (r || s || negb (m mod 2 ^ Z.of_nat n =? 0)).
Proof.
  intros Hm. induction n as [| n IH].
  - cbn [Nat.iter]. rewrite shr_1_spec by lia. cbn [Z.of_nat].
    rewrite Z.bit0_odd. change (2 ^ Z.pos 1) with 2. change (2 ^ 0) with 1.
    rewrite Z.mod_1_r. cbn. rewrite orb_false_r. reflexivity.
  - rewrite Nat.iter_succ, IH.
    rewrite shr_1_spec by (apply Z.div_pos; lia).
    f_equal.
    + rewrite Z.div_div by lia. f_equal.
      rewrite (Nat2Z.inj_succ (S n)), Z.pow_succ_r by lia. lia.
    + rewrite <- Z.bit0_odd. rewrite Z.div_pow2_bits by lia.
      f_equal; lia.
    + assert (K : negb (m mod 2 ^ Z.of_nat (S n) =? 0)
                  = Z.testbit m (Z.of_nat n) || negb (m mod 2 ^ Z.of_nat n =? 0)).
      { rewrite (Nat2Z.inj_succ n).
        set (k := Z.of_nat n). assert (0 <= k) by lia.
        assert (Hp : 0 < 2 ^ k) by (apply Z.pow_pos_nonneg; lia).
        rewrite Z.pow_succ_r by lia.
        pose proof (Z.div_mod m (2 ^ k) ltac:(lia)) as Hdm.
        pose proof (Z.mod_pos_bound m (2 ^ k) Hp) as Hb.
        pose proof (Z.div_mod (m / 2 ^ k) 2 ltac:(lia)) as Hdm2.
        pose proof (Z.mod_pos_bound (m / 2 ^ k) 2 ltac:(lia)) as Hb2.
        assert (Hmod : m mod (2 * 2 ^ k) = (m / 2 ^ k) mod 2 * 2 ^ k + m mod 2 ^ k).
        { symmetry. apply Z.mod_unique with (q := m / 2 ^ k / 2); [nia | nia]. }
        rewrite Hmod. clear Hmod Hdm Hdm2.
        assert (Hbit : (m / 2 ^ k) mod 2 = if Z.testbit m k then 1 else 0).
        { destruct (Z.testbit m k) eqn:H1.
          - by_testbit_true H1.
          - by_testbit_false H1. }
        destruct (Z.eqb_spec (m mod 2 ^ k) 0) as [H0 | H0];
          destruct (Z.testbit m k); rewrite Hbit; cbn [orb negb].
        - apply negb_true_iff, Z.eqb_neq. lia.
        - apply negb_false_iff, Z.eqb_eq. lia.
        - apply negb_true_iff, Z.eqb_neq. lia.
        - apply negb_true_iff, Z.eqb_neq. lia. }
      rewrite K. destruct (Z.testbit m (Z.of_nat n)), r, s, (m mod 2 ^ Z.of_nat n =? 0);
        reflexivity.
Qed.

Lemma digits2_pos_bounds p :
  2 ^ (Z.pos (digits2_pos p) - 1) <= Z.pos p < 2 ^ Z.pos (digits2_pos p).
Proof.
  induction p as [p IH | p IH |]; cbn [digits2_pos].
  - rewrite Pos2Z.inj_succ. replace (Z.succ (Z.pos (digits2_pos p)) - 1)
      with (Z.succ (Z.pos (digits2_pos p) - 1)) by lia.
    rewrite !Z.pow_succ_r by lia. lia.
  - rewrite Pos2Z.inj_succ. replace (Z.succ (Z.pos (digits2_pos p)) - 1)
      with (Z.succ (Z.pos (digits2_pos p) - 1)) by lia.
    rewrite !Z.pow_succ_r by lia. lia.
  - cbn. lia.
Qed.

Lemma Zdigits2_unique M d :
  0 < d -> 2 ^ (d - 1) <= M < 2 ^ d -> Zdigits2 M = d.
Proof.
  intros Hd [Hlo Hhi].
  assert (0 < M) by (pose proof (Z.pow_pos_nonneg 2 (d - 1)); lia).
  destruct M as [| p | p]; try lia. cbn [Zdigits2].
  pose proof (digits2_pos_bounds p) as [Hlo' Hhi'].
  set (d' := Z.pos (digits2_pos p)) in *.
  assert (0 < d') by (unfold d'; lia).
  destruct (Z.lt_trichotomy d' d) as [Hlt | [Heq | Hgt]]; [| exact Heq |].
  - assert (2 ^ d' <= 2 ^ (d - 1)) by (apply Z.pow_le_mono_r; lia). lia.
  - assert (2 ^ d <= 2 ^ (d' - 1)) by (apply Z.pow_le_mono_r; lia). lia.
Qed.

Lemma shr_record_of_loc_eq m l :
  shr_record_of_loc m l = Build_shr_record m (loc_r l) (loc_s l).
Proof. destruct l as [| []]; reflexivity. Qed.

Lemma shr_spec M E l n :
  0 <= M -> 0 <= n ->
  shr (shr_record_of_loc M l) E n = (shifted M n l, E + n).
Proof.
  intros HM Hn. unfold shr, shifted. rewrite shr_record_of_loc_eq.
  destruct n as [| p | p]; [| | lia].
  - cbn. f_equal. lia.
  - rewrite iter_pos_nat.
    destruct (Pos.to_nat p) as [| k] eqn:Hk; [lia |].
    rewrite shr_iter_spec by lia.
    replace (Z.of_nat (S k)) with (Z.pos p) by lia.
    replace (Z.of_nat k) with (Z.pos p - 1) by lia.
    reflexivity.
Qed.

Lemma fexp_normal e : -1074 <= e - 53 -> fexp prec emax e = e - 53.
Proof. intros H. unfold fexp, SpecFloat.emin, prec, emax. lia. Qed.

Lemma shr_fexp_spec M E l d :
  0 < d -> 2 ^ (d - 1) <= M < 2 ^ d -> 53 <= d -> -1074 <= d + E - 53 ->
  shr_fexp prec emax M E l = (shifted M (d - 53) l, E + (d - 53)).
Proof.
  intros Hd HM Hd53 He. unfold shr_fexp.
  rewrite (Zdigits2_unique M d Hd HM), fexp_normal by lia.
  assert (0 < M) by (pose proof (Z.pow_pos_nonneg 2 (d - 1)); lia).
  replace (d + E - 53 - E) with (d - 53) by lia.
  apply shr_spec; lia.
Qed.

Lemma round_nearest_even_spec rec :
  round_nearest_even (shr_m rec) (loc_of_shr_record rec)
  = shr_m rec + (if shr_r rec && (shr_s rec || Z.odd (shr_m rec)) then 1 else 0).
Proof.
  destruct rec as [m [] []]; cbn [shr_m shr_r shr_s loc_of_shr_record round_nearest_even andb orb];
    try lia.
  rewrite <- Z.negb_even. destruct (Z.even m); cbn; lia.
Qed.

Lemma shifted_m M n l : 0 <= n -> shr_m (shifted M n l) = M / 2 ^ n.
Proof.
  intros Hn. unfold shifted. destruct (Z.eqb_spec n 0) as [-> | Hne]; cbn [shr_m].
  - change (2 ^ 0) with 1. now rewrite Z.div_1_r.
  - reflexivity.
Qed.

Lemma div_pow2_bounds M d :
  53 <= d -> 2 ^ (d - 1) <= M < 2 ^ d -> 2 ^ 52 <= M / 2 ^ (d - 53) < 2 ^ 53.
Proof.
  intros Hd [Hlo Hhi].
  assert (Hp : 0 < 2 ^ (d - 53)) by (apply Z.pow_pos_nonneg; lia).
  assert (H1 : 2 ^ (d - 1) = 2 ^ 52 * 2 ^ (d - 53)).
  { rewrite <- Z.pow_add_r by lia. f_equal. lia. }
  assert (H2 : 2 ^ d = 2 ^ 53 * 2 ^ (d - 53)).
  { rewrite <- Z.pow_add_r by lia. f_equal. lia. }
  split.
  - apply Z.div_le_lower_bound; lia.
  - apply Z.div_lt_upper_bound; lia.
Qed.

Theorem round_aux_spec M E l d :
  2 ^ (d - 1) <= M < 2 ^ d -> 53 <= d -> -1074 <= d + E - 53 -> d + E <= 1023 ->
  binary_round_aux prec emax false M E l =
    if rounded M d l =? 2 ^ 53 then S754_finite false (Z.to_pos (2 ^ 52)) (E + (d - 53) + 1)
    else S754_finite false (Z.to_pos (rounded M d l)) (E + (d - 53)).
Proof.
  intros HM Hd He Hov. unfold binary_round_aux.
  rewrite (shr_fexp_spec M E l d) by lia.
  rewrite round_nearest_even_spec.
  fold (round_up (d - 53) M l). rewrite shifted_m by lia. fold (rounded M d l).
  pose proof (div_pow2_bounds M d Hd HM) as HM1.
  assert (HM2 : 2 ^ 52 <= rounded M d l <= 2 ^ 53).
  { unfold rounded. destruct (round_up _ _ _); lia. }
  destruct (Z.eqb_spec (rounded M d l) (2 ^ 53)) as [Heq | Hne].
  - rewrite Heq. rewrite (shr_fexp_spec (2 ^ 53) _ loc_Exact 54) by lia.
    unfold shifted. change (54 - 53 =? 0) with false. cbn [shr_m].
    change (2 ^ 53 / 2 ^ (54 - 53)) with (2 ^ 52).
    change (2 ^ 52) with (Z.pos (Z.to_pos (2 ^ 52))) at 1. cbv iota beta.
    unfold emax, prec.
    replace (E + (d - 53) + (54 - 53)) with (E + (d - 53) + 1) by lia.
    destruct (Z.leb_spec (E + (d - 53) + 1) (1024 - 53)); [reflexivity | lia].
  - rewrite (shr_fexp_spec (rounded M d l) _ loc_Exact 53) by (change (53 - 1) with 52; lia).
    unfold shifted. change (53 - 53 =? 0) with true. cbn [shr_m].
    destruct (rounded M d l) as [| p | p] eqn:Hr; try lia.
    unfold emax, prec. replace (E + (d - 53) + (53 - 53)) with (E + (d - 53)) by lia.
    destruct (Z.leb_spec (E + (d - 53)) (1024 - 53)); [| lia].
    now rewrite Pos2Z.id.
Qed.

Lemma rounded_bounds M d l :
  M / 2 ^ (d - 53) <= rounded M d l <= M / 2 ^ (d - 53) + 1.
Proof. unfold rounded. destruct (round_up _ _ _); lia. Qed.

Lemma rounded_exact M l :
  rounded M 53 l = M + (if loc_r l && (loc_s l || Z.odd M) then 1 else 0).
Proof.
  unfold rounded, round_up, shifted. change (53 - 53) with 0.
  cbn [Z.eqb shr_m shr_r shr_s]. change (2 ^ 0) with 1. now rewrite Z.div_1_r.
Qed.

Lemma testbit_mod M n :
  0 <= M -> 0 < n ->
  M mod 2 ^ n = (if Z.testbit M (n - 1) then 2 ^ (n - 1) else 0) + M mod 2 ^ (n - 1).
Proof.
  intros HM Hn.
  assert (Hp : 0 < 2 ^ (n - 1)) by (apply Z.pow_pos_nonneg; lia).
  assert (Hpow : 2 ^ n = 2 * 2 ^ (n - 1)).
  { rewrite <- Z.pow_succ_r by lia. f_equal. lia. }
  pose proof (Z.div_mod M (2 ^ (n - 1)) ltac:(lia)) as Hdm.
  pose proof (Z.mod_pos_bound M (2 ^ (n - 1)) Hp) as Hb.
  pose proof (Z.div_mod (M / 2 ^ (n - 1)) 2 ltac:(lia)) as Hdm2.
  pose proof (Z.mod_pos_bound (M / 2 ^ (n - 1)) 2 ltac:(lia)) as Hb2.
  assert (Hbit : (M / 2 ^ (n - 1)) mod 2 = if Z.testbit M (n - 1) then 1 else 0).
  { destruct (Z.testbit M (n - 1)) eqn:H1.
    - by_testbit_true H1.
    - by_testbit_false H1. }
  rewrite Hpow. symmetry.
  apply Z.mod_unique with (q := M / 2 ^ (n - 1) / 2).
  - left. destruct (Z.testbit M (n - 1)); lia.
  - destruct (Z.testbit M (n - 1)); nia.
Qed.

Lemma round_up_half M d l :
  0 <= M -> 53 < d ->
  (round_up (d - 53) M l = true -> 2 ^ (d - 53) <= 2 * (M mod 2 ^ (d - 53))) /\
  (round_up (d - 53) M l = false -> 2 * (M mod 2 ^ (d - 53)) <= 2 ^ (d - 53)) /\
  (round_up (d - 53) M l = false -> 2 * (M mod 2 ^ (d - 53)) = 2 ^ (d - 53) ->
     l = loc_Exact).
Proof.
  intros HM Hd. set (n := d - 53). assert (Hn : 0 < n) by lia.
  pose proof (testbit_mod M n HM Hn) as Hmod.
  assert (Hp : 0 < 2 ^ (n - 1)) by (apply Z.pow_pos_nonneg; lia).
  assert (Hpow : 2 ^ n = 2 * 2 ^ (n - 1)).
  { rewrite <- Z.pow_succ_r by lia. f_equal. lia. }
  pose proof (Z.mod_pos_bound M (2 ^ (n - 1)) Hp) as Hb.
  unfold round_up, shifted. destruct (Z.eqb_spec n 0) as [? | _]; [lia |].
  cbn [shr_m shr_r shr_s].
  destruct (Z.testbit M (n - 1)); cbn [andb].
  - destruct (Z.eqb_spec (M mod 2 ^ (n - 1)) 0) as [H0 | H0]; cbn [negb].
    + repeat split; intros; try lia.
      destruct l as [| []]; cbn in *; try discriminate; reflexivity.
    + rewrite orb_true_r. cbn [orb]. repeat split; intros; try lia; discriminate.
  - repeat split; intros; try lia; discriminate.
Qed.

Lemma pos_iter_xO m d : Z.pos (Pos.iter xO m d) = Z.pos m * 2 ^ Z.pos d.
Proof.
  induction d as [| d IH] using Pos.peano_ind.
  - cbn. lia.
  - rewrite Pos.iter_succ, Pos2Z.inj_xO, IH, Pos2Z.inj_succ, Z.pow_succ_r by lia. lia.
Qed.

Lemma normal_valid m e :
  2 ^ 52 <= m < 2 ^ 53 -> -1074 <= e <= 971 -> valid_binary (pos_float m e) = true.
Proof.
  intros Hm He. unfold pos_float, SpecFloat.valid_binary, bounded, canonical_mantissa.
  assert (Hd : Z.pos (digits2_pos (Z.to_pos m)) = 53).
  { change (Z.pos (digits2_pos (Z.to_pos m))) with (Zdigits2 (Z.pos (Z.to_pos m))).
    rewrite Z2Pos.id by lia. apply Zdigits2_unique; [lia |]. change (53 - 1) with 52. lia. }
  rewrite Hd, fexp_normal by lia. unfold emax, prec.
  apply andb_true_intro. split; [apply Z.eqb_eq | apply Z.leb_le]; lia.
Qed.

Lemma normalize_spec h dh :
  1 <= dh <= 53 -> 2 ^ (dh - 1) <= h < 2 ^ dh ->
  binary_normalize prec emax h 0 false = pos_float (h * 2 ^ (53 - dh)) (dh - 53).
Proof.
  intros Hdh Hh.
  assert (Hpos : 0 < h) by (pose proof (Z.pow_pos_nonneg 2 (dh - 1)); lia).
  destruct h as [| p | p]; try lia.
  unfold binary_normalize, binary_round.
  change (Z.pos (digits2_pos p)) with (Zdigits2 (Z.pos p)).
  rewrite (Zdigits2_unique (Z.pos p) dh) by lia.
  rewrite fexp_normal by lia. unfold shl_align.
  assert (Hm : 2 ^ (53 - 1) <= Z.pos p * 2 ^ (53 - dh) < 2 ^ 53).
  { assert (Hp : 0 < 2 ^ (53 - dh)) by (apply Z.pow_pos_nonneg; lia).
    assert (H1 : 2 ^ (53 - 1) = 2 ^ (dh - 1) * 2 ^ (53 - dh)).
    { rewrite <- Z.pow_add_r by lia. f_equal. lia. }
    assert (H2 : 2 ^ 53 = 2 ^ dh * 2 ^ (53 - dh)).
    { rewrite <- Z.pow_add_r by lia. f_equal. lia. }
    nia. }
  destruct (dh + 0 - 53 - 0) as [| q | q] eqn:Hs; try lia.
  - assert (dh = 53) by lia. subst dh. change (53 - 53) with 0 in *.
    change (2 ^ 0) with 1 in *. rewrite Z.mul_1_r in *.
    rewrite (round_aux_spec _ _ _ 53) by lia.
    rewrite rounded_exact. cbn [loc_r andb]. rewrite Z.add_0_r.
    destruct (Z.eqb_spec (Z.pos p) (2 ^ 53)); [lia |].
    unfold pos_float. f_equal; lia.
  - assert (Hq : Z.pos q = 53 - dh) by lia.
    rewrite (round_aux_spec _ _ _ 53); rewrite ?pos_iter_xO, ?Hq; try lia.
    rewrite rounded_exact. cbn [loc_r andb]. rewrite Z.add_0_r.
    destruct (Z.eqb_spec (Z.pos p * 2 ^ (53 - dh)) (2 ^ 53)); [lia |].
    unfold pos_float. f_equal; lia.
Qed.

Lemma digits_exist h : 0 < h < 2 ^ 53 -> exists dh, 1 <= dh <= 53 /\ 2 ^ (dh - 1) <= h < 2 ^ dh.
Proof.
  intros Hh. exists (Z.log2 h + 1).
  pose proof (Z.log2_spec h ltac:(lia)) as Hl.
  pose proof (Z.log2_nonneg h).
  replace (Z.log2 h + 1 - 1) with (Z.log2 h) by lia.
  replace (Z.log2 h + 1) with (Z.succ (Z.log2 h)) by lia.
  split; [| lia].
  assert (Z.log2 h < 53) by (apply Z.log2_lt_pow2; lia). lia.
Qed.

Lemma of_int_spec h dh :
  1 <= dh <= 53 -> 2 ^ (dh - 1) <= h < 2 ^ dh ->
  Prim2SF (float64_of_int h) = pos_float (h * 2 ^ (53 - dh)) (dh - 53) /\
  2 ^ 52 <= h * 2 ^ (53 - dh) < 2 ^ 53.
Proof.
  intros Hdh Hh. unfold float64_of_int. rewrite (normalize_spec h dh) by lia.
  assert (Hm : 2 ^ 52 <= h * 2 ^ (53 - dh) < 2 ^ 53).
  { assert (Hp : 0 < 2 ^ (53 - dh)) by (apply Z.pow_pos_nonneg; lia).
    assert (H1 : 2 ^ 52 = 2 ^ (dh - 1) * 2 ^ (53 - dh)).
    { rewrite <- Z.pow_add_r by lia. f_equal. lia. }
    assert (H2 : 2 ^ 53 = 2 ^ dh * 2 ^ (53 - dh)).
    { rewrite <- Z.pow_add_r by lia. f_equal. lia. }
    nia. }
  split; [| exact Hm]. apply Prim2SF_SF2Prim. apply normal_valid; lia.
Qed.

Lemma SFltb_pos_float mc ec mp ep :
  0 < mc -> 0 < mp ->
  SFltb (pos_float mc ec) (pos_float mp ep) = (ec <? ep) || ((ec =? ep) && (mc <? mp)).
Proof.
  intros Hc Hp. unfold SFltb, SFcompare, pos_float.
  destruct (Z.compare_spec ec ep) as [Heq | Hlt | Hgt].
  - subst. rewrite Z.ltb_irrefl, Z.eqb_refl. cbn [orb andb].
    rewrite Pos.compare_cont_spec. cbn [Pos.switch_Eq].
    rewrite <- (Z2Pos.id mc) at 2 by lia. rewrite <- (Z2Pos.id mp) at 2 by lia.
    unfold Z.ltb. cbn [Z.compare]. destruct (Pos.compare _ _); reflexivity.
  - destruct (Z.ltb_spec ec ep); [reflexivity | lia].
  - destruct (Z.ltb_spec ec ep); [lia |]. destruct (Z.eqb_spec ec ep); [lia | reflexivity].
Qed.

Lemma const_100 : Prim2SF 100 = pos_float (100 * 2 ^ 46) (-46).
Proof. vm_compute. reflexivity. Qed.

Lemma const_50 : Prim2SF 50 = pos_float (50 * 2 ^ 47) (-47).
Proof. vm_compute. reflexivity. Qed.

Lemma const_20 : Prim2SF 20 = pos_float (20 * 2 ^ 48) (-48).
Proof. vm_compute. reflexivity. Qed.

Lemma mul_100_spec mq eq :
  2 ^ 52 <= mq < 2 ^ 53 -> -1000 <= eq <= 900 ->
  let M := mq * (100 * 2 ^ 46) in
  let d := if 25 * mq <? 2 ^ 57 then 105 else 106 in
  SF64mul (pos_float mq eq) (pos_float (100 * 2 ^ 46) (-46)) =
    if rounded M d loc_Exact =? 2 ^ 53
    then pos_float (2 ^ 52) (eq - 46 + (d - 53) + 1)
    else pos_float (rounded M d loc_Exact) (eq - 46 + (d - 53)).
Proof.
  intros Hm He M d. unfold SF64mul, SFmul, pos_float. cbn [xorb].
  rewrite Pos2Z.inj_mul, !Z2Pos.id by lia. fold M.
  replace (eq + -46) with (eq - 46) by lia.
  apply round_aux_spec.
  - unfold M, d. destruct (Z.ltb_spec (25 * mq) (2 ^ 57)); lia.
  - unfold d. destruct (25 * mq <? 2 ^ 57); lia.
  - unfold d. destruct (25 * mq <? 2 ^ 57); lia.
  - unfold d. destruct (25 * mq <? 2 ^ 57); lia.
Qed.

Ltac dlia := Z.to_euclidean_division_equations; lia.

Lemma rounded_facts M d l :
  0 <= M -> 53 < d ->
  let R := rounded M d l in
  M / 2 ^ (d - 53) <= R <= M / 2 ^ (d - 53) + 1 /\
  (R = M / 2 ^ (d - 53) + 1 -> 2 ^ (d - 53) <= 2 * (M mod 2 ^ (d - 53))).
Proof.
  intros HM Hd R. split; [apply rounded_bounds |].
  intros HR. destruct (round_up_half M d l HM Hd) as (Hup & _ & _).
  apply Hup. unfold R, rounded in HR. destruct (round_up (d - 53) M l); [reflexivity | lia].
Qed.

Lemma mul_100_thresholds mq eq :
  2 ^ 52 <= mq < 2 ^ 53 -> -1000 <= eq <= 900 ->
  let p := SF64mul (pos_float mq eq) (pos_float (100 * 2 ^ 46) (-46)) in
  SFltb (pos_float (50 * 2 ^ 47) (-47)) p = SFltb (pos_float (2 ^ 52) (-53)) (pos_float mq eq) /\
  SFltb (pos_float (20 * 2 ^ 48) (-48)) p = SFltb (pos_float Mc (-55)) (pos_float mq eq).
Proof.
  intros Hm He p. unfold p. rewrite mul_100_spec by lia. cbv zeta.
  set (M := mq * (100 * 2 ^ 46)).
  rewrite !(SFltb_pos_float _ _ mq) by (unfold Mc; lia).
  destruct (Z.ltb_spec (25 * mq) (2 ^ 57)) as [Hd | Hd].
  - destruct (rounded_facts M 105 loc_Exact ltac:(unfold M; lia) ltac:(lia)) as [HR Hup].
    cbv zeta in HR, Hup. set (R := rounded M 105 loc_Exact) in *.
    change (105 - 53) with 52 in *.
    assert (HM1 : M / 2 ^ 52 = (25 * mq) / 16).
    { unfold M. replace (mq * (100 * 2 ^ 46)) with ((25 * mq) * 2 ^ 48) by lia.
      replace (2 ^ 52) with (2 ^ 48 * 16) by lia.
      rewrite Z.mul_comm, Z.div_mul_cancel_l by lia. reflexivity. }
    assert (HM2 : M mod 2 ^ 52 = 2 ^ 48 * ((25 * mq) mod 16)).
    { unfold M. replace (mq * (100 * 2 ^ 46)) with (2 ^ 48 * (25 * mq)) by lia.
      replace (2 ^ 52) with (2 ^ 48 * 16) by lia.
      rewrite Z.mul_mod_distr_l by lia. reflexivity. }
    rewrite HM1, HM2 in *. clearbody R. clear HM1 HM2. clearbody M.
    destruct (Z.eqb_spec R (2 ^ 53)) as [HR53 | HR53];
      rewrite !SFltb_pos_float by (unfold Mc; dlia); unfold Mc; split;
      repeat match goal with
             | |- context [Z.ltb ?a ?b] => destruct (Z.ltb_spec a b)
             | |- context [Z.eqb ?a ?b] => destruct (Z.eqb_spec a b)
             end; cbn [orb andb]; try reflexivity; exfalso; dlia.
  - destruct (rounded_facts M 106 loc_Exact ltac:(unfold M; lia) ltac:(lia)) as [HR Hup].
    cbv zeta in HR, Hup. set (R := rounded M 106 loc_Exact) in *.
    change (106 - 53) with 53 in *.
    assert (HM1 : M / 2 ^ 53 = (25 * mq) / 32).
    { unfold M. replace (mq * (100 * 2 ^ 46)) with ((25 * mq) * 2 ^ 48) by lia.
      replace (2 ^ 53) with (2 ^ 48 * 32) by lia.
      rewrite Z.mul_comm, Z.div_mul_cancel_l by lia. reflexivity. }
    assert (HM2 : M mod 2 ^ 53 = 2 ^ 48 * ((25 * mq) mod 32)).
    { unfold M. replace (mq * (100 * 2 ^ 46)) with (2 ^ 48 * (25 * mq)) by lia.
      replace (2 ^ 53) with (2 ^ 48 * 32) by lia.
      rewrite Z.mul_mod_distr_l by lia. reflexivity. }
    rewrite HM1, HM2 in *. clearbody R. clear HM1 HM2. clearbody M.
    destruct (Z.eqb_spec R (2 ^ 53)) as [HR53 | HR53];
      rewrite !SFltb_pos_float by (unfold Mc; dlia); unfold Mc; split;
      repeat match goal with
             | |- context [Z.ltb ?a ?b] => destruct (Z.ltb_spec a b)
             | |- context [Z.eqb ?a ?b] => destruct (Z.eqb_spec a b)
             end; cbn [orb andb]; try reflexivity; exfalso; dlia.
Qed.

Lemma new_location_spec mt r :
  0 < mt -> 0 <= r < mt ->
  loc_r (new_location mt r) = negb (r =? 0) && (mt <=? 2 * r) /\
  loc_s (new_location mt r) = negb (r =? 0) && negb (2 * r =? mt).
Proof.
  intros Hmt Hr. unfold new_location, new_location_even, new_location_odd.
  destruct (Z.even mt) eqn:Hev; destruct (Z.eqb_spec r 0) as [H0 | H0]; cbn [negb andb];
    try (split; reflexivity).
  - destruct (Z.compare_spec (2 * r) mt); cbn [loc_r loc_s];
      destruct (Z.leb_spec mt (2 * r)); destruct (Z.eqb_spec (2 * r) mt);
      try lia; split; reflexivity.
  - assert (Hodd : Z.odd mt = true) by (rewrite <- Z.negb_even, Hev; reflexivity).
    apply Z.odd_spec in Hodd as [k Hk].
    destruct (Z.compare_spec (2 * r + 1) mt); cbn [loc_r loc_s];
      destruct (Z.leb_spec mt (2 * r)); destruct (Z.eqb_spec (2 * r) mt);
      try lia; split; reflexivity.
Qed.

Lemma div_eucl_eq a b : Z.div_eucl a b = (a / b, a mod b).
Proof. unfold Z.div, Z.modulo. destruct (Z.div_eucl a b); reflexivity. Qed.

Lemma div_core_spec mh eh mt et :
  2 ^ 52 <= mh < 2 ^ 53 -> 2 ^ 52 <= mt < 2 ^ 53 -> -500 <= eh - et <= 500 ->
  SFdiv_core_binary prec emax mh eh mt et
  = (mh * 2 ^ 53 / mt, eh - et - 53, new_location mt ((mh * 2 ^ 53) mod mt)).
Proof.
  intros Hh Ht He. unfold SFdiv_core_binary.
  rewrite (Zdigits2_unique mh 53), (Zdigits2_unique mt 53) by (change (53 - 1) with 52; lia).
  rewrite fexp_normal by lia.
  replace (Z.min (53 + eh - (53 + et) - 53) (eh - et)) with (eh - et - 53) by lia.
  replace (eh - et - (eh - et - 53)) with 53 by lia.
  rewrite Z.shiftl_mul_pow2 by lia. rewrite div_eucl_eq. reflexivity.
Qed.

Lemma quotient_digits mh mt :
  2 ^ 52 <= mh < 2 ^ 53 -> 2 ^ 52 <= mt < 2 ^ 53 ->
  let qq := mh * 2 ^ 53 / mt in
  let d := if mh <? mt then 53 else 54 in
  2 ^ (d - 1) <= qq < 2 ^ d.
Proof.
  intros Hh Ht qq d. unfold qq, d.
  destruct (Z.ltb_spec mh mt) as [Hlt | Hge].
  - change (53 - 1) with 52. split.
    + apply Z.div_le_lower_bound; nia.
    + apply Z.div_lt_upper_bound; nia.
  - change (54 - 1) with 53. split.
    + apply Z.div_le_lower_bound; nia.
    + apply Z.div_lt_upper_bound; nia.
Qed.

Lemma div_spec_normal mh eh mt et :
  2 ^ 52 <= mh < 2 ^ 53 -> 2 ^ 52 <= mt < 2 ^ 53 -> -500 <= eh - et <= 500 ->
  let qq := mh * 2 ^ 53 / mt in
  let l := new_location mt ((mh * 2 ^ 53) mod mt) in
  let d := if mh <? mt then 53 else 54 in
  SF64div (pos_float mh eh) (pos_float mt et) =
    if rounded qq d l =? 2 ^ 53
    then pos_float (2 ^ 52) (eh - et - 53 + (d - 53) + 1)
    else pos_float (rounded qq d l) (eh - et - 53 + (d - 53)).
Proof.
  intros Hh Ht He qq l d. unfold SF64div, SFdiv, pos_float. cbn [xorb].
  rewrite !Z2Pos.id by lia. rewrite div_core_spec by lia. fold qq l.
  pose proof (quotient_digits mh mt Hh Ht) as Hq. cbv zeta in Hq. fold qq d in Hq.
  apply round_aux_spec; try exact Hq; unfold d; destruct (mh <? mt); lia.
Qed.

Lemma rounded_54 M l :
  rounded M 54 l = M / 2 + (if Z.odd M && (loc_r l || loc_s l || Z.odd (M / 2)) then 1 else 0).
Proof.
  unfold rounded, round_up, shifted. change (54 - 53) with 1.
  cbn [Z.eqb shr_m shr_r shr_s]. change (1 - 1) with 0. change (2 ^ 0) with 1.
  change (2 ^ 1) with 2. rewrite Z.mod_1_r, Z.bit0_odd. cbn [Z.eqb negb].
  rewrite orb_false_r. reflexivity.
Qed.

Lemma rounded_53_bounds M l : M <= rounded M 53 l <= M + 1.
Proof. rewrite rounded_exact. destruct (loc_r l && _); lia. Qed.

Lemma rounded_54_bounds M l : M / 2 <= rounded M 54 l <= M / 2 + 1.
Proof. rewrite rounded_54. destruct (Z.odd M && _); lia. Qed.

Lemma quot_normal a b k :
  2 ^ 52 <= a < 2 ^ 53 -> 2 ^ 52 <= b < 2 ^ 53 -> 0 <= k <= 100 ->
  exists mq eq, quot a b k = pos_float mq eq /\ 2 ^ 52 <= mq < 2 ^ 53 /\ -1000 <= eq <= 900.
Proof.
  intros Ha Hb Hk. unfold quot.
  pose proof (quotient_digits a b Ha Hb) as Hq. cbv zeta in Hq.
  set (qq := a * 2 ^ 53 / b) in *.
  set (l := new_location b ((a * 2 ^ 53) mod b)).
  set (d := if a <? b then 53 else 54) in *.
  assert (Hd : 53 <= d <= 54) by (unfold d; destruct (a <? b); lia).
  pose proof (div_pow2_bounds qq d ltac:(lia) Hq) as HM1.
  pose proof (rounded_bounds qq d l) as HR.
  destruct (Z.eqb_spec (rounded qq d l) (2 ^ 53)).
  - eexists _, _. split; [reflexivity |]. lia.
  - eexists _, _. split; [reflexivity |]. lia.
Qed.

Lemma quot_gt_half a b k :
  2 ^ 52 <= a < 2 ^ 53 -> 2 ^ 52 <= b < 2 ^ 53 -> 0 <= k <= 100 ->
  (k = 0 -> a <= b) ->
  SFltb (pos_float (2 ^ 52) (-53)) (quot a b k) = (k =? 0) || ((k =? 1) && (b <? a)).
Proof.
  intros Ha Hb Hk Hk0. unfold quot.
  pose proof (quotient_digits a b Ha Hb) as Hq. cbv zeta in Hq.
  pose proof (Z.div_mod (a * 2 ^ 53) b ltac:(lia)) as Hdm.
  pose proof (Z.mod_pos_bound (a * 2 ^ 53) b ltac:(lia)) as Hrb.
  destruct (new_location_spec b ((a * 2 ^ 53) mod b) ltac:(lia) Hrb) as [Hlr Hls].
  set (qq := a * 2 ^ 53 / b) in *. set (r := (a * 2 ^ 53) mod b) in *.
  set (l := new_location b r) in *.
  destruct (Z.ltb_spec a b) as [Hab | Hab].
  - (* 53 digits *)
    change (53 - 1) with 52 in Hq.
    pose proof (rounded_exact qq l) as HR. set (R := rounded qq 53 l) in *.
    pose proof (rounded_53_bounds qq l) as HRb. fold R in HRb.
    assert (Hk0' : k = 0 -> 2 ^ 52 < R).
    { intros ->. destruct (Z.eq_dec qq (2 ^ 52)) as [Hqq | Hqq]; [| lia].
      assert (Hr : r = 2 ^ 52 * (2 * a - b)) by nia.
      assert (Hr0 : (r =? 0) = false) by (apply Z.eqb_neq; nia).
      assert (Hr1 : (b <=? 2 * r) = true) by (apply Z.leb_le; nia).
      assert (Hr2 : (2 * r =? b) = false) by (apply Z.eqb_neq; nia).
      rewrite Hlr, Hls, Hr0, Hr1, Hr2 in HR. cbn in HR. lia. }
    clearbody R qq r l.
    destruct (Z.eqb_spec R (2 ^ 53)); rewrite SFltb_pos_float by lia;
      repeat match goal with
             | |- context [Z.ltb ?a ?b] => destruct (Z.ltb_spec a b)
             | |- context [Z.eqb ?a ?b] => destruct (Z.eqb_spec a b)
             end; cbn [orb andb]; try reflexivity; exfalso; lia.
  - (* 54 digits *)
    change (54 - 1) with 53 in Hq.
    pose proof (rounded_54 qq l) as HR. set (R := rounded qq 54 l) in *.
    pose proof (rounded_54_bounds qq l) as HRb. fold R in HRb.
    assert (Hk1 : k = 1 -> (2 ^ 52 < R <-> b < a)).
    { intros ->. split.
      - intros HRgt. destruct (Z.eq_dec a b) as [Heq | Hne]; [| lia]. exfalso.
        assert (Hqq : qq = 2 ^ 53).
        { unfold qq. subst a. rewrite Z.mul_comm. apply Z.div_mul. lia. }
        rewrite Hqq in HR. change (Z.odd (2 ^ 53)) with false in HR. cbn [andb] in HR.
        change (2 ^ 53 / 2) with (2 ^ 52) in HR. lia.
      - intros Hlt.
        assert (Hqq1 : 2 ^ 53 + 1 <= qq) by (apply Z.div_le_lower_bound; nia).
        destruct (Z.eq_dec qq (2 ^ 53 + 1)) as [Hqq | Hqq].
        + assert (Hr0 : (r =? 0) = false) by (apply Z.eqb_neq; nia).
          rewrite Hqq in HR. change (Z.odd (2 ^ 53 + 1)) with true in HR.
          rewrite Hlr, Hls, Hr0 in HR. cbn [negb andb] in HR.
          change ((2 ^ 53 + 1) / 2) with (2 ^ 52) in HR.
          destruct (Z.leb_spec b (2 * r)); destruct (Z.eqb_spec (2 * r) b);
            cbn in HR; lia.
        + assert (2 ^ 52 + 1 <= qq / 2) by (apply Z.div_le_lower_bound; lia). lia. }
    clearbody R qq r l.
    destruct (Z.eqb_spec R (2 ^ 53)); rewrite SFltb_pos_float by dlia;
      repeat match goal with
             | |- context [Z.ltb ?a ?b] => destruct (Z.ltb_spec a b)
             | |- context [Z.eqb ?a ?b] => destruct (Z.eqb_spec a b)
             end; cbn [orb andb]; try reflexivity; exfalso; dlia.
Qed.

Ltac bool_cases :=
  repeat match goal with
         | |- context [Z.ltb ?a ?b] => destruct (Z.ltb_spec a b)
         | |- context [Z.eqb ?a ?b] => destruct (Z.eqb_spec a b)
         end; cbn [orb andb]; try reflexivity; exfalso.

Lemma quot_gt_c a b k :
  2 ^ 52 <= a < 2 ^ 53 -> 2 ^ 52 <= b < 2 ^ 53 -> 0 <= k <= 100 ->
  (k = 2 -> 4 * b < 5 * a -> 2 ^ 55 * b + 7 * b <= 5 * (a * 2 ^ 53)) ->
  (k = 3 -> 8 * b < 5 * a -> 2 ^ 56 * b + 14 * b <= 5 * (a * 2 ^ 53)) ->
  SFltb (pos_float Mc (-55)) (quot a b k)
  = (k <? 2) || ((k =? 2) && (4 * b <? 5 * a)) || ((k =? 3) && (8 * b <? 5 * a)).
Proof.
  intros Ha Hb Hk Hg2 Hg3. unfold quot.
  pose proof (quotient_digits a b Ha Hb) as Hq. cbv zeta in Hq.
  set (N := a * 2 ^ 53) in *.
  set (qq := N / b) in *. set (l := new_location b (N mod b)).
  destruct (Z.ltb_spec a b) as [Hab | Hab].
  - change (53 - 1) with 52 in Hq.
    pose proof (rounded_53_bounds qq l) as HRb. set (R := rounded qq 53 l) in *.
    assert (Hcarry : R = 2 ^ 53 -> k = 2 -> 4 * b < 5 * a).
    { intros HR _. assert (Hqq : 2 ^ 53 - 1 <= qq) by lia.
      assert (b * (2 ^ 53 - 1) <= N).
      { etransitivity; [apply Z.mul_le_mono_nonneg_l; [lia | exact Hqq] |].
        unfold qq. apply Z.mul_div_le. lia. }
      unfold N in *. lia. }
    assert (Hup : k = 2 -> 4 * b < 5 * a -> Mc < R).
    { intros Hk2 Hlt. specialize (Hg2 Hk2 Hlt).
      assert (Mc + 1 <= qq); [| lia].
      apply Z.div_le_lower_bound; [lia |]. unfold Mc. lia. }
    assert (Hdown : k = 2 -> 5 * a <= 4 * b -> R <= Mc).
    { intros Hk2 Hle. assert (qq < Mc); [| lia].
      apply Z.div_lt_upper_bound; [lia |]. unfold Mc, N. lia. }
    clearbody R qq l N.
    destruct (Z.eqb_spec R (2 ^ 53)); rewrite SFltb_pos_float by (unfold Mc; lia);
      unfold Mc in *; bool_cases; lia.
  - change (54 - 1) with 53 in Hq.
    pose proof (rounded_54_bounds qq l) as HRb. set (R := rounded qq 54 l) in *.
    assert (Hcarry : R = 2 ^ 53 -> k = 3 -> 8 * b < 5 * a).
    { intros HR _. assert (Hqq : 2 ^ 54 - 2 <= qq) by dlia.
      assert (b * (2 ^ 54 - 2) <= N).
      { etransitivity; [apply Z.mul_le_mono_nonneg_l; [lia | exact Hqq] |].
        unfold qq. apply Z.mul_div_le. lia. }
      unfold N in *. lia. }
    assert (Hup : k = 3 -> 8 * b < 5 * a -> Mc < R).
    { intros Hk3 Hlt. specialize (Hg3 Hk3 Hlt).
      assert (2 * Mc + 2 <= qq); [| unfold Mc in *; dlia].
      apply Z.div_le_lower_bound; [lia |]. unfold Mc. lia. }
    assert (Hdown : k = 3 -> 5 * a <= 8 * b -> R <= Mc).
    { intros Hk3 Hle. assert (qq < 2 * Mc); [| unfold Mc in *; dlia].
      apply Z.div_lt_upper_bound; [lia |]. unfold Mc, N. lia. }
    clearbody R qq l N.
    destruct (Z.eqb_spec R (2 ^ 53)); rewrite SFltb_pos_float by (unfold Mc; dlia);
      unfold Mc in *; bool_cases; dlia.
Qed.

Lemma const_zero : Prim2SF zero = S754_zero false.
Proof. vm_compute. reflexivity. Qed.

Lemma float64_of_int_0 : float64_of_int 0 = zero.
Proof. vm_compute. reflexivity. Qed.

Lemma percent_spec_pos h t :
  0 < h <= t -> t <= 2 ^ 52 ->
  exists a b k,
    2 ^ 52 <= a < 2 ^ 53 /\ 2 ^ 52 <= b < 2 ^ 53 /\ 0 <= k <= 100 /\
    Prim2SF (float64_of_int h / float64_of_int t)%float = quot a b k /\
    (k = 0 -> a <= b) /\
    (t <? 2 * h) = (k =? 0) || ((k =? 1) && (b <? a)) /\
    (t <? 5 * h) = (k <? 2) || ((k =? 2) && (4 * b <? 5 * a)) || ((k =? 3) && (8 * b <? 5 * a)) /\
    (k = 2 -> 4 * b < 5 * a -> 2 ^ 55 * b + 7 * b <= 5 * (a * 2 ^ 53)) /\
    (k = 3 -> 8 * b < 5 * a -> 2 ^ 56 * b + 14 * b <= 5 * (a * 2 ^ 53)).
Proof.
  intros Hh Ht.
  destruct (digits_exist h ltac:(lia)) as (dh & Hdh & Hhd).
  destruct (digits_exist t ltac:(lia)) as (dt & Hdt & Htd).
  destruct (of_int_spec h dh Hdh Hhd) as [Hfh Ha].
  destruct (of_int_spec t dt Hdt Htd) as [Hft Hb].
  assert (Hle : dh <= dt).
  { destruct (Z.le_gt_cases dh dt) as [? | Hgt]; [assumption |].
    assert (2 ^ dt <= 2 ^ (dh - 1)) by (apply Z.pow_le_mono_r; lia). lia. }
  set (k := dt - dh). set (g := 2 ^ (53 - dt)).
  assert (Hg : 0 < g) by (apply Z.pow_pos_nonneg; lia).
  assert (HG : 2 ^ (53 - dh) = 2 ^ k * g).
  { unfold g, k. rewrite <- Z.pow_add_r by lia. f_equal. lia. }
  assert (HGpos : 0 < 2 ^ k) by (apply Z.pow_pos_nonneg; lia).
  assert (Hdtk : 2 ^ dt = 2 ^ k * 2 ^ dh).
  { unfold k. rewrite <- Z.pow_add_r by lia. f_equal. lia. }
  assert (Hdh1 : 2 ^ dh = 2 * 2 ^ (dh - 1)).
  { rewrite <- Z.pow_succ_r by lia. f_equal. lia. }
  assert (Hdt1 : 2 ^ dt = 2 * 2 ^ (dt - 1)).
  { rewrite <- Z.pow_succ_r by lia. f_equal. lia. }
  fold g in Hb, Hft. rewrite HG in Ha, Hfh.
  set (a := h * (2 ^ k * g)) in *. set (b := t * g) in *.
  exists a, b, k.
  split; [exact Ha |]. split; [exact Hb |]. split; [unfold k; lia |].
  split.
  { rewrite FloatAxioms.div_spec, Hfh, Hft. rewrite div_spec_normal by lia. unfold quot.
    replace (dh - 53 - (dt - 53)) with (- k) by (unfold k; lia). reflexivity. }
  assert (Hk : k = 0 \/ k = 1 \/ k = 2 \/ k = 3 \/ 4 <= k) by (unfold k; lia).
  assert (H16 : 4 <= k -> 16 <= 2 ^ k).
  { intros H4. change 16 with (2 ^ 4). apply Z.pow_le_mono_r; lia. }
  assert (H7 : 7 * b <= 2 ^ 55 * g) by (unfold b; nia).
  assert (H14 : 14 * b <= 2 ^ 56 * g) by (unfold b; nia).
  clearbody k g.
  destruct Hk as [-> | [-> | [-> | [-> | Hk4]]]].
  - change (2 ^ 0) with 1 in *. cbn [Z.eqb Z.ltb Z.compare orb andb].
    split; [intros _; unfold a, b; nia |].
    split; [destruct (Z.ltb_spec t (2 * h)); [reflexivity | nia] |].
    split; [destruct (Z.ltb_spec t (5 * h)); [reflexivity | nia] |].
    split; intros; lia.
  - change (2 ^ 1) with 2 in *. cbn [Z.eqb Z.ltb Z.compare orb andb Pos.compare Pos.eqb].
    split; [intros; lia |].
    split; [destruct (Z.ltb_spec t (2 * h)); destruct (Z.ltb_spec b a); try reflexivity;
            unfold a, b in *; nia |].
    split; [destruct (Z.ltb_spec t (5 * h)); [reflexivity | nia] |].
    split; intros; lia.
  - change (2 ^ 2) with 4 in *. cbn [Z.eqb Z.ltb Z.compare orb andb Pos.compare Pos.eqb].
    split; [intros; lia |].
    split; [destruct (Z.ltb_spec t (2 * h)); [nia | reflexivity] |].
    split; [destruct (Z.ltb_spec t (5 * h)); destruct (Z.ltb_spec (4 * b) (5 * a));
            try reflexivity; unfold a, b in *; nia |].
    split; [| intros; lia].
    intros _ Hlt. assert (t < 5 * h) by (unfold a, b in *; nia).
    assert (4 * b + 4 * g <= 5 * a) by (unfold a, b; nia). nia.
  - change (2 ^ 3) with 8 in *. cbn [Z.eqb Z.ltb Z.compare orb andb Pos.compare Pos.eqb].
    split; [intros; lia |].
    split; [destruct (Z.ltb_spec t (2 * h)); [nia | reflexivity] |].
    split; [destruct (Z.ltb_spec t (5 * h)); destruct (Z.ltb_spec (8 * b) (5 * a));
            try reflexivity; unfold a, b in *; nia |].
    split; [intros; lia |].
    intros _ Hlt. assert (t < 5 * h) by (unfold a, b in *; nia).
    assert (8 * b + 8 * g <= 5 * a) by (unfold a, b; nia). nia.
  - specialize (H16 Hk4).
    assert (8 * h < t) by nia.
    destruct (Z.eqb_spec k 0); [lia |]. destruct (Z.eqb_spec k 1); [lia |].
    destruct (Z.eqb_spec k 2); [lia |]. destruct (Z.eqb_spec k 3); [lia |].
    destruct (Z.ltb_spec k 2); [lia |]. cbn [orb andb].
    split; [intros; lia |].
    split; [destruct (Z.ltb_spec t (2 * h)); [lia | reflexivity] |].
    split; [destruct (Z.ltb_spec t (5 * h)); [lia | reflexivity] |].
    split; intros; lia.
Qed.

Theorem percent_thresholds h t :
  0 <= h <= t -> 0 < t <= 2 ^ 52 ->
  (50 <? percent h t)%float = (t <? 2 * h) /\
  (20 <? percent h t)%float = (t <? 5 * h).
Proof.
  intros Hh Ht. unfold percent. rewrite !FloatAxioms.ltb_spec, FloatAxioms.mul_spec, const_100, const_50, const_20.
  destruct (Z.eq_dec h 0) as [-> | Hne].
  - rewrite FloatAxioms.div_spec, float64_of_int_0, const_zero.
    destruct (digits_exist t ltac:(lia)) as (dt & Hdt & Htd).
    destruct (of_int_spec t dt Hdt Htd) as [-> _].
    cbn. split; symmetry; apply Z.ltb_ge; lia.
  - destruct (percent_spec_pos h t ltac:(lia) ltac:(lia))
      as (a & b & k & Ha & Hb & Hk & -> & Hk0 & -> & -> & Hg2 & Hg3).
    destruct (quot_normal a b k Ha Hb Hk) as (mq & eq & Hq & Hmq & Heq).
    pose proof (quot_gt_half a b k Ha Hb Hk Hk0) as H50.
    pose proof (quot_gt_c a b k Ha Hb Hk Hg2 Hg3) as H20.
    rewrite Hq in *.
    destruct (mul_100_thresholds mq eq Hmq Heq) as [-> ->].
    split; assumption.
Qed.

(** ** The namespace scorer *)

Lemma sumZ_Permutation l1 l2 : l1 ≡ₚ l2 -> sumZ l1 = sumZ l2.
Proof.
  induction 1 as [| x l1 l2 _ IH | x y l | l1 l2 l3 _ IH1 _ IH2]; cbn [sumZ]; lia.
Qed.

Lemma add_risk_count_at counts ns' risk' n ns risk :
  count_at (add_risk_count counts ns' risk' n) ns risk =
    if decide (ns' = ns /\ risk' = risk) then int_add (count_at counts ns risk) n
    else count_at counts ns risk.
Proof.
  unfold count_at, add_risk_count, risk_count. cbv zeta.
  destruct (decide (ns' = ns)) as [-> | Hns].
  - rewrite lookup_insert_eq. cbn [default from_option]. unfold id.
    destruct (decide (risk' = risk)) as [-> | Hr].
    + rewrite decide_True by done. by rewrite lookup_insert_eq.
    + rewrite decide_False by (intros [_ ?]; done). by rewrite lookup_insert_ne.
  - rewrite decide_False by (intros [? _]; done). by rewrite lookup_insert_ne.
Qed.

Lemma occurrences_cons ns x names :
  occurrences ns (x :: names) =
    ((if decide (x = ns) then 1 else 0) + occurrences ns names)%nat.
Proof.
  unfold occurrences. rewrite filter_cons. by case_decide.
Qed.

Lemma names_loop_at (names : list string) r v ns risk : forall counts X,
  count_at counts ns risk = int_wrap X ->
  count_at (foldl (fun c namespace => add_risk_count c namespace r v) counts names) ns risk
  = int_wrap (X + if decide (r = risk) then Z.of_nat (occurrences ns names) * v else 0).
Proof.
  induction names as [| x names IH]; intros counts X HX; cbn [foldl].
  - rewrite HX. f_equal. case_decide; cbn; lia.
  - rewrite (IH _ (X + if decide (x = ns /\ r = risk) then v else 0)).
    + f_equal. rewrite occurrences_cons.
      destruct (decide (r = risk)) as [-> | Hr], (decide (x = ns)) as [-> | Hx].
      * rewrite decide_True by done. lia.
      * rewrite decide_False by (intros [? _]; done). lia.
      * rewrite decide_False by (intros [_ ?]; done). lia.
      * rewrite decide_False by (intros [_ ?]; done). lia.
    + rewrite add_risk_count_at.
      destruct (decide (x = ns /\ r = risk)).
      * by rewrite HX, int_add_wrap_l.
      * rewrite HX. f_equal. lia.
Qed.

Lemma count_usage_loop_at (l : list (string * AnnotationUsage)) ns risk : forall counts X,
  count_at counts ns risk = int_wrap X ->
  count_at (foldl count_usage counts l) ns risk
  = int_wrap (X + sumZ (usage_weight ns risk <$> l.*2)).
Proof.
  induction l as [| [k u] l IH]; intros counts X HX; cbn [foldl fmap list_fmap sumZ snd].
  - rewrite HX. f_equal. lia.
  - rewrite (IH _ (X + usage_weight ns risk u)).
    + f_equal. lia.
    + unfold count_usage. cbn [snd]. by apply names_loop_at.
Qed.

Lemma namespace_counts_at rng inv ns risk :
  range_ok rng ->
  count_at (namespace_counts rng inv) ns risk = int_wrap (risk_weight inv ns risk).
Proof.
  intros Hok. unfold namespace_counts.
  rewrite (count_usage_loop_at _ ns risk ∅ 0) by done.
  rewrite Z.add_0_l. f_equal. unfold risk_weight. apply sumZ_Permutation.
  by rewrite (Hok _ (NginxAnnotations inv)).
Qed.

Lemma classify_loop (l : list (string * gmap string int)) :
  NoDup l.*1 -> forall (m : gmap string string) ns,
  foldl classify_step m l !! ns =
    match (list_to_map l : gmap string (gmap string int)) !! ns with
    | Some riskCounts =>
        match classify riskCounts with
        | Some label => Some label
        | None => m !! ns
        end
    | None => m !! ns
    end.
Proof.
  induction l as [| [k rc] l IH]; intros Hnd m ns; [done |].
  apply NoDup_cons in Hnd as [Hnotin Hnd].
  cbn [foldl list_to_map foldr uncurry fst snd]. rewrite (IH Hnd).
  unfold classify_step. cbn [fst snd].
  destruct (decide (k = ns)) as [-> | Hne].
  - rewrite (not_elem_of_list_to_map_1 _ _ Hnotin), lookup_insert_eq.
    destruct (classify rc); [by rewrite lookup_insert_eq | done].
  - rewrite (lookup_insert_ne _ k ns) by done.
    destruct (classify rc); [by rewrite lookup_insert_ne | done].
Qed.

Lemma analyzeNamespaceComplexity_lookup rng inv ns :
  range_ok rng ->
  analyzeNamespaceComplexity rng inv !! ns
  = match namespace_counts rng inv !! ns with
    | Some riskCounts => classify riskCounts
    | None => None
    end.
Proof.
  intros Hok. unfold analyzeNamespaceComplexity.
  rewrite classify_loop by by apply range_ok_NoDup.
  rewrite range_ok_to_map by done. rewrite lookup_empty.
  destruct (namespace_counts rng inv !! ns) as [rc |]; [| done].
  by destruct (classify rc).
Qed.

(** *** Bounds of the accumulated counts *)

Lemma listed_usage_nonneg ns usage : 0 <= UsageCount usage -> 0 <= listed_usage ns usage.
Proof. unfold listed_usage. nia. Qed.

Lemma weights_bounds ns (l : list AnnotationUsage) :
  Forall (fun usage => 0 <= UsageCount usage) l ->
  0 <= sumZ (usage_weight ns RiskAuto <$> l) /\
  0 <= sumZ (usage_weight ns RiskManual <$> l) /\
  0 <= sumZ (usage_weight ns RiskHigh <$> l) /\
  sumZ (usage_weight ns RiskAuto <$> l) + sumZ (usage_weight ns RiskManual <$> l)
    + sumZ (usage_weight ns RiskHigh <$> l)
  <= sumZ (listed_usage ns <$> l).
Proof.
  induction 1 as [| u l Hu _ IH]; cbn [fmap list_fmap sumZ]; [lia |].
  pose proof (listed_usage_nonneg ns u Hu) as Hl.
  assert (0 <= usage_weight ns RiskAuto u /\ 0 <= usage_weight ns RiskManual u /\
          0 <= usage_weight ns RiskHigh u /\
          usage_weight ns RiskAuto u + usage_weight ns RiskManual u
            + usage_weight ns RiskHigh u <= listed_usage ns u) as Hw.
  { unfold usage_weight.
    repeat case_decide; unfold RiskAuto, RiskManual, RiskHigh in *; try congruence; lia. }
  lia.
Qed.

Lemma known_usage_Forall inv :
  (forall k u, NginxAnnotations inv !! k = Some u -> 0 <= UsageCount u) ->
  Forall (fun usage => 0 <= UsageCount usage) (map_to_list (NginxAnnotations inv)).*2.
Proof.
  intros Hnn. apply Forall_forall. intros u Hin.
  apply list_elem_of_fmap in Hin as ([k u'] & -> & Hin).
  apply elem_of_map_to_list in Hin. by apply (Hnn k).
Qed.

Lemma classify_label_of_share (riskCounts : gmap string int) a m h :
  risk_count riskCounts RiskAuto = a -> risk_count riskCounts RiskManual = m ->
  risk_count riskCounts RiskHigh = h ->
  0 <= a -> 0 <= m -> 0 <= h -> a + m + h <= 2 ^ 52 ->
  classify riskCounts = label_of_share h (a + m + h).
Proof.
  intros Ha Hm Hh Hna Hnm Hnh Hb. unfold classify, label_of_share, highRiskPercent, total_of.
  rewrite Ha, Hm, Hh. unfold int_add.
  rewrite (int_wrap_small (a + m)) by lia. rewrite (int_wrap_small (a + m + h)) by lia.
  destruct (Z.eqb_spec (a + m + h) 0) as [Hz | Hz]; [done |].
  destruct (percent_thresholds h (a + m + h) ltac:(lia) ltac:(lia)) as [-> ->].
  done.
Qed.

(** C6. With usage counts that are not negative and add up to at most 2^52
    for the namespace, the scorer omits a namespace whose total
    auto + manual + high is zero, labels it HIGH exactly when
    high / total > 1/2 (that is total < 2 * high), MEDIUM exactly when
    1/5 < high / total <= 1/2, and LOW otherwise. *)
Theorem namespace_complexity_by_share (rng : range_oracle) (inv : AnnotationInventory)
    (ns : string) :
  range_ok rng ->
  counts_nonneg inv ->
  namespace_weight inv ns <= 2 ^ 52 ->
  analyzeNamespaceComplexity rng inv !! ns =
    label_of_share (risk_weight inv ns RiskHigh)
      (risk_weight inv ns RiskAuto + risk_weight inv ns RiskManual
       + risk_weight inv ns RiskHigh).
Proof.
  intros Hok Hnn Hbound. rewrite analyzeNamespaceComplexity_lookup by done.
  destruct (weights_bounds ns _ (known_usage_Forall inv Hnn)) as (Ha & Hm & Hh & Hsum).
  fold (risk_weight inv ns RiskAuto) (risk_weight inv ns RiskManual)
       (risk_weight inv ns RiskHigh) (namespace_weight inv ns) in Ha, Hm, Hh, Hsum.
  pose proof (namespace_counts_at rng inv ns RiskAuto Hok) as Hca.
  pose proof (namespace_counts_at rng inv ns RiskManual Hok) as Hcm.
  pose proof (namespace_counts_at rng inv ns RiskHigh Hok) as Hch.
  rewrite int_wrap_small in Hca, Hcm, Hch by lia.
  unfold count_at in Hca, Hcm, Hch.
  destruct (namespace_counts rng inv !! ns) as [rc |];
    cbn [default from_option] in Hca, Hcm, Hch; unfold id in Hca, Hcm, Hch.
  - apply classify_label_of_share; [done | done | done | lia ..].
  - unfold risk_count in Hca, Hcm, Hch. rewrite lookup_empty in Hca, Hcm, Hch.
    cbn in Hca, Hcm, Hch. rewrite <- Hca, <- Hcm, <- Hch. done.
Qed.

Lemma namespace_complexity_by_share_witness :
  range_ok range_canonical /\
  counts_nonneg inventory_half_high /\
  namespace_weight inventory_half_high "prod" <= 2 ^ 52 /\
  analyzeNamespaceComplexity range_canonical inventory_half_high !! "prod"
  = label_of_share (risk_weight inventory_half_high "prod" RiskHigh)
      (risk_weight inventory_half_high "prod" RiskAuto
       + risk_weight inventory_half_high "prod" RiskManual
       + risk_weight inventory_half_high "prod" RiskHigh).
Proof.
  assert (Hnn : counts_nonneg inventory_half_high).
  { unfold counts_nonneg. apply (bool_decide_unpack _). vm_compute. exact I. }
  assert (Hbound : namespace_weight inventory_half_high "prod" <= 2 ^ 52).
  { vm_compute. discriminate. }
  split; [exact range_canonical_ok |]. split; [exact Hnn |]. split; [exact Hbound |].
  exact (namespace_complexity_by_share range_canonical inventory_half_high "prod"
           range_canonical_ok Hnn Hbound).
Defined.

(** *** The scorer at the thresholds *)

(** A high-risk share of exactly one half is labelled MEDIUM. *)
Example scorer_half_is_medium :
  risk_weight inventory_half_high "prod" RiskHigh = 1 /\
  namespace_weight inventory_half_high "prod" = 2 /\
  analyzeNamespaceComplexity range_canonical inventory_half_high !! "prod"
  = Some label_medium.
Proof. vm_compute. repeat split. Qed.

(** A high-risk share of exactly one fifth is labelled LOW. *)
Example scorer_fifth_is_low :
  risk_weight inventory_fifth_high "prod" RiskHigh = 1 /\
  namespace_weight inventory_fifth_high "prod" = 5 /\
  analyzeNamespaceComplexity range_canonical inventory_fifth_high !! "prod"
  = Some label_low.
Proof. vm_compute. repeat split. Qed.

(** A share of one third is labelled MEDIUM, a share of one HIGH. *)
Example scorer_third_is_medium :
  analyzeNamespaceComplexity range_canonical inventory_third_high !! "prod"
  = Some label_medium.
Proof. vm_compute. reflexivity. Qed.

Example scorer_all_is_high :
  analyzeNamespaceComplexity range_canonical inventory_all_high !! "prod"
  = Some label_high.
Proof. vm_compute. reflexivity. Qed.

(** A namespace that no known record lists is omitted. *)
Example scorer_omits_unlisted :
  analyzeNamespaceComplexity range_canonical inventory_half_high !! "staging" = None.
Proof. vm_compute. reflexivity. Qed.

(** * Further properties of the code *)

(** ** The rule table and its lookups *)

Lemma AnnotationRule_eqb_eq r1 r2 : AnnotationRule_eqb r1 r2 = true -> r1 = r2.
Proof.
  unfold AnnotationRule_eqb. rewrite !andb_true_iff, !String.eqb_eq.
  destruct r1, r2. cbn. intros [[[[[-> ->] ->] ->] ->] ->]. reflexivity.
Qed.

Lemma table_patterns_NoDup : NoDup (Rule_Pattern <$> GetAnnotationRules).
Proof. apply (bool_decide_unpack _). vm_compute. exact I. Qed.

Lemma GetRuleByPattern_in_own rules rule :
  NoDup (Rule_Pattern <$> rules) -> rule ∈ rules ->
  GetRuleByPattern_in rules (Rule_Pattern rule) = Some rule.
Proof.
  induction rules as [| r rules IH]; intros Hnd Hin; [by apply elem_of_nil in Hin |].
  cbn [fmap list_fmap] in Hnd. apply NoDup_cons in Hnd as [Hnotin Hnd].
  cbn [GetRuleByPattern_in]. apply elem_of_cons in Hin as [-> | Hin].
  - by rewrite String.eqb_refl.
  - destruct (String.eqb (Rule_Pattern r) (Rule_Pattern rule)) eqn:Heq; [| by apply IH].
    apply String.eqb_eq in Heq. exfalso. apply Hnotin. rewrite Heq.
    apply list_elem_of_fmap. by exists rule.
Qed.

(** X1. [GetRuleByPattern] finds a rule exactly when the key is the pattern of a
    rule of the table, and then returns that rule: no two rules of the table
    share a pattern, so every rule is found under its own pattern. *)
Theorem GetRuleByPattern_finds_own_rule (annotationKey : string) (rule : AnnotationRule) :
  GetRuleByPattern annotationKey = Some rule <->
  rule ∈ GetAnnotationRules /\ Rule_Pattern rule = annotationKey.
Proof.
  split.
  - apply GetRuleByPattern_in_Some.
  - intros [Hin <-]. apply GetRuleByPattern_in_own; [apply table_patterns_NoDup | done].
Qed.

(** X2. [GetUnknownNginxAnnotations] lists, each once, the keys of the map that
    start with the managed prefix and for which [GetRuleByPattern] finds no
    rule. *)
Theorem GetUnknownNginxAnnotations_exactly_unruled (rng : range_oracle)
    (annotations : gmap string string) :
  range_ok rng ->
  NoDup (GetUnknownNginxAnnotations rng annotations) /\
  forall key,
    key ∈ GetUnknownNginxAnnotations rng annotations <->
    is_Some (annotations !! key) /\
    strings_HasPrefix key nginx_prefix = true /\ GetRuleByPattern key = None.
Proof.
  intros Hok. split; [by apply GetUnknownNginxAnnotations_NoDup |].
  intros key. by apply GetUnknownNginxAnnotations_elem.
Qed.

Lemma GetUnknownNginxAnnotations_exactly_unruled_witness :
  range_ok range_canonical /\
  NoDup (GetUnknownNginxAnnotations range_canonical (Res_Annotations resource_mixed)) /\
  forall key,
    key ∈ GetUnknownNginxAnnotations range_canonical (Res_Annotations resource_mixed) <->
    is_Some (Res_Annotations resource_mixed !! key) /\
    strings_HasPrefix key nginx_prefix = true /\ GetRuleByPattern key = None.
Proof.
  split; [exact range_canonical_ok |].
  exact (GetUnknownNginxAnnotations_exactly_unruled range_canonical
           (Res_Annotations resource_mixed) range_canonical_ok).
Defined.

(** *** The matcher against the exact lookup *)

Lemma first_match_own_rule :
  forallb (fun rule =>
             match first_match GetAnnotationRules (Rule_Pattern rule) with
             | Some found => AnnotationRule_eqb found rule
             | None => false
             end)
    GetAnnotationRules = true.
Proof. vm_compute. reflexivity. Qed.

Lemma first_match_exact key rule :
  GetRuleByPattern key = Some rule -> first_match GetAnnotationRules key = Some rule.
Proof.
  intros Hr. apply GetRuleByPattern_in_Some in Hr as [Hin <-].
  pose proof first_match_own_rule as Hall. rewrite forallb_forall in Hall.
  specialize (Hall rule (proj1 (list_elem_of_In _ _) Hin)).
  destruct (first_match GetAnnotationRules (Rule_Pattern rule)) as [found |]; [| done].
  by apply AnnotationRule_eqb_eq in Hall as ->.
Qed.

Lemma first_match_in_table rules key rule :
  first_match rules key = Some rule -> rule ∈ rules.
Proof.
  induction rules as [| r rules IH]; [done |]. cbn [first_match].
  destruct (regexp_MatchString (Rule_Pattern r) key) as [[|] |].
  - intros [= <-]. by left.
  - intros H. right. by apply IH.
  - intros H. right. by apply IH.
Qed.

Lemma MatchAnnotations_elem rng annotations rule :
  range_ok rng ->
  rule ∈ MatchAnnotations rng annotations <->
  exists key, is_Some (annotations !! key) /\
              first_match GetAnnotationRules key = Some rule.
Proof.
  intros Hok. rewrite MatchAnnotations_omap, list_elem_of_omap. split.
  - intros ([k v] & Hin & Hm). apply (range_ok_elem rng) in Hin; [| done].
    exists k. split; [by exists v | done].
  - intros (k & [v Hv] & Hm). exists (k, v). split; [| done].
    by apply (range_ok_elem rng).
Qed.

(** X3. An annotation whose key is the pattern of a rule always has that rule
    among the matched rules: searching the key with the patterns finds at
    least what comparing for equality finds. *)
Theorem MatchAnnotations_collects_exact_rules (rng : range_oracle)
    (annotations : gmap string string) (key : string) (rule : AnnotationRule) :
  range_ok rng ->
  is_Some (annotations !! key) ->
  GetRuleByPattern key = Some rule ->
  rule ∈ MatchAnnotations rng annotations.
Proof.
  intros Hok Hkey Hrule. apply MatchAnnotations_elem; [done |].
  exists key. split; [done |]. by apply first_match_exact.
Qed.

Lemma MatchAnnotations_collects_exact_rules_witness :
  exists rule,
    range_ok range_canonical /\
    is_Some (Res_Annotations resource_server_snippet
               !! "nginx.ingress.kubernetes.io/server-snippet") /\
    GetRuleByPattern "nginx.ingress.kubernetes.io/server-snippet" = Some rule /\
    rule ∈ MatchAnnotations range_canonical (Res_Annotations resource_server_snippet).
Proof.
  destruct (GetRuleByPattern "nginx.ingress.kubernetes.io/server-snippet")
    as [rule |] eqn:Hrule; [| vm_compute in Hrule; discriminate Hrule].
  assert (Hkey : is_Some (Res_Annotations resource_server_snippet
                            !! "nginx.ingress.kubernetes.io/server-snippet"))
    by (vm_compute; eauto).
  exists rule. split; [exact range_canonical_ok |]. split; [exact Hkey |].
  split; [reflexivity |].
  exact (MatchAnnotations_collects_exact_rules range_canonical
           (Res_Annotations resource_server_snippet)
           "nginx.ingress.kubernetes.io/server-snippet" rule
           range_canonical_ok Hkey Hrule).
Defined.

(** X4. The matched rules are rules of the table, and there are at most as many
    as the resource has annotations: the inner loop stops at the first rule
    that matches a key. *)
Theorem MatchAnnotations_one_table_rule_per_key (rng : range_oracle)
    (annotations : gmap string string) :
  range_ok rng ->
  (length (MatchAnnotations rng annotations) <= size annotations)%nat /\
  forall rule, rule ∈ MatchAnnotations rng annotations -> rule ∈ GetAnnotationRules.
Proof.
  intros Hok. split; [by apply MatchAnnotations_length |].
  intros rule Hin. apply MatchAnnotations_elem in Hin as (key & _ & Hm); [| done].
  by apply first_match_in_table in Hm.
Qed.

Lemma MatchAnnotations_one_table_rule_per_key_witness :
  range_ok range_canonical /\
  (length (MatchAnnotations range_canonical (Res_Annotations resource_mixed))
   <= size (Res_Annotations resource_mixed))%nat /\
  forall rule,
    rule ∈ MatchAnnotations range_canonical (Res_Annotations resource_mixed) ->
    rule ∈ GetAnnotationRules.
Proof.
  split; [exact range_canonical_ok |].
  exact (MatchAnnotations_one_table_rule_per_key range_canonical
           (Res_Annotations resource_mixed) range_canonical_ok).
Defined.

(** *** The risk level grows with the annotations *)

Lemma has_level_MatchAnnotations_mono rng1 rng2 (a1 a2 : gmap string string) level :
  range_ok rng1 -> range_ok rng2 -> a1 ⊆ a2 ->
  has_level level (MatchAnnotations rng1 a1) -> has_level level (MatchAnnotations rng2 a2).
Proof.
  intros Hok1 Hok2 Hsub (rule & Hin & Hlevel). exists rule. split; [| done].
  apply MatchAnnotations_elem in Hin as (key & [v Hv] & Hm); [| done].
  apply MatchAnnotations_elem; [done |]. exists key. split; [| done].
  exists v. by eapply lookup_weaken.
Qed.

(** X5. Adding annotations to a resource never lowers its risk level, whatever
    the order in which the two maps are visited. *)
Theorem risk_level_monotone (rng1 rng2 : range_oracle)
    (annotations1 annotations2 : gmap string string) :
  range_ok rng1 -> range_ok rng2 ->
  annotations1 ⊆ annotations2 ->
  (level_rank (risk_of rng1 annotations1) <= level_rank (risk_of rng2 annotations2))%nat.
Proof.
  intros Hok1 Hok2 Hsub. unfold risk_of. rewrite !GetHighestRiskLevel_spec.
  pose proof (has_level_MatchAnnotations_mono rng1 rng2 _ _ RiskHigh Hok1 Hok2 Hsub) as Hh.
  pose proof (has_level_MatchAnnotations_mono rng1 rng2 _ _ RiskManual Hok1 Hok2 Hsub) as Hm.
  rewrite <- !has_levelb_spec in Hh, Hm.
  destruct (has_levelb RiskHigh (MatchAnnotations rng1 annotations1)).
  - by rewrite Hh.
  - destruct (has_levelb RiskManual (MatchAnnotations rng1 annotations1)).
    + rewrite Hm by done.
      destruct (has_levelb RiskHigh (MatchAnnotations rng2 annotations2)); cbn; lia.
    + destruct (has_levelb RiskHigh (MatchAnnotations rng2 annotations2)),
        (has_levelb RiskManual (MatchAnnotations rng2 annotations2)); cbn; lia.
Qed.

Lemma risk_level_monotone_witness :
  range_ok range_canonical /\ range_ok range_reversed /\
  Res_Annotations (resource_rewrite_target "web")
    ⊆ <["nginx.ingress.kubernetes.io/server-snippet" := "return 200;"]>
        (Res_Annotations (resource_rewrite_target "web")) /\
  (level_rank (risk_of range_canonical (Res_Annotations (resource_rewrite_target "web")))
   <= level_rank
        (risk_of range_reversed
           (<["nginx.ingress.kubernetes.io/server-snippet" := "return 200;"]>
              (Res_Annotations (resource_rewrite_target "web")))))%nat.
Proof.
  assert (Hsub : Res_Annotations (resource_rewrite_target "web")
    ⊆ <["nginx.ingress.kubernetes.io/server-snippet" := "return 200;"]>
        (Res_Annotations (resource_rewrite_target "web"))).
  { apply insert_subseteq. vm_compute. reflexivity. }
  split; [exact range_canonical_ok |]. split; [exact range_reversed_ok |].
  split; [exact Hsub |].
  exact (risk_level_monotone range_canonical range_reversed _ _
           range_canonical_ok range_reversed_ok Hsub).
Defined.

(** ** The three maps of the inventory *)

Lemma all_entry_snoc key l a :
  all_entry key (l ++ [a]) = apply_all key a (all_entry key l).
Proof. unfold all_entry. by rewrite foldl_snoc. Qed.

Lemma all_entry_system key l :
  isSystemAnnotation key = true -> all_entry key l = None.
Proof.
  intros Hs. induction l as [| a l IH] using rev_ind; [done |].
  rewrite all_entry_snoc, IH. unfold apply_all. rewrite Hs.
  by destruct (annotations_of a !! key).
Qed.

Lemma all_entry_tracks key l :
  isSystemAnnotation key = false ->
  usage_tracks key l (usage_or_new key (all_entry key l)) /\
  (is_Some (all_entry key l) <-> uses key l <> 0%nat).
Proof.
  intros Hs. induction l as [| a l [IHt IHs]] using rev_ind.
  - split; [apply usage_new_tracks |]. cbn. split; [by intros [? ?] | done].
  - rewrite all_entry_snoc, uses_snoc. unfold apply_all. rewrite Hs.
    destruct (decide (has_key key a)) as [Hk | Hk].
    + destruct Hk as [v Hv]; rewrite Hv. split.
      * cbn [usage_or_new default]. apply updateUsage_tracks; [done |]. by exists v.
      * split; [lia | eauto].
    + assert (annotations_of a !! key = None) as ->.
      { by apply eq_None_not_Some. }
      split; [by apply usage_tracks_skip |]. rewrite IHs. lia.
Qed.

(** X6. The map of all annotations holds a key exactly when the key is not
    filtered as a system annotation and some analysed resource carries it,
    and the usage count of its record is the number of these resources. *)
Theorem all_map_holds_unfiltered_keys (rng : range_oracle)
    (analyses : list IngressAnalysis) (key : string) :
  range_ok rng ->
  Z.of_nat (length analyses) < 2 ^ 63 ->
  let inv := BuildAnnotationInventory rng analyses in
  (is_Some (AllAnnotations inv !! key) <->
     isSystemAnnotation key = false /\
     exists analysis, analysis ∈ analyses /\ has_key key analysis) /\
  (forall usage, AllAnnotations inv !! key = Some usage ->
     UsageCount usage = Z.of_nat (uses key analyses)).
Proof.
  intros Hok Hlen inv. subst inv. rewrite Build_all by done.
  destruct (isSystemAnnotation key) eqn:Hs.
  - rewrite all_entry_system by done. split; [| done].
    split; [by intros [? ?] | by intros [? _]].
  - destruct (all_entry_tracks key analyses Hs) as [Ht Hsome]. split.
    + rewrite Hsome, uses_pos. tauto.
    + intros usage Hu. rewrite Hu in Ht. destruct Ht as (_ & Hcount & _).
      cbn in Hcount. rewrite Hcount. apply int_wrap_small.
      pose proof (uses_le key analyses). lia.
Qed.

Lemma all_map_holds_unfiltered_keys_witness :
  range_ok range_canonical /\
  Z.of_nat (length [analyzeIngress range_canonical resource_mixed]) < 2 ^ 63 /\
  let inv :=
    BuildAnnotationInventory range_canonical
      [analyzeIngress range_canonical resource_mixed] in
  (is_Some (AllAnnotations inv !! "kubernetes.io/ingress.class") <->
     isSystemAnnotation "kubernetes.io/ingress.class" = false /\
     exists analysis,
       analysis ∈ [analyzeIngress range_canonical resource_mixed] /\
       has_key "kubernetes.io/ingress.class" analysis) /\
  (forall usage,
     AllAnnotations inv !! "kubernetes.io/ingress.class" = Some usage ->
     UsageCount usage
     = Z.of_nat (uses "kubernetes.io/ingress.class"
                   [analyzeIngress range_canonical resource_mixed])).
Proof.
  assert (Hlen : Z.of_nat (length [analyzeIngress range_canonical resource_mixed])
                 < 2 ^ 63) by (vm_compute; reflexivity).
  split; [exact range_canonical_ok |]. split; [exact Hlen |].
  exact (all_map_holds_unfiltered_keys range_canonical
           [analyzeIngress range_canonical resource_mixed]
           "kubernetes.io/ingress.class" range_canonical_ok Hlen).
Defined.

(** *** The known map against the map of all annotations *)

Lemma same_statistics_refl u : same_statistics u u.
Proof. by repeat split. Qed.

Lemma same_statistics_trans u1 u2 u3 :
  same_statistics u1 u2 -> same_statistics u2 u3 -> same_statistics u1 u3.
Proof.
  intros (? & ? & ? & ? & ?) (? & ? & ? & ? & ?).
  repeat split; etrans; eauto.
Qed.

Lemma same_statistics_sym u1 u2 : same_statistics u1 u2 -> same_statistics u2 u1.
Proof. intros (? & ? & ? & ? & ?). by repeat split. Qed.

Lemma updateUsage_same_statistics u1 u2 value ns :
  same_statistics u1 u2 ->
  same_statistics (updateUsage u1 value ns) (updateUsage u2 value ns).
Proof.
  intros (Hk & Hv & Hc & Hn & He). unfold same_statistics.
  cbn [updateUsage Key UniqueValues UsageCount Namespaces ValueExamples].
  by rewrite Hk, Hv, Hc, Hn, He.
Qed.

Lemma attach_rule_info_same_statistics key u :
  same_statistics u (attach_rule_info key u).
Proof. unfold attach_rule_info. by destruct (GetRuleByPattern key). Qed.

Lemma usage_or_new_same_statistics key o1 o2 :
  option_Forall2 same_statistics o1 o2 ->
  same_statistics (usage_or_new key o1) (usage_or_new key o2).
Proof. destruct 1; [done | apply same_statistics_refl]. Qed.

Lemma all_nginx_same_statistics key l :
  strings_HasPrefix key nginx_prefix = true ->
  option_Forall2 same_statistics (all_entry key l) (nginx_entry key l).
Proof.
  intros Hp. pose proof (nginx_not_system key Hp) as Hs.
  induction l as [| a l IH] using rev_ind; [constructor |].
  rewrite all_entry_snoc, nginx_entry_snoc. unfold apply_all, apply_nginx.
  rewrite Hp, Hs. destruct (annotations_of a !! key) as [v |]; [| done].
  constructor. eapply same_statistics_trans; [| apply attach_rule_info_same_statistics].
  apply updateUsage_same_statistics. by apply usage_or_new_same_statistics.
Qed.

(** X7. The known map is the part of the map of all annotations under the
    managed prefix: a key with the prefix is in both maps or in neither, and
    its two records have the same key, values, usage count, namespaces and
    value histogram; a key without the prefix is not in the known map. *)
Theorem known_map_repeats_all_map (rng : range_oracle)
    (analyses : list IngressAnalysis) (key : string) :
  range_ok rng ->
  let inv := BuildAnnotationInventory rng analyses in
  (strings_HasPrefix key nginx_prefix = true ->
   option_Forall2 same_statistics (AllAnnotations inv !! key) (NginxAnnotations inv !! key)) /\
  (strings_HasPrefix key nginx_prefix = false -> NginxAnnotations inv !! key = None).
Proof.
  intros Hok inv. subst inv. rewrite Build_all, Build_nginx by done. split.
  - apply all_nginx_same_statistics.
  - apply nginx_entry_outside.
Qed.

Lemma known_map_repeats_all_map_witness :
  range_ok range_canonical /\
  let inv :=
    BuildAnnotationInventory range_canonical
      [analyzeIngress range_canonical resource_mixed] in
  (strings_HasPrefix "nginx.ingress.kubernetes.io/auth-url" nginx_prefix = true ->
   option_Forall2 same_statistics
     (AllAnnotations inv !! "nginx.ingress.kubernetes.io/auth-url")
     (NginxAnnotations inv !! "nginx.ingress.kubernetes.io/auth-url")) /\
  (strings_HasPrefix "nginx.ingress.kubernetes.io/auth-url" nginx_prefix = false ->
   NginxAnnotations inv !! "nginx.ingress.kubernetes.io/auth-url" = None).
Proof.
  split; [exact range_canonical_ok |].
  exact (known_map_repeats_all_map range_canonical
           [analyzeIngress range_canonical resource_mixed]
           "nginx.ingress.kubernetes.io/auth-url" range_canonical_ok).
Defined.

(** *** The unknown map against the known map *)

Lemma touch_loop_same_statistics key post1 post2
    (value : IngressResource -> option string) (rs : list IngressResource) :
  (forall u, same_statistics u (post1 u)) ->
  (forall u, same_statistics u (post2 u)) ->
  forall o1 o2,
    option_Forall2 same_statistics o1 o2 ->
    option_Forall2 same_statistics
      (foldl (fun o r => touch key post1 r (value r) o) o1 rs)
      (foldl (fun o r => touch key post2 r (value r) o) o2 rs).
Proof.
  intros H1 H2. induction rs as [| r rs IH]; intros o1 o2 Ho; [done |].
  cbn [foldl]. apply IH. unfold touch. destruct (value r) as [v |]; [| done].
  constructor.
  eapply same_statistics_trans; [apply same_statistics_sym, H1 |].
  eapply same_statistics_trans; [| apply H2].
  apply updateUsage_same_statistics. by apply usage_or_new_same_statistics.
Qed.

Lemma touch_loop_None key post (value : IngressResource -> option string) rs :
  (forall r, r ∈ rs -> value r = None) ->
  foldl (fun o r => touch key post r (value r) o) None rs = None.
Proof.
  induction rs as [| r rs IH] using rev_ind; intros Hv; [done |].
  rewrite foldl_snoc, IH.
  - rewrite Hv; [done |]. rewrite elem_of_app, list_elem_of_singleton. auto.
  - intros r' Hr'. apply Hv. rewrite elem_of_app. auto.
Qed.

Lemma unknown_entry_repeats_nginx_entry (rng_analysis : range_oracle)
    (resources : list IngressResource) (key : string) (usage : AnnotationUsage) :
  range_ok rng_analysis ->
  unknown_entry key (analyzeIngress rng_analysis <$> resources) = Some usage ->
  exists known,
    nginx_entry key (analyzeIngress rng_analysis <$> resources) = Some known /\
    same_statistics usage known /\ Risk known = RiskUnknown.
Proof.
  intros HokA. rewrite unknown_entry_resources by done. intros Hu.
  pose proof (nginx_entry_attached key (analyzeIngress rng_analysis <$> resources))
    as Hat.
  rewrite nginx_entry_resources in Hat |- *.
  destruct (unknown_of_key key) as [k |] eqn:Hk.
  - rewrite unknown_of_key_spec in Hk.
    destruct (strings_HasPrefix key nginx_prefix) eqn:Hp; [| done].
    destruct (GetRuleByPattern key) eqn:Hr; [done |].
    pose proof (touch_loop_same_statistics key id (attach_rule_info key)
                  (fun r => Res_Annotations r !! key) resources
                  same_statistics_refl (attach_rule_info_same_statistics key)
                  None None ltac:(constructor)) as Hrel.
    assert (Hvu : (fun r => value_for_unknown key r)
                  = (fun r => Res_Annotations r !! key)).
    { unfold value_for_unknown. rewrite unknown_of_key_spec, Hp, Hr. done. }
    assert (Hvn : (fun r => value_for_nginx key r)
                  = (fun r => Res_Annotations r !! key)).
    { unfold value_for_nginx. by rewrite Hp. }
    change (foldl (fun o r => touch key id r ((fun r => value_for_unknown key r) r) o)
              None resources = Some usage) in Hu.
    change (entry_has (fun usage => attach_rule_info key usage = usage)
              (foldl (fun o r => touch key (attach_rule_info key) r
                                   ((fun r => value_for_nginx key r) r) o)
                 None resources)) in Hat.
    change (exists known,
              foldl (fun o r => touch key (attach_rule_info key) r
                                  ((fun r => value_for_nginx key r) r) o)
                None resources = Some known /\
              same_statistics usage known /\ Risk known = RiskUnknown).
    rewrite Hvu in Hu. rewrite Hvn in Hat |- *. cbv beta in *.
    rewrite Hu in Hrel. inversion Hrel as [? known Hsame Heq1 Heq2 |]; subst.
    exists known. split; [done |]. split; [done |].
    symmetry in Heq2. specialize (Hat known Heq2).
    by destruct (attached_unruled key known Hat Hr).
  - rewrite touch_loop_None in Hu; [done |].
    intros r _. unfold value_for_unknown. by rewrite Hk.
Qed.

(** X8. A record of the unknown map repeats the record the known map holds for
    the same key: same key, values, usage count, namespaces and value
    histogram; the known record carries the UNKNOWN level. *)
Theorem unknown_map_repeats_known_map (rng_analysis rng : range_oracle)
    (resources : list IngressResource) (key : string) (usage : AnnotationUsage) :
  range_ok rng_analysis -> range_ok rng ->
  let inv := BuildAnnotationInventory rng (analyzeIngress rng_analysis <$> resources) in
  UnknownAnnotations inv !! key = Some usage ->
  exists known,
    NginxAnnotations inv !! key = Some known /\
    same_statistics usage known /\ Risk known = RiskUnknown.
Proof.
  intros HokA Hok inv. subst inv. rewrite Build_unknown, Build_nginx by done.
  by apply unknown_entry_repeats_nginx_entry.
Qed.

Lemma unknown_map_repeats_known_map_witness :
  range_ok range_canonical /\ range_ok range_reversed /\
  let inv :=
    BuildAnnotationInventory range_reversed
      (analyzeIngress range_canonical <$> [resource_custom_unknown; resource_mixed]) in
  exists usage,
    UnknownAnnotations inv !! key_custom_unknown = Some usage /\
    exists known,
      NginxAnnotations inv !! key_custom_unknown = Some known /\
      same_statistics usage known /\ Risk known = RiskUnknown.
Proof.
  split; [exact range_canonical_ok |]. split; [exact range_reversed_ok |].
  intros inv.
  destruct (UnknownAnnotations inv !! key_custom_unknown) as [usage |] eqn:Hu;
    [| vm_compute in Hu; discriminate Hu].
  exists usage. split; [reflexivity |].
  exact (unknown_map_repeats_known_map range_canonical range_reversed
           [resource_custom_unknown; resource_mixed] key_custom_unknown usage
           range_canonical_ok range_reversed_ok Hu).
Defined.

(** *** The fields of a record fit together *)

Lemma sumZ_nonneg l : Forall (fun x => 0 <= x) l -> 0 <= sumZ l.
Proof. induction 1; cbn [sumZ]; lia. Qed.

Lemma histogram_total_fresh (m : gmap string int) v n :
  m !! v = None -> histogram_total (<[v := n]> m) = n + histogram_total m.
Proof.
  intros Hv. unfold histogram_total.
  rewrite (sumZ_Permutation _ (((v, n) :: map_to_list m).*2)).
  - done.
  - by rewrite map_to_list_insert.
Qed.

Lemma histogram_total_delete (m : gmap string int) v n :
  m !! v = Some n -> histogram_total m = n + histogram_total (delete v m).
Proof.
  intros Hv. unfold histogram_total.
  rewrite (sumZ_Permutation _ (((v, n) :: map_to_list (delete v m)).*2)).
  - done.
  - by rewrite map_to_list_delete.
Qed.

Lemma histogram_total_insert (m : gmap string int) v n :
  histogram_total (<[v := n]> m) = histogram_total m - default 0 (m !! v) + n.
Proof.
  destruct (m !! v) as [x |] eqn:Hv; cbn [default from_option]; unfold id.
  - rewrite <- (insert_delete_eq m), histogram_total_fresh by apply lookup_delete_eq.
    rewrite (histogram_total_delete m v x) by done. lia.
  - rewrite histogram_total_fresh by done. lia.
Qed.

Lemma histogram_total_nonneg (m : gmap string int) :
  (forall value n, m !! value = Some n -> 0 < n) -> 0 <= histogram_total m.
Proof.
  intros Hpos. apply sumZ_nonneg, Forall_forall. intros x Hx.
  apply list_elem_of_fmap in Hx as ([k n] & -> & Hin).
  apply elem_of_map_to_list in Hin. apply Hpos in Hin. cbn. lia.
Qed.

Lemma histogram_lookup_le (m : gmap string int) v n :
  (forall value n, m !! value = Some n -> 0 < n) ->
  m !! v = Some n -> n <= histogram_total m.
Proof.
  intros Hpos Hv. rewrite (histogram_total_delete m v n) by done.
  assert (0 <= histogram_total (delete v m)); [| lia].
  apply histogram_total_nonneg. intros value x Hx.
  apply lookup_delete_Some in Hx as [_ Hx]. by apply (Hpos value).
Qed.

Lemma add_if_absent_length l x :
  (length (add_if_absent l x) <= length l + 1)%nat.
Proof.
  unfold add_if_absent. destruct (found_in l x); [lia |].
  rewrite length_app. cbn. lia.
Qed.

Lemma usage_new_fits key : usage_fits key (usage_new key).
Proof.
  unfold usage_fits. cbn. repeat split; try done; try apply NoDup_nil_2.
  - intros H. by apply elem_of_nil in H.
  - rewrite lookup_empty. by intros [? ?].
Qed.

Lemma updateUsage_fits key usage value ns :
  usage_fits key usage -> 0 <= UsageCount usage < 2 ^ 63 - 1 ->
  usage_fits key (updateUsage usage value ns) /\
  UsageCount (updateUsage usage value ns) = UsageCount usage + 1.
Proof.
  intros (Hkey & Hnd & Hdom & Hpos & Htotal & Hndn & Hlenn & Hlenv) Hbound.
  destruct (namespaces_step (UniqueValues usage) value Hnd) as [Hnd' Hin'].
  destruct (namespaces_step (Namespaces usage) ns Hndn) as [Hndn' _].
  pose proof (add_if_absent_length (UniqueValues usage) value).
  pose proof (add_if_absent_length (Namespaces usage) ns).
  assert (Hold : 0 <= default 0 (ValueExamples usage !! value) <= UsageCount usage).
  { destruct (ValueExamples usage !! value) as [n |] eqn:Hn; cbn; [| lia].
    pose proof (Hpos _ _ Hn). pose proof (histogram_lookup_le _ _ _ Hpos Hn). lia. }
  assert (Hnew : int_add (default 0 (ValueExamples usage !! value)) 1
                 = default 0 (ValueExamples usage !! value) + 1).
  { unfold int_add. apply int_wrap_small. lia. }
  assert (Hcount : int_add (UsageCount usage) 1 = UsageCount usage + 1).
  { unfold int_add. apply int_wrap_small. lia. }
  unfold usage_fits.
  cbn [updateUsage Key UniqueValues UsageCount Namespaces ValueExamples].
  rewrite Hnew, Hcount. split; [| done].
  split; [done |]. split; [done |]. split; [| split; [| split; [| split]]].
  - intros v. rewrite Hin', Hdom, lookup_insert_is_Some.
    destruct (decide (value = v)) as [-> | Hne]; [tauto |].
    split; [intros [? | ->]; [auto | done] | intros [-> | [_ ?]]; auto].
  - intros v n Hv. apply lookup_insert_Some in Hv as [[_ <-] | [_ Hv]].
    + lia.
    + by apply (Hpos v).
  - rewrite histogram_total_insert. lia.
  - done.
  - split; lia.
Qed.

Lemma post_ok_fits key post usage :
  post_ok key post -> usage_fits key usage ->
  usage_fits key (post usage) /\ UsageCount (post usage) = UsageCount usage.
Proof.
  intros [-> | ->] Hfits; [done |].
  unfold attach_rule_info. by destruct (GetRuleByPattern key).
Qed.

Lemma touch_loop_coherent key post (value : IngressResource -> option string)
    (rs : list IngressResource) :
  post_ok key post -> Z.of_nat (length rs) < 2 ^ 63 ->
  forall usage,
    foldl (fun o r => touch key post r (value r) o) None rs = Some usage ->
    usage_coherent key usage /\ UsageCount usage <= Z.of_nat (length rs).
Proof.
  intros Hpost. induction rs as [| r rs IH] using rev_ind; intros Hlen usage; [done |].
  rewrite foldl_snoc. rewrite length_app in Hlen |- *. cbn [length] in *.
  unfold touch at 1. destruct (value r) as [v |].
  - intros [= <-].
    set (o := foldl (fun o r => touch key post r (value r) o) None rs) in *.
    assert (Hprev : usage_fits key (usage_or_new key o) /\
                    0 <= UsageCount (usage_or_new key o) <= Z.of_nat (length rs)).
    { destruct o as [u |] eqn:Ho; unfold usage_or_new; cbn [default from_option]; unfold id.
      - destruct (IH ltac:(lia) u eq_refl) as [[Hf Hp] Hle]. split; [done | lia].
      - split; [apply usage_new_fits | cbn; lia]. }
    destruct Hprev as [Hf Hb].
    destruct (updateUsage_fits key (usage_or_new key o) v (Res_Namespace r) Hf
                ltac:(lia)) as [Hf' Hc'].
    destruct (post_ok_fits key post _ Hpost Hf') as [Hf'' Hc''].
    split; [split; [done |] |]; lia.
  - intros Hu. destruct (IH ltac:(lia) usage Hu) as [Hc Hle]. split; [done | lia].
Qed.

(** X9. In an inventory built from fewer than 2^63 resources, every record of
    each of the three maps is stored under its own key, lists every value
    and every namespace once, has a positive usage count, and its value
    histogram has exactly the listed values as keys and counts that add up
    to the usage count. *)
Theorem inventory_records_coherent (rng_analysis rng : range_oracle)
    (resources : list IngressResource) (key : string) (usage : AnnotationUsage) :
  range_ok rng_analysis -> range_ok rng ->
  Z.of_nat (length resources) < 2 ^ 63 ->
  let inv := BuildAnnotationInventory rng (analyzeIngress rng_analysis <$> resources) in
  AllAnnotations inv !! key = Some usage \/
  NginxAnnotations inv !! key = Some usage \/
  UnknownAnnotations inv !! key = Some usage ->
  usage_coherent key usage.
Proof.
  intros HokA Hok Hlen inv. subst inv.
  rewrite Build_all, Build_nginx, Build_unknown by done.
  rewrite all_entry_resources, nginx_entry_resources, unknown_entry_resources by done.
  intros [H | [H | H]].
  - eapply (touch_loop_coherent key id (value_for_all key)); [by left | done | done].
  - eapply (touch_loop_coherent key (attach_rule_info key) (value_for_nginx key));
      [by right | done | done].
  - eapply (touch_loop_coherent key id (value_for_unknown key)); [by left | done | done].
Qed.

Lemma inventory_records_coherent_witness :
  range_ok range_canonical /\ range_ok range_reversed /\
  Z.of_nat (length [resource_custom_unknown; resource_mixed]) < 2 ^ 63 /\
  let inv :=
    BuildAnnotationInventory range_reversed
      (analyzeIngress range_canonical <$> [resource_custom_unknown; resource_mixed]) in
  exists usage,
    (AllAnnotations inv !! key_custom_unknown = Some usage \/
     NginxAnnotations inv !! key_custom_unknown = Some usage \/
     UnknownAnnotations inv !! key_custom_unknown = Some usage) /\
    usage_coherent key_custom_unknown usage.
Proof.
  assert (Hlen : Z.of_nat (length [resource_custom_unknown; resource_mixed]) < 2 ^ 63)
    by (vm_compute; reflexivity).
  split; [exact range_canonical_ok |]. split; [exact range_reversed_ok |].
  split; [exact Hlen |]. intros inv.
  assert (Hex : exists usage, UnknownAnnotations inv !! key_custom_unknown = Some usage)
    by (vm_compute; eauto).
  destruct Hex as [usage Hu]. exists usage.
  assert (Hany : AllAnnotations inv !! key_custom_unknown = Some usage \/
                 NginxAnnotations inv !! key_custom_unknown = Some usage \/
                 UnknownAnnotations inv !! key_custom_unknown = Some usage)
    by (right; right; exact Hu).
  split; [exact Hany |].
  exact (inventory_records_coherent range_canonical range_reversed
           [resource_custom_unknown; resource_mixed] key_custom_unknown usage
           range_canonical_ok range_reversed_ok Hlen Hany).
Defined.

(** *** The counts of the inventory summary *)

Lemma map_len_subseteq {V1 V2} (m1 : gmap string V1) (m2 : gmap string V2) :
  (forall key, is_Some (m1 !! key) -> is_Some (m2 !! key)) ->
  0 <= map_len m1 <= map_len m2.
Proof.
  intros Hsub. unfold map_len. split; [lia |]. apply inj_le.
  rewrite <- !(size_dom (D := gset string)). apply subseteq_size.
  intros key. rewrite !elem_of_dom. apply Hsub.
Qed.

(** X10. The three counts of the inventory summary are the sizes of the three
    maps, and they are nested: no more unknown keys than known keys, no more
    known keys than keys in all. *)
Theorem inventory_counts_nested (rng_analysis rng : range_oracle)
    (resources : list IngressResource) :
  range_ok rng_analysis -> range_ok rng ->
  let inv := BuildAnnotationInventory rng (analyzeIngress rng_analysis <$> resources) in
  TotalUniqueAnnotations (Summary inv) = Z.of_nat (size (AllAnnotations inv)) /\
  NginxAnnotationsCount (Summary inv) = Z.of_nat (size (NginxAnnotations inv)) /\
  UnknownAnnotationsCount (Summary inv) = Z.of_nat (size (UnknownAnnotations inv)) /\
  0 <= UnknownAnnotationsCount (Summary inv) <= NginxAnnotationsCount (Summary inv) /\
  NginxAnnotationsCount (Summary inv) <= TotalUniqueAnnotations (Summary inv).
Proof.
  intros HokA Hok inv.
  split; [done |]. split; [done |]. split; [done |].
  change (0 <= map_len (UnknownAnnotations inv) <= map_len (NginxAnnotations inv) /\
          map_len (NginxAnnotations inv) <= map_len (AllAnnotations inv)).
  split.
  - apply map_len_subseteq. intros key. subst inv.
    rewrite Build_unknown, Build_nginx by done.
    rewrite unknown_entry_is_Some, nginx_entry_is_Some.
    intros (a & Ha & Hk). apply list_elem_of_fmap in Ha as (r & -> & Hr).
    cbn [analyzeIngress An_UnknownAnnotations] in Hk.
    apply GetUnknownNginxAnnotations_elem in Hk as (Hs & Hp & _); [| done].
    split; [done |]. exists (analyzeIngress rng_analysis r).
    split; [| done]. apply list_elem_of_fmap. eauto.
  - apply map_len_subseteq. intros key. subst inv.
    rewrite Build_all, Build_nginx by done. intros Hn.
    pose proof Hn as Hn'. apply nginx_entry_is_Some in Hn as [Hp _].
    destruct (all_nginx_same_statistics key (analyzeIngress rng_analysis <$> resources) Hp)
      as [? ? ? | ]; [eauto | by destruct Hn'].
Qed.

Lemma inventory_counts_nested_witness :
  range_ok range_canonical /\ range_ok range_reversed /\
  let inv :=
    BuildAnnotationInventory range_reversed
      (analyzeIngress range_canonical <$> [resource_custom_unknown; resource_mixed]) in
  TotalUniqueAnnotations (Summary inv) = Z.of_nat (size (AllAnnotations inv)) /\
  NginxAnnotationsCount (Summary inv) = Z.of_nat (size (NginxAnnotations inv)) /\
  UnknownAnnotationsCount (Summary inv) = Z.of_nat (size (UnknownAnnotations inv)) /\
  0 <= UnknownAnnotationsCount (Summary inv) <= NginxAnnotationsCount (Summary inv) /\
  NginxAnnotationsCount (Summary inv) <= TotalUniqueAnnotations (Summary inv).
Proof.
  split; [exact range_canonical_ok |]. split; [exact range_reversed_ok |].
  exact (inventory_counts_nested range_canonical range_reversed
           [resource_custom_unknown; resource_mixed]
           range_canonical_ok range_reversed_ok).
Defined.

(** ** More on the criticality ranker *)

(** X11. With a negative limit the call panics, whatever the inventory holds: the
    slice is never shorter than a negative number. *)
Theorem ranking_panics_below_zero (rng : range_oracle) (srt : slice_sorter)
    (inv : AnnotationInventory) (limit : int) :
  limit < 0 ->
  (GetMostCriticalAnnotations rng srt inv limit).2 = None.
Proof.
  intros Hneg. unfold GetMostCriticalAnnotations.
  destruct (foldl collect_unknown _ _) as [unknowns critical]. cbn [snd].
  rewrite (proj2 (Z.gtb_gt _ _)) by lia.
  unfold slice_to. by rewrite (proj2 (Z.ltb_lt _ _)).
Qed.

Lemma ranking_panics_below_zero_witness :
  -1 < 0 /\
  (GetMostCriticalAnnotations range_canonical insertionSortLessFunc
     inventory_empty (-1)).2 = None.
Proof.
  assert (Hneg : -1 < 0) by lia.
  split; [exact Hneg |].
  exact (ranking_panics_below_zero range_canonical insertionSortLessFunc
           inventory_empty (-1) Hneg).
Defined.

Lemma set_Risk_idemp risk usage :
  set_Risk risk (set_Risk risk usage) = set_Risk risk usage.
Proof. done. Qed.

(** X12. A second call of the ranker leaves the inventory as the first call left
    it: the marker is written once. *)
Theorem ranking_again_changes_nothing (rng1 rng2 : range_oracle)
    (srt1 srt2 : slice_sorter) (inv : AnnotationInventory) (limit1 limit2 : int) :
  range_ok rng1 -> range_ok rng2 ->
  (GetMostCriticalAnnotations rng2 srt2
     (GetMostCriticalAnnotations rng1 srt1 inv limit1).1 limit2).1
  = (GetMostCriticalAnnotations rng1 srt1 inv limit1).1.
Proof.
  intros Hok1 Hok2. rewrite !GetMostCriticalAnnotations_unfold by done.
  cbn [fst AllAnnotations NginxAnnotations UnknownAnnotations Summary].
  f_equal. rewrite <- map_fmap_compose. apply map_fmap_ext. done.
Qed.

Lemma ranking_again_changes_nothing_witness :
  range_ok range_canonical /\ range_ok range_reversed /\
  (GetMostCriticalAnnotations range_reversed insertionSortLessFunc
     (GetMostCriticalAnnotations range_canonical insertionSortLessFunc
        inventory_two_unknown 1).1 5).1
  = (GetMostCriticalAnnotations range_canonical insertionSortLessFunc
       inventory_two_unknown 1).1.
Proof.
  split; [exact range_canonical_ok |]. split; [exact range_reversed_ok |].
  exact (ranking_again_changes_nothing range_canonical range_reversed
           insertionSortLessFunc insertionSortLessFunc inventory_two_unknown 1 5
           range_canonical_ok range_reversed_ok).
Defined.

(** *** No annotation is ranked twice *)

Lemma unknown_entry_key key l : entry_has (fun usage => Key usage = key) (unknown_entry key l).
Proof.
  unfold unknown_entry. apply foldl_invariant; [done |].
  intros o a Ho _. unfold apply_unknown. apply foldl_invariant; [done |].
  intros o' unk Ho' _. destruct (String.eqb unk key); [| done].
  intros u [= <-]. cbn [updateUsage Key]. by destruct o' as [u' |]; [apply Ho' |].
Qed.

Lemma fmap_Key_own (m : gmap string AnnotationUsage) (l : list (string * AnnotationUsage)) :
  (forall key usage, m !! key = Some usage -> Key usage = key) ->
  (forall kv, kv ∈ l -> m !! kv.1 = Some kv.2) ->
  Key <$> l.*2 = l.*1.
Proof.
  intros Hkey Hin. induction l as [| [k u] l IH]; [done |].
  cbn [fmap list_fmap fst snd]. f_equal.
  - apply (Hkey k u), (Hin (k, u)). by left.
  - apply IH. intros kv Hkv. apply Hin. by right.
Qed.

Lemma candidates_in_keys rng_analysis rng rng' resources :
  range_ok rng_analysis -> range_ok rng -> range_ok rng' ->
  let inv := BuildAnnotationInventory rng (analyzeIngress rng_analysis <$> resources) in
  NoDup (Key <$> candidates_in rng' inv) /\
  Forall critical_risk (candidates_in rng' inv).
Proof.
  intros HokA Hok Hok' inv.
  assert (Hkn : forall key usage, NginxAnnotations inv !! key = Some usage -> Key usage = key).
  { intros key usage Hu. subst inv. rewrite Build_nginx in Hu by done.
    by apply nginx_entry_Some in Hu as (_ & ? & _). }
  assert (Hku : forall key usage, UnknownAnnotations inv !! key = Some usage -> Key usage = key).
  { intros key usage Hu. subst inv. rewrite Build_unknown in Hu.
    by apply (unknown_entry_key key (analyzeIngress rng_analysis <$> resources) usage). }
  unfold candidates_in. split.
  - assert (Key <$> ((filter is_high (rng' _ (NginxAnnotations inv))).*2
                      ++ (set_Risk RiskUnknown <$> (rng' _ (UnknownAnnotations inv)).*2))
            = (filter is_high (rng' _ (NginxAnnotations inv))).*1
              ++ (rng' _ (UnknownAnnotations inv)).*1) as ->.
    { rewrite fmap_app. f_equal.
      - apply (fmap_Key_own (NginxAnnotations inv)); [done |].
        intros [k u] Hin. apply list_elem_of_filter in Hin as [_ Hin].
        by apply (range_ok_elem rng').
      - rewrite <- (fmap_Key_own (UnknownAnnotations inv) (rng' _ (UnknownAnnotations inv)));
          [| done | intros [k u] Hin; by apply (range_ok_elem rng')].
        by rewrite <- list_fmap_compose. }
    apply NoDup_app. split; [| split].
    + apply (sublist_NoDup _ (rng' _ (NginxAnnotations inv)).*1).
      * by apply range_ok_NoDup.
      * apply fmap_sublist, sublist_filter.
    + intros key Hhigh Hunk.
      apply list_elem_of_fmap in Hhigh as ([k u] & -> & Hin).
      apply list_elem_of_filter in Hin as [Hrisk Hin]. cbn [fst] in *.
      apply (range_ok_elem rng') in Hin; [| done].
      apply list_elem_of_fmap in Hunk as ([k' u'] & Hk & Hin'). cbn [fst] in Hk. subst k'.
      apply (range_ok_elem rng') in Hin'; [| done].
      subst inv. rewrite Build_nginx in Hin by done. rewrite Build_unknown in Hin'.
      destruct (unknown_entry_repeats_nginx_entry rng_analysis resources k u'
                  HokA Hin') as (known & Hknown & _ & Hunknown).
      rewrite Hin in Hknown. injection Hknown as <-.
      unfold is_high in Hrisk. cbn [snd] in Hrisk. rewrite Hrisk in Hunknown.
      discriminate Hunknown.
    + by apply (range_ok_NoDup rng').
  - apply Forall_app. split.
    + apply Forall_forall. intros u Hu.
      apply list_elem_of_fmap in Hu as ([k u'] & -> & Hin).
      apply list_elem_of_filter in Hin as [Hrisk _]. by left.
    + apply Forall_forall. intros u Hu.
      apply list_elem_of_fmap in Hu as (u' & -> & _). by right.
Qed.

Lemma ranked_sublist rng srt inv limit ranked :
  range_ok rng ->
  (GetMostCriticalAnnotations rng srt inv limit).2 = Some ranked ->
  ranked `sublist_of` srt _ more_used (candidates_in rng inv).
Proof.
  intros Hok. rewrite GetMostCriticalAnnotations_unfold by done. cbn [snd].
  destruct (Z.of_nat (length _) >? limit).
  - unfold slice_to. destruct (limit <? 0); [done |]. intros [= <-]. apply sublist_take.
  - by intros [= <-].
Qed.

(** X13. In an inventory built from analysed resources the ranker returns no
    annotation key twice, and every record it returns carries the HIGH_RISK
    level or the UNKNOWN marker: a key of the unknown map is never HIGH_RISK
    in the known map. *)
Theorem ranking_lists_each_key_once (rng_analysis rng rng' : range_oracle)
    (srt : slice_sorter) (resources : list IngressResource) (limit : int)
    (ranked : list AnnotationUsage) :
  range_ok rng_analysis -> range_ok rng -> range_ok rng' -> sort_Slice_ok srt ->
  let inv := BuildAnnotationInventory rng (analyzeIngress rng_analysis <$> resources) in
  (GetMostCriticalAnnotations rng' srt inv limit).2 = Some ranked ->
  NoDup (Key <$> ranked) /\ Forall critical_risk ranked.
Proof.
  intros HokA Hok Hok' Hsrt inv Hranked.
  apply ranked_sublist in Hranked; [| done].
  destruct (candidates_in_keys rng_analysis rng rng' resources HokA Hok Hok')
    as [Hnd Hall]. fold inv in Hnd, Hall.
  destruct (Hsrt _ more_used (candidates_in rng' inv)) as [Hperm _]. split.
  - apply (sublist_NoDup _ (Key <$> srt _ more_used (candidates_in rng' inv))).
    + by rewrite Hperm.
    + by apply fmap_sublist.
  - rewrite <- Hperm in Hall. rewrite Forall_forall in Hall |- *.
    intros u Hu. apply Hall. eapply elem_of_sublist; [exact Hu | exact Hranked].
Qed.

Lemma ranking_lists_each_key_once_witness :
  range_ok range_canonical /\ range_ok range_reversed /\
  sort_Slice_ok insertionSortLessFunc /\
  let inv :=
    BuildAnnotationInventory range_reversed
      (analyzeIngress range_canonical
         <$> [resource_custom_unknown; resource_mixed; resource_server_snippet]) in
  exists ranked,
    (GetMostCriticalAnnotations range_canonical insertionSortLessFunc inv 5).2
    = Some ranked /\
    NoDup (Key <$> ranked) /\ Forall critical_risk ranked.
Proof.
  split; [exact range_canonical_ok |]. split; [exact range_reversed_ok |].
  split; [exact insertionSortLessFunc_ok |]. intros inv.
  assert (Hex : exists ranked,
    (GetMostCriticalAnnotations range_canonical insertionSortLessFunc inv 5).2
    = Some ranked) by (vm_compute; eauto).
  destruct Hex as [ranked Hranked]. exists ranked. split; [exact Hranked |].
  exact (ranking_lists_each_key_once range_canonical range_reversed range_canonical
           insertionSortLessFunc
           [resource_custom_unknown; resource_mixed; resource_server_snippet] 5 ranked
           range_canonical_ok range_reversed_ok range_canonical_ok
           insertionSortLessFunc_ok Hranked).
Defined.

(** ** More on the namespace scorer *)

Lemma add_risk_count_is_Some counts ns' risk n ns :
  is_Some (add_risk_count counts ns' risk n !! ns) <->
  ns' = ns \/ is_Some (counts !! ns).
Proof.
  unfold add_risk_count. cbv zeta. by rewrite lookup_insert_is_Some'.
Qed.

Lemma count_usage_is_Some counts kv ns :
  is_Some (count_usage counts kv !! ns) <->
  ns ∈ Namespaces kv.2 \/ is_Some (counts !! ns).
Proof.
  unfold count_usage. revert counts.
  induction (Namespaces kv.2) as [| x names IH]; intros counts; cbn [foldl].
  - split; [auto | intros [H | H]; [by apply elem_of_nil in H | done]].
  - rewrite IH, add_risk_count_is_Some, elem_of_cons.
    split; [intros [? | [-> | ?]] | intros [[-> | ?] | ?]]; auto.
Qed.

Lemma count_usage_loop_is_Some (l : list (string * AnnotationUsage)) ns : forall counts,
  is_Some (foldl count_usage counts l !! ns) <->
  (exists kv, kv ∈ l /\ ns ∈ Namespaces kv.2) \/ is_Some (counts !! ns).
Proof.
  induction l as [| kv l IH]; intros counts; cbn [foldl].
  - split; [auto | intros [(kv & H & _) | H]; [by apply elem_of_nil in H | done]].
  - rewrite IH, count_usage_is_Some. split.
    + intros [(kv' & Hin & Hns) | [Hns | Hc]].
      * left. exists kv'. split; [by right | done].
      * left. exists kv. split; [by left | done].
      * by right.
    + intros [(kv' & Hin & Hns) | Hc].
      * apply elem_of_cons in Hin as [-> | Hin]; [auto |]. left. eauto.
      * auto.
Qed.

Lemma classify_labels riskCounts label :
  classify riskCounts = Some label ->
  label = label_high \/ label = label_medium \/ label = label_low.
Proof.
  unfold classify. repeat case_match; intros [= <-]; auto.
Qed.

(** X14. The scorer labels only namespaces that some known record lists, and
    always with one of its three labels. *)
Theorem scorer_labels_listed_namespaces (rng : range_oracle) (inv : AnnotationInventory)
    (ns label : string) :
  range_ok rng ->
  analyzeNamespaceComplexity rng inv !! ns = Some label ->
  listed_namespace inv ns /\
  (label = label_high \/ label = label_medium \/ label = label_low).
Proof.
  intros Hok. rewrite analyzeNamespaceComplexity_lookup by done.
  destruct (namespace_counts rng inv !! ns) as [rc |] eqn:Hrc; [| done].
  intros Hlabel. split; [| by apply classify_labels in Hlabel].
  assert (Hsome : is_Some (namespace_counts rng inv !! ns)) by eauto.
  unfold namespace_counts in Hsome.
  apply count_usage_loop_is_Some in Hsome as [([k u] & Hin & Hns) | Hempty].
  - exists k, u. split; [| done]. by apply (range_ok_elem rng).
  - rewrite lookup_empty in Hempty. by destruct Hempty.
Qed.

Lemma scorer_labels_listed_namespaces_witness :
  range_ok range_canonical /\
  analyzeNamespaceComplexity range_canonical inventory_third_high !! "prod"
  = Some label_medium /\
  listed_namespace inventory_third_high "prod" /\
  (label_medium = label_high \/ label_medium = label_medium \/ label_medium = label_low).
Proof.
  assert (Hlabel : analyzeNamespaceComplexity range_canonical inventory_third_high !! "prod"
                   = Some label_medium) by (vm_compute; reflexivity).
  split; [exact range_canonical_ok |]. split; [exact Hlabel |].
  exact (scorer_labels_listed_namespaces range_canonical inventory_third_high
           "prod" label_medium range_canonical_ok Hlabel).
Defined.

Lemma occurrences_absent ns names : ns ∉ names -> occurrences ns names = 0%nat.
Proof.
  intros Hns. unfold occurrences. induction names as [| x names IH]; [done |].
  rewrite filter_cons. apply not_elem_of_cons in Hns as [Hne Hns].
  rewrite decide_False by done. by apply IH.
Qed.

Lemma risk_weight_zero inv ns risk :
  (forall key usage,
     NginxAnnotations inv !! key = Some usage -> ns ∈ Namespaces usage ->
     Risk usage <> risk) ->
  risk_weight inv ns risk = 0.
Proof.
  intros Hother. unfold risk_weight.
  assert (Hall : Forall (fun kv => NginxAnnotations inv !! kv.1 = Some kv.2)
                   (map_to_list (NginxAnnotations inv))).
  { apply Forall_forall. intros [k u] Hin. by apply elem_of_map_to_list. }
  induction Hall as [| [k u] l Hku _ IH]; [done |].
  cbn [fmap list_fmap sumZ snd fst] in *. rewrite IH, Z.add_0_r.
  unfold usage_weight. case_decide as Hr; [| done].
  unfold listed_usage. rewrite occurrences_absent; [done |].
  intros Hns. by apply (Hother k u).
Qed.

(** X15. A namespace in which no listed known record is AUTO, MANUAL or HIGH_RISK
    gets no label: a namespace that uses only annotations outside the rule
    table is left out of the complexity map. *)
Theorem scorer_omits_unclassified_namespaces (rng : range_oracle)
    (inv : AnnotationInventory) (ns : string) :
  range_ok rng ->
  (forall key usage,
     NginxAnnotations inv !! key = Some usage -> ns ∈ Namespaces usage ->
     Risk usage <> RiskAuto /\ Risk usage <> RiskManual /\ Risk usage <> RiskHigh) ->
  analyzeNamespaceComplexity rng inv !! ns = None.
Proof.
  intros Hok Hother. rewrite analyzeNamespaceComplexity_lookup by done.
  pose proof (namespace_counts_at rng inv ns RiskAuto Hok) as Ha.
  pose proof (namespace_counts_at rng inv ns RiskManual Hok) as Hm.
  pose proof (namespace_counts_at rng inv ns RiskHigh Hok) as Hh.
  rewrite risk_weight_zero in Ha, Hm, Hh by (intros k u Hk Hns; by apply (Hother k u)).
  unfold count_at in Ha, Hm, Hh.
  destruct (namespace_counts rng inv !! ns) as [rc |]; [| done].
  cbn [default from_option] in Ha, Hm, Hh. unfold id in Ha, Hm, Hh.
  unfold classify, total_of. by rewrite Ha, Hm, Hh.
Qed.

Lemma scorer_omits_unclassified_namespaces_witness :
  range_ok range_canonical /\
  (forall key usage,
     NginxAnnotations inventory_custom_unknown !! key = Some usage ->
     "prod" ∈ Namespaces usage ->
     Risk usage <> RiskAuto /\ Risk usage <> RiskManual /\ Risk usage <> RiskHigh) /\
  analyzeNamespaceComplexity range_canonical inventory_custom_unknown !! "prod" = None.
Proof.
  assert (Hother : forall key usage,
     NginxAnnotations inventory_custom_unknown !! key = Some usage ->
     "prod" ∈ Namespaces usage ->
     Risk usage <> RiskAuto /\ Risk usage <> RiskManual /\ Risk usage <> RiskHigh).
  { intros key usage Hu _.
    assert (Hmap : NginxAnnotations inventory_custom_unknown
                   = {[ key_custom_unknown := usage_custom_known ]})
      by (vm_compute; reflexivity).
    rewrite Hmap in Hu. apply lookup_singleton_Some in Hu as [_ <-].
    repeat split; discriminate. }
  split; [exact range_canonical_ok |]. split; [exact Hother |].
  exact (scorer_omits_unclassified_namespaces range_canonical inventory_custom_unknown
           "prod" range_canonical_ok Hother).
Defined.

(** ** The cluster summary, level by level *)

Lemma count_risk_other level acc :
  level <> RiskAuto -> level <> RiskManual -> level <> RiskHigh ->
  count_risk level acc = acc.
Proof.
  intros Ha Hm Hh. unfold count_risk. destruct acc as [[a m] h].
  apply String.eqb_neq in Ha, Hm, Hh. by rewrite Ha, Hm, Hh.
Qed.

Lemma summary_step_tracks_other l a s :
  summary_tracks l s -> ~ classified a ->
  summary_tracks (l ++ [a]) (summary_step s a).
Proof.
  intros (Hauto & Hman & Hhigh & Hns) Hcl.
  assert (Ha : An_RiskLevel a <> RiskAuto) by (intros H; apply Hcl; by left).
  assert (Hm : An_RiskLevel a <> RiskManual) by (intros H; apply Hcl; right; by left).
  assert (Hh : An_RiskLevel a <> RiskHigh) by (intros H; apply Hcl; right; by right).
  unfold summary_tracks, summary_step. rewrite !count_risk_other by done.
  cbn [Sum_AutoCount Sum_ManualCount Sum_HighRiskCount Sum_ByNamespace].
  rewrite !count_level_snoc, !decide_False, !Nat.add_0_r by done.
  split; [done |]. split; [done |]. split; [done |].
  intros ns. rewrite filter_in_namespace_snoc, !count_level_in_snoc.
  specialize (Hns ns). rewrite !(decide_False (P := at_level _ a)) by done.
  destruct (decide (in_namespace ns a)) as [Heq | Hne];
    [unfold in_namespace in Heq | unfold in_namespace in Hne].
  - fold (namespace_of a). rewrite Heq, lookup_insert_eq, !Nat.add_0_r. split.
    { intros Hnil. by apply app_eq_nil in Hnil as [_ ?]. }
    destruct (Sum_ByNamespace s !! ns) as [s0 |]; cbn [default from_option];
      unfold ns_counts, ns_of_counts, id.
    + by destruct Hns as (_ & -> & -> & ->).
    + unfold count_level_in. by rewrite Hns.
  - fold (namespace_of a). rewrite lookup_insert_ne by done.
    rewrite app_nil_r, !Nat.add_0_r. done.
Qed.

Lemma summary_loop_tracks_any total l :
  Z.of_nat (length l) < 2 ^ 63 ->
  summary_tracks l (foldl summary_step (summary_init total) l).
Proof.
  induction l as [| a l IH] using rev_ind; intros Hlen.
  - apply summary_init_tracks.
  - rewrite foldl_snoc.
    assert (Hprev : summary_tracks l (foldl summary_step (summary_init total) l)).
    { apply IH. rewrite length_app in Hlen. lia. }
    destruct (decide (classified a)) as [Hcl | Hcl].
    + by apply summary_step_tracks.
    + by apply summary_step_tracks_other.
Qed.

(** X16. For fewer than 2^63 analyses, whatever their levels: each of the three
    counters of the summary is the number of analyses of its level, the
    total is the number of analyses, and [ByNamespace] has an entry exactly
    for the namespaces of the analyses, whose counters count the analyses of
    that namespace level by level. An analysis of another level is part of
    the total, and gives its namespace an entry, without being counted. *)
Theorem generateSummary_counts_each_level (analyses : list IngressAnalysis) :
  Z.of_nat (length analyses) < 2 ^ 63 ->
  Sum_TotalIngresses (generateSummary analyses) = Z.of_nat (length analyses) /\
  summary_tracks analyses (generateSummary analyses).
Proof.
  intros Hlen. unfold generateSummary. split.
  - by rewrite summary_loop_total.
  - by apply summary_loop_tracks_any.
Qed.

Lemma generateSummary_counts_each_level_witness :
  Z.of_nat (length (analyzeIngress range_canonical
                      <$> [resource_mixed; resource_server_snippet])) < 2 ^ 63 /\
  Sum_TotalIngresses
    (generateSummary (analyzeIngress range_canonical
                        <$> [resource_mixed; resource_server_snippet]))
  = Z.of_nat (length (analyzeIngress range_canonical
                        <$> [resource_mixed; resource_server_snippet])) /\
  summary_tracks
    (analyzeIngress range_canonical <$> [resource_mixed; resource_server_snippet])
    (generateSummary (analyzeIngress range_canonical
                        <$> [resource_mixed; resource_server_snippet])).
Proof.
  assert (Hlen : Z.of_nat (length (analyzeIngress range_canonical
                      <$> [resource_mixed; resource_server_snippet])) < 2 ^ 63)
    by (vm_compute; reflexivity).
  split; [exact Hlen |].
  exact (generateSummary_counts_each_level
           (analyzeIngress range_canonical <$> [resource_mixed; resource_server_snippet])
           Hlen).
Defined.

(** ** The rules of one level, and the warnings of an analysis *)

Lemma foldl_filter_append {A} (P : A -> bool) (l : list A) : forall acc,
  foldl (fun filtered x => if P x then filtered ++ [x] else filtered) acc l
  = acc ++ List.filter P l.
Proof.
  induction l as [| x l IH]; intros acc; cbn [foldl List.filter].
  - by rewrite app_nil_r.
  - rewrite IH. destruct (P x); [by rewrite <- app_assoc | done].
Qed.

Lemma getRulesByRisk_filter rules level :
  getRulesByRisk rules level
  = List.filter (fun rule => String.eqb (Rule_RiskLevel rule) level) rules.
Proof. unfold getRulesByRisk. by rewrite foldl_filter_append. Qed.

(** X17. [getHighRiskRules] returns at least one rule exactly when
    [GetHighestRiskLevel] returns HIGH_RISK for the same rules: a resource
    reported as high risk always has its high-risk rules named. *)
Theorem high_risk_rules_iff_level (rules : list AnnotationRule) :
  getHighRiskRules rules <> [] <-> GetHighestRiskLevel rules = RiskHigh.
Proof.
  unfold getHighRiskRules. rewrite getRulesByRisk_filter, GetHighestRiskLevel_spec.
  assert (Hb : has_levelb RiskHigh rules = true <->
               List.filter (fun rule => String.eqb (Rule_RiskLevel rule) RiskHigh) rules <> []).
  { unfold has_levelb. induction rules as [| r rules IH]; cbn [existsb List.filter].
    - split; [done | by intros H].
    - destruct (String.eqb (Rule_RiskLevel r) RiskHigh); cbn [orb]; [split; done | exact IH]. }
  rewrite <- Hb. destruct (has_levelb RiskHigh rules); [done |].
  split; [done |]. by destruct (has_levelb RiskManual rules).
Qed.

Lemma table_rules_classified :
  forallb (fun rule => String.eqb (Rule_RiskLevel rule) RiskAuto
                       || String.eqb (Rule_RiskLevel rule) RiskManual
                       || String.eqb (Rule_RiskLevel rule) RiskHigh)
    GetAnnotationRules = true.
Proof. vm_compute. reflexivity. Qed.

Lemma table_rule_classified rule : rule ∈ GetAnnotationRules -> rule_classified rule.
Proof.
  intros Hin. pose proof table_rules_classified as Hall. rewrite forallb_forall in Hall.
  apply list_elem_of_In, Hall in Hin. unfold rule_classified.
  rewrite !orb_true_iff, !String.eqb_eq in Hin. tauto.
Qed.

Lemma rules_split_by_level rules :
  Forall rule_classified rules ->
  getRulesByRisk rules RiskAuto ++ getRulesByRisk rules RiskManual
    ++ getRulesByRisk rules RiskHigh ≡ₚ rules.
Proof.
  rewrite !getRulesByRisk_filter.
  induction 1 as [| r rules Hr _ IH]; [done |]. cbn [List.filter].
  destruct Hr as [Hr | [Hr | Hr]]; rewrite Hr;
    unfold RiskAuto, RiskManual, RiskHigh in *; cbn [String.eqb Ascii.eqb Bool.eqb].
  - cbn [app]. by constructor.
  - etrans; [symmetry; apply Permutation_middle |]. cbn [app]. by constructor.
  - rewrite app_assoc. etrans; [symmetry; apply Permutation_middle |].
    constructor. by rewrite <- app_assoc.
Qed.

(** X18. The three groups in which the report presents the matched rules of a
    resource hold every matched rule once: taken together they are the
    matched rules, up to order. *)
Theorem matched_rules_split_by_level (rng : range_oracle)
    (annotations : gmap string string) :
  range_ok rng ->
  let matchedRules := MatchAnnotations rng annotations in
  getRulesByRisk matchedRules RiskAuto ++ getRulesByRisk matchedRules RiskManual
    ++ getRulesByRisk matchedRules RiskHigh ≡ₚ matchedRules.
Proof.
  intros Hok matchedRules. apply rules_split_by_level, Forall_forall.
  intros rule Hin. apply table_rule_classified.
  apply MatchAnnotations_elem in Hin as (key & _ & Hm); [| done].
  by apply first_match_in_table in Hm.
Qed.

Lemma matched_rules_split_by_level_witness :
  range_ok range_canonical /\
  let matchedRules := MatchAnnotations range_canonical (Res_Annotations resource_mixed) in
  getRulesByRisk matchedRules RiskAuto ++ getRulesByRisk matchedRules RiskManual
    ++ getRulesByRisk matchedRules RiskHigh ≡ₚ matchedRules.
Proof.
  split; [exact range_canonical_ok |].
  exact (matched_rules_split_by_level range_canonical (Res_Annotations resource_mixed)
           range_canonical_ok).
Defined.

(** *** The warnings *)

Lemma table_snippets_are_high :
  forallb (fun rule => Bool.eqb (strings_Contains (Rule_Pattern rule) "snippet")
                         (String.eqb (Rule_RiskLevel rule) RiskHigh))
    GetAnnotationRules = true.
Proof. vm_compute. reflexivity. Qed.

Lemma snippet_loop rules : forall warnings,
  Forall (fun rule => rule ∈ GetAnnotationRules) rules ->
  foldl warn_snippet warnings rules
  = warnings ++ (snippet_warning <$> getHighRiskRules rules).
Proof.
  unfold getHighRiskRules. rewrite getRulesByRisk_filter.
  induction rules as [| r rules IH]; intros warnings Hall; cbn [foldl List.filter].
  - by rewrite app_nil_r.
  - apply Forall_cons in Hall as [Hr Hall]. rewrite IH by done.
    pose proof table_snippets_are_high as Ht. rewrite forallb_forall in Ht.
    apply list_elem_of_In, Ht, Bool.eqb_prop in Hr. unfold warn_snippet. rewrite Hr.
    destruct (String.eqb (Rule_RiskLevel r) RiskHigh); [| done].
    cbn [fmap list_fmap]. by rewrite <- app_assoc.
Qed.

Lemma generateWarnings_parts rng resource matchedRules :
  Forall (fun rule => rule ∈ GetAnnotationRules) matchedRules ->
  generateWarnings rng resource matchedRules
  = (snippet_warning <$> getHighRiskRules matchedRules)
    ++ unknown_part rng resource ++ class_part resource.
Proof.
  intros Htable. unfold generateWarnings, unknown_part, class_part.
  rewrite snippet_loop, app_nil_l by done.
  set (high := snippet_warning <$> _).
  destruct (GetUnknownNginxAnnotations rng (Res_Annotations resource)) as [| u unknown];
    cbn [length].
  - rewrite app_nil_l. change (Z.of_nat 0 >? 0) with false. cbv iota.
    destruct (Res_Annotations resource !! legacy_class_key) as [class |] eqn:Hc.
    + destruct (String.eqb class "nginx") eqn:Hn.
      * apply String.eqb_eq in Hn as ->.
        destruct (String.eqb (Res_ClassName resource) "") eqn:He.
        -- apply String.eqb_eq in He. by rewrite bool_decide_eq_true_2.
        -- apply String.eqb_neq in He.
           rewrite bool_decide_eq_false_2 by (by intros [_ ?]). by rewrite app_nil_r.
      * apply String.eqb_neq in Hn.
        rewrite bool_decide_eq_false_2 by (intros [[= ?] _]; done). by rewrite app_nil_r.
    + rewrite bool_decide_eq_false_2 by (by intros [? _]). by rewrite app_nil_r.
  - rewrite (proj2 (Z.gtb_gt _ _)) by lia.
    destruct (Res_Annotations resource !! legacy_class_key) as [class |] eqn:Hc.
    + destruct (String.eqb class "nginx") eqn:Hn.
      * apply String.eqb_eq in Hn as ->.
        destruct (String.eqb (Res_ClassName resource) "") eqn:He.
        -- apply String.eqb_eq in He. rewrite bool_decide_eq_true_2 by done.
           by rewrite <- app_assoc.
        -- apply String.eqb_neq in He.
           rewrite bool_decide_eq_false_2 by (by intros [_ ?]). by rewrite app_nil_r.
      * apply String.eqb_neq in Hn.
        rewrite bool_decide_eq_false_2 by (intros [[= ?] _]; done). by rewrite app_nil_r.
    + rewrite bool_decide_eq_false_2 by (by intros [? _]). by rewrite app_nil_r.
Qed.

(** X19. The warnings of an analysis are: one warning for each matched rule of
    level HIGH_RISK, in the order of the matched rules and naming the rule
    (these are the rules whose pattern contains "snippet"); then one warning
    with the number of unknown annotations, if there are any; then the
    warning about the legacy class annotation, if the resource has it with
    the value nginx and an empty class name. *)
Theorem warnings_follow_high_risk_rules (rng : range_oracle) (resource : IngressResource) :
  range_ok rng ->
  analyzeIngress_Warnings rng resource
  = (snippet_warning
       <$> getHighRiskRules (MatchAnnotations rng (Res_Annotations resource)))
    ++ unknown_part rng resource ++ class_part resource.
Proof.
  intros Hok. unfold analyzeIngress_Warnings. apply generateWarnings_parts.
  apply Forall_forall. intros rule Hin.
  apply MatchAnnotations_elem in Hin as (key & _ & Hm); [| done].
  by apply first_match_in_table in Hm.
Qed.

Lemma warnings_follow_high_risk_rules_witness :
  range_ok range_canonical /\
  analyzeIngress_Warnings range_canonical resource_server_snippet
  = (snippet_warning
       <$> getHighRiskRules
             (MatchAnnotations range_canonical (Res_Annotations resource_server_snippet)))
    ++ unknown_part range_canonical resource_server_snippet
    ++ class_part resource_server_snippet.
Proof.
  split; [exact range_canonical_ok |].
  exact (warnings_follow_high_risk_rules range_canonical resource_server_snippet
           range_canonical_ok).
Defined.

(** ** The known records by risk level *)

Lemma group_loop (l : list (string * AnnotationUsage)) (risk : string) :
  forall byRisk : gmap string (list AnnotationUsage),
  default [] (foldl group_by_risk byRisk l !! risk)
  = default [] (byRisk !! risk) ++ filter (fun usage => Risk usage = risk) l.*2.
Proof.
  induction l as [| [k u] l IH]; intros byRisk; cbn [foldl fmap list_fmap snd].
  - by rewrite filter_nil, app_nil_r.
  - rewrite IH, filter_cons. unfold group_by_risk. cbn [snd].
    destruct (decide (Risk u = risk)) as [-> | Hne].
    + rewrite lookup_insert_eq. cbn [default from_option]. unfold id.
      by rewrite <- app_assoc.
    + by rewrite lookup_insert_ne.
Qed.

Lemma group_loop_nonempty (l : list (string * AnnotationUsage)) :
  forall byRisk : gmap string (list AnnotationUsage),
  (forall (risk : string) group, byRisk !! risk = Some group -> group <> []) ->
  forall (risk : string) group,
    foldl group_by_risk byRisk l !! risk = Some group -> group <> [].
Proof.
  induction l as [| [k u] l IH]; intros byRisk Hne; cbn [foldl]; [done |].
  apply IH. intros risk group. unfold group_by_risk. cbn [snd].
  destruct (decide (Risk u = risk)) as [-> | Hr].
  - rewrite lookup_insert_eq. intros [= <-]. by intros ?%app_eq_nil%proj2.
  - rewrite lookup_insert_ne by done. apply Hne.
Qed.

Lemma sort_loop srt (l : list (string * list AnnotationUsage)) :
  NoDup l.*1 -> forall (byRisk : gmap string (list AnnotationUsage)) (risk : string),
  foldl (sort_group srt) byRisk l !! risk
  = match (list_to_map l : gmap string (list AnnotationUsage)) !! risk with
    | Some _ => Some (srt _ more_used (default [] (byRisk !! risk)))
    | None => byRisk !! risk
    end.
Proof.
  induction l as [| [k g] l IH]; intros Hnd byRisk risk; [done |].
  apply NoDup_cons in Hnd as [Hnotin Hnd].
  cbn [foldl list_to_map foldr uncurry fst snd]. rewrite (IH Hnd).
  unfold sort_group. cbn [fst].
  destruct (decide (k = risk)) as [-> | Hne].
  - by rewrite (not_elem_of_list_to_map_1 _ _ Hnotin), !lookup_insert_eq.
  - by rewrite !lookup_insert_ne by done.
Qed.

Lemma GetAnnotationsByRisk_lookup rng srt inv (risk : string) :
  range_ok rng ->
  GetAnnotationsByRisk rng srt inv !! risk
  = srt _ more_used <$> foldl group_by_risk ∅ (rng _ (NginxAnnotations inv)) !! risk.
Proof.
  intros Hok. unfold GetAnnotationsByRisk.
  rewrite sort_loop by by apply range_ok_NoDup.
  rewrite range_ok_to_map by done.
  by destruct (foldl group_by_risk ∅ _ !! risk).
Qed.

(** X20. [GetAnnotationsByRisk] has an entry for a level exactly when some known
    record carries it; the slice of a level holds the known records of that
    level, each once, and no record in it is used more often than one
    before it. *)
Theorem GetAnnotationsByRisk_groups (rng : range_oracle) (srt : slice_sorter)
    (inv : AnnotationInventory) (risk : RiskLevel) :
  range_ok rng -> sort_Slice_ok srt ->
  default [] (GetAnnotationsByRisk rng srt inv !! risk) ≡ₚ known_at inv risk /\
  by_usage_desc (default [] (GetAnnotationsByRisk rng srt inv !! risk)) /\
  (is_Some (GetAnnotationsByRisk rng srt inv !! risk) <-> known_at inv risk <> []).
Proof.
  revert risk. unfold RiskLevel. intros risk Hok Hsrt.
  rewrite GetAnnotationsByRisk_lookup by done.
  pose proof (group_loop (rng _ (NginxAnnotations inv)) risk ∅) as Hgroup.
  rewrite lookup_empty, app_nil_l in Hgroup.
  assert (Hperm : filter (fun usage => Risk usage = risk) (rng _ (NginxAnnotations inv)).*2
                  ≡ₚ known_at inv risk).
  { unfold known_at. by rewrite (Hok _ (NginxAnnotations inv)). }
  destruct (foldl group_by_risk ∅ (rng _ (NginxAnnotations inv)) !! risk)
    as [group |] eqn:Hg.
  - change (default [] (srt _ more_used <$> Some group)) with (srt _ more_used group).
    change (default [] (Some group)) with group in Hgroup.
    destruct (Hsrt _ more_used group) as [Hp Hsorted]. split; [| split].
    + by rewrite Hp, Hgroup.
    + eapply StronglySorted_weaken;
        [| exact (Hsorted more_used_asym more_used_negtrans)].
      intros a b. unfold more_used. cbn. lia.
    + split; [| eauto]. intros _ Hnil. rewrite Hnil in Hperm.
      apply Permutation_nil_r in Hperm. rewrite <- Hgroup in Hperm.
      refine (group_loop_nonempty _ ∅ _ risk group Hg Hperm).
      intros r g Hr. by rewrite lookup_empty in Hr.
  - change (default [] (srt _ more_used <$> @None (list AnnotationUsage)))
      with (@nil AnnotationUsage).
    change (default [] (@None (list AnnotationUsage))) with (@nil AnnotationUsage) in Hgroup.
    split; [| split].
    + by rewrite <- Hperm, <- Hgroup.
    + constructor.
    + split; [by intros [? ?] |]. intros Hne. exfalso. apply Hne.
      apply Permutation_nil_r. by rewrite <- Hperm, <- Hgroup.
Qed.

Lemma GetAnnotationsByRisk_groups_witness :
  range_ok range_canonical /\ sort_Slice_ok insertionSortLessFunc /\
  default [] (GetAnnotationsByRisk range_canonical insertionSortLessFunc
                inventory_third_high !! RiskAuto)
    ≡ₚ known_at inventory_third_high RiskAuto /\
  by_usage_desc
    (default [] (GetAnnotationsByRisk range_canonical insertionSortLessFunc
                   inventory_third_high !! RiskAuto)) /\
  (is_Some (GetAnnotationsByRisk range_canonical insertionSortLessFunc
              inventory_third_high !! RiskAuto)
   <-> known_at inventory_third_high RiskAuto <> []).
Proof.
  split; [exact range_canonical_ok |]. split; [exact insertionSortLessFunc_ok |].
  exact (GetAnnotationsByRisk_groups range_canonical insertionSortLessFunc
           inventory_third_high RiskAuto range_canonical_ok insertionSortLessFunc_ok).
Defined.

(** ** Sorting the records of a report *)

Lemma string_ltb_asym a b : String.ltb a b = true -> String.ltb b a = false.
Proof.
  unfold String.ltb. rewrite (String.compare_antisym b a).
  by destruct (String.compare a b).
Qed.

Lemma string_ltb_false a b :
  String.ltb a b = false <-> a = b \/ String.ltb b a = true.
Proof.
  unfold String.ltb. rewrite (String.compare_antisym b a).
  destruct (String.compare a b) eqn:Hc; cbn.
  - apply String.compare_eq_iff in Hc. split; [auto | done].
  - split; [done |]. intros [-> | ?]; [| done].
    exfalso. assert (String.compare b b = Eq) as Hbb
      by (by apply OrderedTypeEx.String_as_OT.cmp_eq). congruence.
  - split; [auto | done].
Qed.

Lemma string_ltb_trans a b c :
  String.ltb a b = true -> String.ltb b c = true -> String.ltb a c = true.
Proof.
  unfold String.ltb. intros Hab Hbc.
  assert (String.compare a b = Lt) as Hab' by (by destruct (String.compare a b)).
  assert (String.compare b c = Lt) as Hbc' by (by destruct (String.compare b c)).
  apply OrderedTypeEx.String_as_OT.cmp_lt in Hab', Hbc'.
  pose proof (OrderedTypeEx.String_as_OT.lt_trans _ _ _ Hab' Hbc') as Hac.
  apply OrderedTypeEx.String_as_OT.cmp_lt in Hac.
  unfold OrderedTypeEx.String_as_OT.cmp in Hac. by rewrite Hac.
Qed.

Lemma key_before_asym : less_asym key_before.
Proof. intros a b. apply string_ltb_asym. Qed.

Lemma key_before_negtrans : less_negtrans key_before.
Proof.
  intros a b c. unfold key_before. rewrite !string_ltb_false.
  intros [-> | Hba] [<- | Hcb]; auto.
  right. by apply (string_ltb_trans _ (Key b)).
Qed.

Lemma more_risky_asym : less_asym more_risky.
Proof. intros a b. unfold more_risky. lia. Qed.

Lemma more_risky_negtrans : less_negtrans more_risky.
Proof. intros a b c. unfold more_risky. lia. Qed.

Lemma sortAnnotations_cases srt annotations sortBy :
  sortAnnotations srt annotations sortBy
  = if String.eqb sortBy "risk" then srt _ more_risky annotations
    else if String.eqb sortBy "name" then srt _ key_before annotations
    else srt _ more_used annotations.
Proof.
  unfold sortAnnotations. destruct (String.eqb sortBy "usage") eqn:Hu; [| done].
  apply String.eqb_eq in Hu as ->. done.
Qed.

Lemma sortAnnotations_sorted srt annotations sortBy :
  sort_Slice_ok srt ->
  sortAnnotations srt annotations sortBy ≡ₚ annotations /\
  StronglySorted (in_order sortBy) (sortAnnotations srt annotations sortBy).
Proof.
  intros Hsrt. rewrite sortAnnotations_cases. unfold in_order.
  destruct (String.eqb sortBy "risk"); [| destruct (String.eqb sortBy "name")].
  - destruct (Hsrt _ more_risky annotations) as [Hp Hs]. split; [done |].
    eapply StronglySorted_weaken; [| exact (Hs more_risky_asym more_risky_negtrans)].
    intros a b. unfold more_risky. cbn. lia.
  - destruct (Hsrt _ key_before annotations) as [Hp Hs]. split; [done |].
    exact (Hs key_before_asym key_before_negtrans).
  - destruct (Hsrt _ more_used annotations) as [Hp Hs]. split; [done |].
    eapply StronglySorted_weaken; [| exact (Hs more_used_asym more_used_negtrans)].
    intros a b. unfold more_used. cbn. lia.
Qed.

(** X21. [sortAnnotations] rearranges the records it is given: by descending risk
    priority for "risk" (HIGH_RISK, MANUAL, AUTO, then every other level),
    by ascending key for "name", and by descending usage count for "usage"
    and for every other value of [sortBy], which sorts as "usage" does. *)
Theorem sortAnnotations_orders (srt : slice_sorter) (annotations : list AnnotationUsage)
    (sortBy : string) :
  sort_Slice_ok srt ->
  sortAnnotations srt annotations sortBy ≡ₚ annotations /\
  StronglySorted (in_order sortBy) (sortAnnotations srt annotations sortBy) /\
  (sortBy <> "risk" -> sortBy <> "name" ->
   sortAnnotations srt annotations sortBy = sortAnnotations srt annotations "usage").
Proof.
  intros Hsrt. destruct (sortAnnotations_sorted srt annotations sortBy Hsrt) as [Hp Hs].
  split; [done |]. split; [done |]. intros Hrisk Hname.
  rewrite sortAnnotations_cases. apply String.eqb_neq in Hrisk, Hname.
  by rewrite Hrisk, Hname.
Qed.

Lemma sortAnnotations_orders_witness :
  sort_Slice_ok insertionSortLessFunc /\
  sortAnnotations insertionSortLessFunc
    [usage_of "b" 1 RiskAuto; usage_of "a" 2 RiskUnknown; usage_of "c" 3 RiskHigh] "risk"
    ≡ₚ [usage_of "b" 1 RiskAuto; usage_of "a" 2 RiskUnknown; usage_of "c" 3 RiskHigh] /\
  StronglySorted (in_order "risk")
    (sortAnnotations insertionSortLessFunc
       [usage_of "b" 1 RiskAuto; usage_of "a" 2 RiskUnknown; usage_of "c" 3 RiskHigh]
       "risk") /\
  ("risk" <> "risk" -> "risk" <> "name" ->
   sortAnnotations insertionSortLessFunc
     [usage_of "b" 1 RiskAuto; usage_of "a" 2 RiskUnknown; usage_of "c" 3 RiskHigh] "risk"
   = sortAnnotations insertionSortLessFunc
       [usage_of "b" 1 RiskAuto; usage_of "a" 2 RiskUnknown; usage_of "c" 3 RiskHigh]
       "usage").
Proof.
  split; [exact insertionSortLessFunc_ok |].
  exact (sortAnnotations_orders insertionSortLessFunc
           [usage_of "b" 1 RiskAuto; usage_of "a" 2 RiskUnknown; usage_of "c" 3 RiskHigh]
           "risk" insertionSortLessFunc_ok).
Defined.

Lemma NoDup_fmap_inj {A B} (f : A -> B) (l : list A) x y :
  NoDup (f <$> l) -> x ∈ l -> y ∈ l -> f x = f y -> x = y.
Proof.
  induction l as [| z l IH]; intros Hnd Hx Hy Hf; [by apply elem_of_nil in Hx |].
  cbn [fmap list_fmap] in Hnd. apply NoDup_cons in Hnd as [Hnotin Hnd].
  apply elem_of_cons in Hx as [-> | Hx], Hy as [-> | Hy].
  - done.
  - exfalso. apply Hnotin. rewrite Hf. apply list_elem_of_fmap. eauto.
  - exfalso. apply Hnotin. rewrite <- Hf. apply list_elem_of_fmap. eauto.
  - by apply IH.
Qed.

(** X22. Sorted by name, records with distinct keys come out in one order only:
    the result does not depend on the sorting routine nor on the order in
    which the records were collected from the map. *)
Theorem sort_by_name_is_determined (srt1 srt2 : slice_sorter)
    (annotations1 annotations2 : list AnnotationUsage) :
  sort_Slice_ok srt1 -> sort_Slice_ok srt2 ->
  annotations1 ≡ₚ annotations2 ->
  NoDup (Key <$> annotations1) ->
  sortAnnotations srt1 annotations1 "name" = sortAnnotations srt2 annotations2 "name".
Proof.
  intros Hsrt1 Hsrt2 Hperm Hnd.
  destruct (sortAnnotations_sorted srt1 annotations1 "name" Hsrt1) as [Hp1 Hs1].
  destruct (sortAnnotations_sorted srt2 annotations2 "name" Hsrt2) as [Hp2 Hs2].
  apply (StronglySorted_unique_strong (in_order "name")); [| done | done |].
  - intros x1 x2 Hx1 Hx2 H12 H21. rewrite Hp1 in Hx1. rewrite Hp2, <- Hperm in Hx2.
    apply (NoDup_fmap_inj Key annotations1); [done | done | done |].
    change (String.ltb (Key x2) (Key x1) = false) in H12.
    change (String.ltb (Key x1) (Key x2) = false) in H21.
    apply string_ltb_false in H12 as [H12 | H12]; [done | congruence].
  - by rewrite Hp1, Hp2.
Qed.

Lemma sort_by_name_is_determined_witness :
  sort_Slice_ok insertionSortLessFunc /\
  [usage_of "b" 1 RiskAuto; usage_of "a" 2 RiskUnknown; usage_of "c" 3 RiskHigh]
    ≡ₚ [usage_of "a" 2 RiskUnknown; usage_of "b" 1 RiskAuto; usage_of "c" 3 RiskHigh] /\
  NoDup (Key <$> [usage_of "b" 1 RiskAuto; usage_of "a" 2 RiskUnknown;
                  usage_of "c" 3 RiskHigh]) /\
  sortAnnotations insertionSortLessFunc
    [usage_of "b" 1 RiskAuto; usage_of "a" 2 RiskUnknown; usage_of "c" 3 RiskHigh] "name"
  = sortAnnotations insertionSortLessFunc
      [usage_of "a" 2 RiskUnknown; usage_of "b" 1 RiskAuto; usage_of "c" 3 RiskHigh]
      "name".
Proof.
  assert (Hperm :
    [usage_of "b" 1 RiskAuto; usage_of "a" 2 RiskUnknown; usage_of "c" 3 RiskHigh]
      ≡ₚ [usage_of "a" 2 RiskUnknown; usage_of "b" 1 RiskAuto; usage_of "c" 3 RiskHigh])
    by apply Permutation_swap.
  assert (Hnd : NoDup (Key <$> [usage_of "b" 1 RiskAuto; usage_of "a" 2 RiskUnknown;
                                usage_of "c" 3 RiskHigh])).
  { apply (bool_decide_unpack _). vm_compute. exact I. }
  split; [exact insertionSortLessFunc_ok |]. split; [exact Hperm |].
  split; [exact Hnd |].
  exact (sort_by_name_is_determined insertionSortLessFunc insertionSortLessFunc _ _
           insertionSortLessFunc_ok insertionSortLessFunc_ok Hperm Hnd).
Defined.

(** *** The most used records and the most frequent values *)

Lemma getTopAnnotations_spec {A} (annotations : list A) limit :
  getTopAnnotations annotations limit
  = if limit <? 0 then None else Some (take (Z.to_nat limit) annotations).
Proof.
  unfold getTopAnnotations, slice_to.
  destruct (Z.leb_spec (Z.of_nat (length annotations)) limit) as [Hle | Hgt].
  - rewrite (proj2 (Z.ltb_ge _ _)) by lia. by rewrite take_ge by lia.
  - done.
Qed.

(** X23. [getTopAnnotations] panics for a negative limit, also on an empty slice.
    Applied, with a limit that is not negative, to records sorted by usage
    ([sortBy] neither "risk" nor "name"), it returns the first [limit]
    records, or all when there are fewer, of an ordering of the records in
    which no record is used more often than one before it. *)
Theorem top_annotations_are_most_used (srt : slice_sorter)
    (annotations : list AnnotationUsage) (sortBy : string) (limit : int) :
  sort_Slice_ok srt ->
  sortBy <> "risk" -> sortBy <> "name" ->
  (limit < 0 -> getTopAnnotations (sortAnnotations srt annotations sortBy) limit = None) /\
  (0 <= limit ->
   exists top rest,
     getTopAnnotations (sortAnnotations srt annotations sortBy) limit = Some top /\
     top ++ rest ≡ₚ annotations /\
     by_usage_desc (top ++ rest) /\
     length top = Nat.min (Z.to_nat limit) (length annotations)).
Proof.
  intros Hsrt Hrisk Hname. rewrite getTopAnnotations_spec.
  destruct (sortAnnotations_sorted srt annotations sortBy Hsrt) as [Hperm Hsorted].
  unfold in_order in Hsorted.
  apply String.eqb_neq in Hrisk, Hname. rewrite Hrisk, Hname in Hsorted. split.
  - intros Hneg. by rewrite (proj2 (Z.ltb_lt _ _)).
  - intros Hlimit. rewrite (proj2 (Z.ltb_ge _ _)) by done.
    exists (take (Z.to_nat limit) (sortAnnotations srt annotations sortBy)),
           (drop (Z.to_nat limit) (sortAnnotations srt annotations sortBy)).
    rewrite take_drop, length_take.
    split; [done |]. split; [done |]. split; [done |]. by rewrite Hperm.
Qed.

Lemma top_annotations_are_most_used_witness :
  sort_Slice_ok insertionSortLessFunc /\ "namespace" <> "risk" /\ "namespace" <> "name" /\
  (-1 < 0 ->
   getTopAnnotations
     (sortAnnotations insertionSortLessFunc
        [usage_of "b" 1 RiskAuto; usage_of "a" 2 RiskUnknown; usage_of "c" 3 RiskHigh]
        "namespace") (-1) = None) /\
  (0 <= 2 ->
   exists top rest,
     getTopAnnotations
       (sortAnnotations insertionSortLessFunc
          [usage_of "b" 1 RiskAuto; usage_of "a" 2 RiskUnknown; usage_of "c" 3 RiskHigh]
          "namespace") 2 = Some top /\
     top ++ rest
       ≡ₚ [usage_of "b" 1 RiskAuto; usage_of "a" 2 RiskUnknown; usage_of "c" 3 RiskHigh] /\
     by_usage_desc (top ++ rest) /\
     length top
     = Nat.min (Z.to_nat 2)
         (length [usage_of "b" 1 RiskAuto; usage_of "a" 2 RiskUnknown;
                  usage_of "c" 3 RiskHigh])).
Proof.
  assert (Hrisk : "namespace" <> "risk") by discriminate.
  assert (Hname : "namespace" <> "name") by discriminate.
  split; [exact insertionSortLessFunc_ok |]. split; [exact Hrisk |]. split; [exact Hname |].
  split.
  - exact (proj1 (top_annotations_are_most_used insertionSortLessFunc
             [usage_of "b" 1 RiskAuto; usage_of "a" 2 RiskUnknown; usage_of "c" 3 RiskHigh]
             "namespace" (-1) insertionSortLessFunc_ok Hrisk Hname)).
  - exact (proj2 (top_annotations_are_most_used insertionSortLessFunc
             [usage_of "b" 1 RiskAuto; usage_of "a" 2 RiskUnknown; usage_of "c" 3 RiskHigh]
             "namespace" 2 insertionSortLessFunc_ok Hrisk Hname)).
Defined.

Lemma examples_loop_spec limit (freqs : list (string * int)) : forall i examples,
  examples_loop limit i freqs examples
  = examples ++ (format_example <$> take (Z.to_nat (limit - i)) freqs).
Proof.
  induction freqs as [| vf freqs IH]; intros i examples; cbn [examples_loop].
  - by rewrite take_nil, app_nil_r.
  - destruct (Z.geb_spec i limit) as [Hge | Hlt].
    + replace (Z.to_nat (limit - i)) with 0%nat by lia. by rewrite app_nil_r.
    + rewrite IH. replace (Z.to_nat (limit - i)) with (S (Z.to_nat (limit - (i + 1)))) by lia.
      cbn [take fmap list_fmap]. by rewrite <- app_assoc.
Qed.

Lemma collect_entries {A} (l : list A) : forall acc,
  foldl (fun freqs kv => freqs ++ [kv]) acc l = acc ++ l.
Proof.
  induction l as [| x l IH]; intros acc; cbn [foldl].
  - by rewrite app_nil_r.
  - by rewrite IH, <- app_assoc.
Qed.

Lemma more_frequent_asym : less_asym more_frequent.
Proof. intros a b. unfold more_frequent. lia. Qed.

Lemma more_frequent_negtrans : less_negtrans more_frequent.
Proof. intros a b c. unfold more_frequent. lia. Qed.

(** X24. [formatValueExamples] returns the empty string for an empty histogram.
    Otherwise it lists the first [limit] values (none for a limit that is
    not positive, all when there are fewer) of an ordering of the histogram
    in which no value is counted more often than one before it, each with
    its count, separated by commas, and appends three dots when values were
    left out. *)
Theorem formatValueExamples_shows_most_frequent (rng : range_oracle) (srt : slice_sorter)
    (valueExamples : gmap string int) (limit : int) :
  range_ok rng -> sort_Slice_ok srt ->
  (valueExamples = ∅ -> formatValueExamples rng srt valueExamples limit = "") /\
  (valueExamples <> ∅ ->
   exists shown rest,
     shown ++ rest ≡ₚ map_to_list valueExamples /\
     by_count_desc (shown ++ rest) /\
     length shown = Nat.min (Z.to_nat limit) (size valueExamples) /\
     formatValueExamples rng srt valueExamples limit
     = match rest with
       | [] => strings_Join (format_example <$> shown) ", "
       | _ => strings_Join (format_example <$> shown) ", " +:+ "..."
       end).
Proof.
  intros Hok Hsrt. split.
  - intros ->. done.
  - intros Hne. unfold formatValueExamples.
    assert (Hsize : size valueExamples <> 0%nat) by (by intros ?%map_size_empty_inv).
    unfold map_len. rewrite (proj2 (Z.eqb_neq _ _)) by lia.
    rewrite collect_entries, app_nil_l, examples_loop_spec, app_nil_l, Z.sub_0_r.
    destruct (Hsrt _ more_frequent (rng _ valueExamples)) as [Hperm Hsorted].
    set (freqs := srt _ more_frequent (rng _ valueExamples)) in *. clearbody freqs.
    assert (Hlen : length freqs = size valueExamples).
    { by rewrite Hperm, (Hok _ valueExamples), length_map_to_list. }
    exists (take (Z.to_nat limit) freqs), (drop (Z.to_nat limit) freqs).
    rewrite take_drop, length_take, Hlen. split; [| split; [| split; [done |]]].
    + by rewrite Hperm, (Hok _ valueExamples).
    + eapply StronglySorted_weaken;
        [| exact (Hsorted more_frequent_asym more_frequent_negtrans)].
      intros [va ca] [vb cb] Hab. unfold more_frequent in Hab. cbn [snd] in *. lia.
    + destruct (Z.gtb_spec (Z.of_nat (size valueExamples)) limit) as [Hgt | Hle].
      * destruct (drop (Z.to_nat limit) freqs) eqn:Hd; [| done].
        apply (f_equal length) in Hd. rewrite length_drop in Hd. cbn in Hd. lia.
      * rewrite drop_ge by lia. done.
Qed.

Lemma formatValueExamples_shows_most_frequent_witness :
  range_ok range_canonical /\ sort_Slice_ok insertionSortLessFunc /\
  (({[ "true" := 3; "false" := 1 ]} : gmap string int) = ∅ ->
   formatValueExamples range_canonical insertionSortLessFunc
     {[ "true" := 3; "false" := 1 ]} 1 = "") /\
  (({[ "true" := 3; "false" := 1 ]} : gmap string int) <> ∅ ->
   exists shown rest,
     shown ++ rest ≡ₚ map_to_list ({[ "true" := 3; "false" := 1 ]} : gmap string int) /\
     by_count_desc (shown ++ rest) /\
     length shown
     = Nat.min (Z.to_nat 1) (size ({[ "true" := 3; "false" := 1 ]} : gmap string int)) /\
     formatValueExamples range_canonical insertionSortLessFunc
       {[ "true" := 3; "false" := 1 ]} 1
     = match rest with
       | [] => strings_Join (format_example <$> shown) ", "
       | _ => strings_Join (format_example <$> shown) ", " +:+ "..."
       end).
Proof.
  split; [exact range_canonical_ok |]. split; [exact insertionSortLessFunc_ok |].
  exact (formatValueExamples_shows_most_frequent range_canonical insertionSortLessFunc
           {[ "true" := 3; "false" := 1 ]} 1 range_canonical_ok insertionSortLessFunc_ok).
Defined.

Example formatValueExamples_example :
  formatValueExamples range_canonical insertionSortLessFunc
    {[ "true" := 3; "false" := 1 ]} 1 = "`true`(3)...".
Proof. vm_compute. reflexivity. Qed.

(** ** From the Ingress objects to the resources *)

Lemma copyMap_entries rng original :
  range_ok rng -> copyMap rng original = entries original.
Proof.
  intros Hok. destruct original as [m |]; [| done].
  change (entries (Some m)) with m. cbn [copyMap].
  apply map_eq. intros key.
  rewrite (overwrite_loop id (rng _ m)) by by apply range_ok_NoDup.
  rewrite range_ok_to_map by done. rewrite lookup_empty.
  by destruct (m !! key).
Qed.

Lemma filterNginxIngresses_filter rng ingresses :
  filterNginxIngresses rng ingresses = List.filter (isNginxIngress rng) ingresses.
Proof. unfold filterNginxIngresses. by rewrite foldl_filter_append. Qed.

Lemma convertToModel_fmap rng ingresses :
  convertToModel rng ingresses = convert_one rng <$> ingresses.
Proof.
  unfold convertToModel.
  assert (forall acc, foldl (fun resources ingress => resources ++ [convert_one rng ingress])
                        acc ingresses = acc ++ (convert_one rng <$> ingresses)) as ->; [| done].
  induction ingresses as [| i l IH]; intros acc; cbn [foldl fmap list_fmap].
  - by rewrite app_nil_r.
  - by rewrite IH, <- app_assoc.
Qed.

(** X25. [convertToModel] returns one resource for each Ingress, in the same
    order, with the name and the namespace of the Ingress, the class name
    [getIngressClass] reads, and maps with exactly the annotations and the
    labels of the Ingress, a nil map becoming an empty one: the copy does
    not depend on the order in which the map is visited. *)
Theorem convertToModel_keeps_the_ingress (rng : range_oracle) (ingresses : list Ingress) :
  range_ok rng ->
  length (convertToModel rng ingresses) = length ingresses /\
  forall i ingress,
    ingresses !! i = Some ingress ->
    exists resource,
      convertToModel rng ingresses !! i = Some resource /\
      Res_Name (Disc_Resource resource) = Ing_Name ingress /\
      Res_Namespace (Disc_Resource resource) = Ing_Namespace ingress /\
      Res_ClassName (Disc_Resource resource) = getIngressClass ingress /\
      Res_Annotations (Disc_Resource resource) = entries (Ing_Annotations ingress) /\
      Disc_Labels resource = entries (Ing_Labels ingress).
Proof.
  intros Hok. rewrite convertToModel_fmap. split; [by rewrite length_fmap |].
  intros i ingress Hi. exists (convert_one rng ingress).
  rewrite list_lookup_fmap, Hi. split; [done |].
  cbn [convert_one Disc_Resource Disc_Labels Res_Name Res_Namespace Res_ClassName
       Res_Annotations].
  by rewrite !copyMap_entries.
Qed.

Lemma convertToModel_keeps_the_ingress_witness :
  range_ok range_reversed /\
  length (convertToModel range_reversed [ingress_other; ingress_legacy])
  = length [ingress_other; ingress_legacy] /\
  forall i ingress,
    [ingress_other; ingress_legacy] !! i = Some ingress ->
    exists resource,
      convertToModel range_reversed [ingress_other; ingress_legacy] !! i = Some resource /\
      Res_Name (Disc_Resource resource) = Ing_Name ingress /\
      Res_Namespace (Disc_Resource resource) = Ing_Namespace ingress /\
      Res_ClassName (Disc_Resource resource) = getIngressClass ingress /\
      Res_Annotations (Disc_Resource resource) = entries (Ing_Annotations ingress) /\
      Disc_Labels resource = entries (Ing_Labels ingress).
Proof.
  split; [exact range_reversed_ok |].
  exact (convertToModel_keeps_the_ingress range_reversed [ingress_other; ingress_legacy]
           range_reversed_ok).
Defined.

Lemma isNginxIngress_names_nginx rng ingress :
  range_ok rng ->
  isNginxIngress rng ingress = true ->
  names_nginx (Disc_Resource (convert_one rng ingress)).
Proof.
  intros Hok. unfold isNginxIngress, names_nginx.
  cbn [convert_one Disc_Resource Res_ClassName Res_Annotations].
  rewrite copyMap_entries by done. unfold getIngressClass.
  destruct (Ing_IngressClassName ingress) as [className |] eqn:Hclass.
  - destruct (String.eqb className "nginx") eqn:Hn.
    { apply String.eqb_eq in Hn. auto. }
    destruct (entries (Ing_Annotations ingress) !! legacy_class_key) as [class |] eqn:Hl.
    + destruct (String.eqb class "nginx") eqn:Hc.
      { apply String.eqb_eq in Hc as ->. auto. }
      intros Hex. right. right. apply existsb_exists in Hex as ([k v] & Hin & Hp).
      exists k. split; [| done]. exists v.
      apply (range_ok_elem rng); [done |]. by apply list_elem_of_In.
    + intros Hex. right. right. apply existsb_exists in Hex as ([k v] & Hin & Hp).
      exists k. split; [| done]. exists v.
      apply (range_ok_elem rng); [done |]. by apply list_elem_of_In.
  - destruct (entries (Ing_Annotations ingress) !! legacy_class_key) as [class |] eqn:Hl.
    + destruct (String.eqb class "nginx") eqn:Hc.
      { apply String.eqb_eq in Hc as ->. auto. }
      intros Hex. right. right. apply existsb_exists in Hex as ([k v] & Hin & Hp).
      exists k. split; [| done]. exists v.
      apply (range_ok_elem rng); [done |]. by apply list_elem_of_In.
    + intros Hex. right. right. apply existsb_exists in Hex as ([k v] & Hin & Hp).
      exists k. split; [| done]. exists v.
      apply (range_ok_elem rng); [done |]. by apply list_elem_of_In.
Qed.

(** X26. The resources the scan hands to the analysis come, in order, from the
    Ingress objects that [isNginxIngress] accepts, and each of them names
    the nginx controller: by its class name, by the legacy class annotation,
    or by an annotation under the managed prefix. *)
Theorem scanned_resources_name_nginx (rng : range_oracle) (ingresses : list Ingress) :
  range_ok rng ->
  scanned rng ingresses
  = convert_one rng <$> List.filter (isNginxIngress rng) ingresses /\
  forall resource,
    resource ∈ scanned rng ingresses -> names_nginx (Disc_Resource resource).
Proof.
  intros Hok. unfold scanned.
  rewrite convertToModel_fmap, filterNginxIngresses_filter. split; [done |].
  intros resource Hin. apply list_elem_of_fmap in Hin as (ingress & -> & Hin).
  apply list_elem_of_In, filter_In in Hin as [_ Hnginx].
  by apply isNginxIngress_names_nginx.
Qed.

Lemma scanned_resources_name_nginx_witness :
  range_ok range_canonical /\
  scanned range_canonical [ingress_other; ingress_legacy]
  = convert_one range_canonical
      <$> List.filter (isNginxIngress range_canonical) [ingress_other; ingress_legacy] /\
  forall resource,
    resource ∈ scanned range_canonical [ingress_other; ingress_legacy] ->
    names_nginx (Disc_Resource resource).
Proof.
  split; [exact range_canonical_ok |].
  exact (scanned_resources_name_nginx range_canonical [ingress_other; ingress_legacy]
           range_canonical_ok).
Defined.

(** *** Hosts and paths *)

Lemma host_loop (rules : list IngressRule) :
  forall (hosts : list string) (seen : gmap string bool),
  NoDup hosts -> (forall h, is_set seen h = true <-> h ∈ hosts) ->
  NoDup (foldl host_step (hosts, seen) rules).1 /\
  (forall h, is_set (foldl host_step (hosts, seen) rules).2 h = true
             <-> h ∈ (foldl host_step (hosts, seen) rules).1) /\
  forall h, h ∈ (foldl host_step (hosts, seen) rules).1 <->
    h ∈ hosts \/ (h <> "" /\ exists rule, rule ∈ rules /\ Host rule = h).
Proof.
  induction rules as [| r rules IH]; intros hosts seen Hnd Hseen; cbn [foldl].
  - cbn. split; [done |]. split; [done |]. intros h. split; [auto |].
    intros [? | (_ & rule & Hin & _)]; [done | by apply elem_of_nil in Hin].
  - unfold host_step at 2 4 6 8. cbn [fst snd].
    destruct (String.eqb (Host r) "") eqn:He; cbn [negb andb].
    + apply String.eqb_eq in He. destruct (IH hosts seen Hnd Hseen) as (H1 & H2 & H3).
      split; [done |]. split; [done |]. intros h. rewrite H3. split.
      * intros [? | (Hne & rule & Hin & Hh)]; [auto |]. right. split; [done |].
        exists rule. split; [by right | done].
      * intros [? | (Hne & rule & Hin & Hh)]; [auto |]. right. split; [done |].
        apply elem_of_cons in Hin as [-> | Hin]; [congruence | eauto].
    + apply String.eqb_neq in He. destruct (is_set seen (Host r)) eqn:Hs; cbn [negb].
      * apply Hseen in Hs. destruct (IH hosts seen Hnd Hseen) as (H1 & H2 & H3).
        split; [done |]. split; [done |]. intros h. rewrite H3. split.
        -- intros [? | (Hne & rule & Hin & Hh)]; [auto |]. right. split; [done |].
           exists rule. split; [by right | done].
        -- intros [? | (Hne & rule & Hin & Hh)]; [auto |].
           apply elem_of_cons in Hin as [-> | Hin]; [left; by rewrite <- Hh | eauto 6].
      * assert (Hnotin : Host r ∉ hosts).
        { intros Hin. apply Hseen in Hin. congruence. }
        destruct (IH (hosts ++ [Host r]) (<[Host r := true]> seen)) as (H1 & H2 & H3).
        { apply NoDup_app. split; [done |]. split; [| apply NoDup_singleton].
          intros x Hx Hx'. apply list_elem_of_singleton in Hx'. by subst. }
        { intros h. unfold is_set. rewrite elem_of_app, list_elem_of_singleton.
          destruct (decide (Host r = h)) as [<- | Hne].
          - rewrite lookup_insert_eq. cbn. split; auto.
          - rewrite lookup_insert_ne by done. fold (is_set seen h). rewrite Hseen.
            split; [auto | intros [? | ->]; done]. }
        split; [done |]. split; [done |]. intros h. rewrite H3.
        rewrite elem_of_app, list_elem_of_singleton. split.
        -- intros [[? | ->] | (Hne & rule & Hin & Hh)]; [auto | |].
           ++ right. split; [done |]. exists r. split; [by left | done].
           ++ right. split; [done |]. exists rule. split; [by right | done].
        -- intros [? | (Hne & rule & Hin & Hh)]; [auto |].
           apply elem_of_cons in Hin as [-> | Hin]; [left; right; by rewrite <- Hh |].
           right. eauto.
Qed.

(** X27. [extractHosts] lists, each once, the hosts of the rules that are not the
    empty string. *)
Theorem extractHosts_lists_each_host_once (ingress : Ingress) :
  NoDup (extractHosts ingress) /\
  forall host, host ∈ extractHosts ingress <->
    host <> "" /\ exists rule, rule ∈ Ing_Rules ingress /\ Host rule = host.
Proof.
  unfold extractHosts.
  destruct (host_loop (Ing_Rules ingress) [] ∅ NoDup_nil_2) as (H1 & _ & H3).
  { intros h. unfold is_set. rewrite lookup_empty. cbn. split; [done |].
    intros H. by apply elem_of_nil in H. }
  split; [done |]. intros host. rewrite H3. split.
  - intros [H | ?]; [by apply elem_of_nil in H | done].
  - auto.
Qed.

Lemma record_once_loop (xs : list string) :
  forall (l : list string) (seen : gmap string bool),
  NoDup l -> (forall h, is_set seen h = true <-> h ∈ l) ->
  NoDup (foldl record_once (l, seen) xs).1 /\
  forall h, h ∈ (foldl record_once (l, seen) xs).1 <-> h ∈ l \/ h ∈ xs.
Proof.
  induction xs as [| x xs IH]; intros l seen Hnd Hseen; cbn [foldl].
  - cbn. split; [done |]. intros h. split; [auto |].
    intros [? | H]; [done | by apply elem_of_nil in H].
  - unfold record_once at 2 4. cbn [fst snd].
    destruct (is_set seen x) eqn:Hs; cbn [negb].
    + apply Hseen in Hs. destruct (IH l seen Hnd Hseen) as (H1 & H2).
      split; [done |]. intros h. rewrite H2, elem_of_cons.
      split; [tauto | intros [? | [-> | ?]]; auto].
    + assert (Hnotin : x ∉ l).
      { intros Hin. apply Hseen in Hin. congruence. }
      destruct (IH (l ++ [x]) (<[x := true]> seen)) as (H1 & H2).
      { apply NoDup_app. split; [done |]. split; [| apply NoDup_singleton].
        intros y Hy Hy'. apply list_elem_of_singleton in Hy'. by subst. }
      { intros h. unfold is_set. rewrite elem_of_app, list_elem_of_singleton.
        destruct (decide (x = h)) as [<- | Hne].
        - rewrite lookup_insert_eq. cbn. split; auto.
        - rewrite lookup_insert_ne by done. fold (is_set seen h). rewrite Hseen.
          split; [auto | intros [? | ->]; done]. }
      split; [done |]. intros h. rewrite H2, elem_of_app, list_elem_of_singleton, elem_of_cons.
      tauto.
Qed.

Lemma path_loop (paths : list HTTPIngressPath) : forall acc,
  foldl path_step acc paths = foldl record_once acc (path_string <$> paths).
Proof.
  induction paths as [| p paths IH]; intros acc; [done |].
  cbn [foldl fmap list_fmap]. by rewrite IH.
Qed.

Lemma rule_loop (rules : list IngressRule) : forall acc,
  foldl rule_step acc rules = foldl record_once acc (rules ≫= path_strings).
Proof.
  induction rules as [| r rules IH]; intros acc; [done |].
  cbn [foldl mbind list_bind]. rewrite foldl_app, IH. f_equal.
  unfold rule_step, path_strings. destruct (HTTP r) as [paths |]; [| done].
  apply path_loop.
Qed.

(** X28. [extractPaths] lists, each once, the paths of the rules that have an
    HTTP part, the empty path written as "/": the empty string is never
    listed. *)
Theorem extractPaths_lists_each_path_once (ingress : Ingress) :
  NoDup (extractPaths ingress) /\
  ("" ∉ extractPaths ingress) /\
  forall p, p ∈ extractPaths ingress <->
    exists rule paths path,
      rule ∈ Ing_Rules ingress /\ HTTP rule = Some paths /\ path ∈ paths /\
      path_string path = p.
Proof.
  unfold extractPaths. rewrite rule_loop.
  destruct (record_once_loop (Ing_Rules ingress ≫= path_strings) [] ∅ NoDup_nil_2)
    as (H1 & H2).
  { intros h. unfold is_set. rewrite lookup_empty. cbn. split; [done |].
    intros H. by apply elem_of_nil in H. }
  assert (Hin : forall p, p ∈ Ing_Rules ingress ≫= path_strings <->
    exists rule paths path,
      rule ∈ Ing_Rules ingress /\ HTTP rule = Some paths /\ path ∈ paths /\
      path_string path = p).
  { intros p. rewrite list_elem_of_bind. split.
    - intros (rule & Hp & Hrule). unfold path_strings in Hp.
      destruct (HTTP rule) as [paths |] eqn:Hh; [| by apply elem_of_nil in Hp].
      apply list_elem_of_fmap in Hp as (path & -> & Hpath). eauto 8.
    - intros (rule & paths & path & Hrule & Hh & Hpath & <-). exists rule.
      split; [| done]. unfold path_strings. rewrite Hh. apply list_elem_of_fmap. eauto. }
  split; [done |]. split.
  - rewrite H2, Hin. intros [H | (rule & paths & path & _ & _ & _ & Hp)].
    + by apply elem_of_nil in H.
    + unfold path_string in Hp. destruct (String.eqb (Path path) "") eqn:He; [done |].
      by apply String.eqb_neq in He.
  - intros p. rewrite H2, Hin. split; [| auto].
    intros [H | ?]; [by apply elem_of_nil in H | done].
Qed.

(** *** The warning about the legacy class annotation *)

Lemma snippet_warning_not_deprecated rule :
  snippet_warning rule <> deprecated_class_warning.
Proof. unfold snippet_warning, deprecated_class_warning. cbn. discriminate. Qed.

Lemma unknown_warning_not_deprecated n :
  unknown_warning n <> deprecated_class_warning.
Proof. unfold unknown_warning, deprecated_class_warning. cbn. discriminate. Qed.

(** X29. For a resource converted from an Ingress, the analysis warns about the
    deprecated class annotation exactly when the Ingress has the annotation
    with the value nginx and a class name that is set to the empty string.
    An Ingress that has the annotation and no class name at all gets no
    such warning: [getIngressClass] fills the class name of its resource
    from the annotation. *)
Theorem deprecated_class_warning_needs_empty_class (rng : range_oracle)
    (ingress : Ingress) :
  range_ok rng ->
  deprecated_class_warning
    ∈ analyzeIngress_Warnings rng (Disc_Resource (convert_one rng ingress)) <->
  Ing_IngressClassName ingress = Some "" /\
  entries (Ing_Annotations ingress) !! legacy_class_key = Some "nginx".
Proof.
  intros Hok. unfold analyzeIngress_Warnings. rewrite generateWarnings_parts.
  2:{ apply Forall_forall. intros rule Hin.
      apply MatchAnnotations_elem in Hin as (key & _ & Hm); [| done].
      by apply first_match_in_table in Hm. }
  rewrite !elem_of_app. unfold class_part.
  cbn [convert_one Disc_Resource Res_ClassName Res_Annotations].
  rewrite copyMap_entries by done. unfold getIngressClass. split.
  - intros [Hs | [Hu | Hc]].
    + apply list_elem_of_fmap in Hs as (rule & Hs & _).
      symmetry in Hs. by apply snippet_warning_not_deprecated in Hs.
    + unfold unknown_part in Hu.
      destruct (GetUnknownNginxAnnotations _ _); [by apply elem_of_nil in Hu |].
      apply list_elem_of_singleton in Hu. symmetry in Hu.
      by apply unknown_warning_not_deprecated in Hu.
    + case_bool_decide as Hcond; [| by apply elem_of_nil in Hc].
      destruct Hcond as [Hl He]. split; [| done].
      destruct (Ing_IngressClassName ingress) as [className |]; [by rewrite He |].
      rewrite Hl in He. discriminate He.
  - intros [Hclass Hl]. right. right. rewrite Hclass.
    rewrite bool_decide_eq_true_2 by done. by left.
Qed.

Lemma deprecated_class_warning_needs_empty_class_witness :
  range_ok range_canonical /\
  (deprecated_class_warning
     ∈ analyzeIngress_Warnings range_canonical
         (Disc_Resource (convert_one range_canonical ingress_legacy)) <->
   Ing_IngressClassName ingress_legacy = Some "" /\
   entries (Ing_Annotations ingress_legacy) !! legacy_class_key = Some "nginx").
Proof.
  split; [exact range_canonical_ok |].
  exact (deprecated_class_warning_needs_empty_class range_canonical ingress_legacy
           range_canonical_ok).
Defined.

(** The Ingress with the legacy annotation and no class name is analysed
    without the warning about the legacy annotation. *)
Example legacy_ingress_is_not_warned :
  analyzeIngress_Warnings range_canonical
    (Disc_Resource (convert_one range_canonical ingress_legacy))
  = ["Contains Server Snippet: requires manual review and reimplementation"].
Proof. vm_compute. reflexivity. Qed.
